(** * Louvain clustering (sknetwork/clustering/louvain.py)

    A shallow embedding of the multilevel clustering engine: the CSR
    matrices it manipulates, the coarsened graph [AggregateGraph], the two
    engines of the greedy modularity optimizer ([GreedyModularity.fit] and
    the kernel [fit_core]) and the driver [Louvain.fit].

    Numbers.  The program computes with 64-bit floats; the embedding uses
    exact rationals in canonical form ([Qc]), so every statement below is
    about the algorithm over exact arithmetic.  A division whose divisor is
    zero has no value in this model: it is reported as [ZeroDivision].

    Arrays.  A numpy vector is a list; reading [a[i]] is [nth i a 0].  On a
    well-formed graph every index the program uses is in range, which is
    part of what the invariants below establish. *)

From Stdlib Require Import List Arith Lia Bool QArith Qcanon Lqa Sorted Permutation.
Import ListNotations.

(** ** Exceptions and results *)

Inductive exn : Type :=
| ValueError        (* scipy: dimension mismatch *)
| TypeError         (* an operand is None *)
| ZeroDivision.     (* a quotient whose divisor is zero *)

Inductive result (A : Type) : Type :=
| Ok (a : A)
| Raise (e : exn).

Arguments Ok {A} a.
Arguments Raise {A} e.

Definition bind {A B} (r : result A) (k : A -> result B) : result B :=
  match r with
  | Ok a => k a
  | Raise e => Raise e
  end.

Notation "'do' x <- r ; k" := (bind r (fun x => k))
  (at level 10, x name, r at level 100, k at level 200).

(** ** Exact arithmetic *)

Module Num.

Local Open Scope Qc_scope.

Definition Qcltb (x y : Qc) : bool := if Qclt_le_dec x y then true else false.
Definition Qcleb (x y : Qc) : bool := negb (Qcltb y x).

Definition two : Qc := 1 + 1.
Definition half : Qc := / two.

(** [np.sum] of a vector. *)
Fixpoint sum (l : list Qc) : Qc :=
  match l with
  | [] => 0
  | x :: t => x + sum t
  end.

(** Sum of [f i] for [i] in [range(n)]. *)
Fixpoint sumn (n : nat) (f : nat -> Qc) : Qc :=
  match n with
  | O => 0
  | S k => sumn k f + f k
  end.

(** Checked division: [x / y] when [y] is not zero. *)
Definition div (x y : Qc) : result Qc :=
  if Qc_eq_dec y 0 then Raise ZeroDivision else Ok (x / y).

Lemma Qcltb_lt x y : Qcltb x y = true <-> x < y.
Proof.
  unfold Qcltb. destruct (Qclt_le_dec x y) as [H|H]; split; intro K; auto.
  - discriminate.
  - exfalso. exact (Qcle_not_lt _ _ H K).
Qed.

Lemma Qcltb_ge x y : Qcltb x y = false <-> y <= x.
Proof.
  unfold Qcltb. destruct (Qclt_le_dec x y) as [H|H]; split; intro K; auto.
  - discriminate.
  - exfalso. exact (Qcle_not_lt _ _ K H).
Qed.

Lemma Qcleb_le x y : Qcleb x y = true <-> x <= y.
Proof.
  unfold Qcleb. rewrite negb_true_iff. apply Qcltb_ge.
Qed.

Lemma Qcleb_gt x y : Qcleb x y = false <-> y < x.
Proof.
  unfold Qcleb. rewrite negb_false_iff. apply Qcltb_lt.
Qed.

Lemma Qc_this_plus (x y : Qc) : (this (x + y) == this x + this y)%Q.
Proof. unfold Qcplus, Q2Qc, this at 1. apply Qred_correct. Qed.

Lemma Qc_this_opp (x : Qc) : (this (- x) == - this x)%Q.
Proof. unfold Qcopp, Q2Qc, this at 1. apply Qred_correct. Qed.

Lemma Qcplus_pos_nonneg x y : 0 < x -> 0 <= y -> 0 < x + y.
Proof.
  unfold Qclt, Qcle. rewrite Qc_this_plus. simpl. intros. lra.
Qed.

Lemma Qcplus_nonneg x y : 0 <= x -> 0 <= y -> 0 <= x + y.
Proof.
  unfold Qcle. rewrite Qc_this_plus. simpl. intros. lra.
Qed.

Lemma Qcplus_lt_r x y z : x < y -> z + x < z + y.
Proof.
  unfold Qclt. rewrite !Qc_this_plus. intros. lra.
Qed.

Lemma Qclt_plus_pos x d : 0 < d -> x < x + d.
Proof.
  unfold Qclt. rewrite Qc_this_plus. simpl. intros. lra.
Qed.

Lemma Qcle_plus_nonneg x d : 0 <= d -> x <= x + d.
Proof.
  unfold Qcle. rewrite Qc_this_plus. simpl. intros. lra.
Qed.

Lemma Qclt_minus_pos x y : 0 < x - y <-> y < x.
Proof.
  unfold Qcminus, Qclt. rewrite Qc_this_plus, Qc_this_opp. simpl. split; intros; lra.
Qed.

Lemma Qclt_irrefl' (x : Qc) : ~ x < x.
Proof. intro H. exact (Qclt_not_eq _ _ H eq_refl). Qed.

Lemma two_neq_0 : two <> 0.
Proof. intro H. discriminate (f_equal (fun q : Qc => Qnum (this q)) H). Qed.

Lemma half_double x : half * (x + x) = x.
Proof.
  transitivity ((/ two * two) * x).
  - unfold half, two. ring.
  - rewrite Qcmult_inv_l by exact two_neq_0. ring.
Qed.

Lemma sum_app l1 l2 : sum (l1 ++ l2) = sum l1 + sum l2.
Proof. induction l1 as [|x t IH]; simpl; [ring | rewrite IH; ring]. Qed.

Lemma sum_map_scale c l : sum (map (Qcmult c) l) = c * sum l.
Proof. induction l as [|x t IH]; simpl; [ring | rewrite IH; ring]. Qed.

Lemma sumn_ext n f g : (forall i, (i < n)%nat -> f i = g i) -> sumn n f = sumn n g.
Proof.
  induction n as [|k IH]; simpl; intros H; [reflexivity|].
  rewrite IH by (intros; apply H; lia). rewrite H by lia. reflexivity.
Qed.

Lemma sumn_plus n f g : sumn n (fun i => f i + g i) = sumn n f + sumn n g.
Proof. induction n as [|k IH]; simpl; [ring | rewrite IH; ring]. Qed.

Lemma sumn_minus n f g : sumn n (fun i => f i - g i) = sumn n f - sumn n g.
Proof. induction n as [|k IH]; simpl; [ring | rewrite IH; ring]. Qed.

Lemma sumn_scale n c f : sumn n (fun i => c * f i) = c * sumn n f.
Proof. induction n as [|k IH]; simpl; [ring | rewrite IH; ring]. Qed.

Lemma sumn_zero n : sumn n (fun _ => 0) = 0.
Proof. induction n as [|k IH]; simpl; [reflexivity | rewrite IH; ring]. Qed.

Lemma sumn_swap n m (f : nat -> nat -> Qc) :
  sumn n (fun i => sumn m (fun j => f i j)) = sumn m (fun j => sumn n (fun i => f i j)).
Proof.
  induction n as [|k IH]; simpl.
  - symmetry. apply sumn_zero.
  - rewrite IH, <- sumn_plus. reflexivity.
Qed.

(** Isolating one index of a sum. *)
Lemma sumn_single n x (v : Qc) :
  (x < n)%nat -> sumn n (fun i => if Nat.eqb i x then v else 0) = v.
Proof.
  induction n as [|k IH]; simpl; intros H; [lia|].
  destruct (Nat.eqb_spec k x) as [->|Hne].
  - rewrite (sumn_ext x _ (fun _ => 0)), sumn_zero; [ring|].
    intros i Hi. destruct (Nat.eqb_spec i x); [lia | reflexivity].
  - rewrite IH by lia. ring.
Qed.

Lemma sumn_single_out n x (v : Qc) :
  (n <= x)%nat -> sumn n (fun i => if Nat.eqb i x then v else 0) = 0.
Proof.
  intros H. rewrite (sumn_ext n _ (fun _ => 0)), sumn_zero; [reflexivity|].
  intros i Hi. destruct (Nat.eqb_spec i x); [lia | reflexivity].
Qed.

Lemma sumn_split n x f :
  (x < n)%nat ->
  sumn n f = f x + sumn n (fun i => if Nat.eqb i x then 0 else f i).
Proof.
  intros H.
  rewrite <- (sumn_single n x (f x) H) at 1.
  rewrite <- sumn_plus. apply sumn_ext. intros i _.
  destruct (Nat.eqb_spec i x) as [->|]; ring.
Qed.

Lemma sum_nth_sumn (l : list Qc) : sum l = sumn (length l) (fun i => nth i l 0).
Proof.
  induction l as [|x t IH] using rev_ind; simpl; [reflexivity|].
  rewrite sum_app, length_app, Nat.add_comm. simpl.
  rewrite app_nth2, Nat.sub_diag by lia. simpl.
  rewrite IH. f_equal; [|ring].
  apply sumn_ext. intros i Hi. rewrite app_nth1 by lia. reflexivity.
Qed.

End Num.

(** ** Sparse matrices in CSR format (scipy.sparse.csr_matrix)

    A matrix holds the three arrays the optimizer reads: [indptr],
    [indices] and [data].  Row [i] is the slice
    [indptr[i] : indptr[i+1]] of [indices] and [data].  A column may be
    stored several times in a row; the entry of the matrix is then the sum
    of the stored values. *)

Module Sparse.

Import Num.
Local Open Scope Qc_scope.

Definition slice {A : Type} (l : list A) (lo hi : nat) : list A :=
  firstn (hi - lo) (skipn lo l).

Record csr_matrix : Type := {
  shape : nat * nat;
  indptr : list nat;
  indices : list nat;
  data : list Qc
}.

Definition n_rows (m : csr_matrix) : nat := fst (shape m).
Definition n_cols (m : csr_matrix) : nat := snd (shape m).

(** A row as the list of its stored entries (column, value). *)
Definition entries : Type := list (nat * Qc).

Definition row (m : csr_matrix) (i : nat) : entries :=
  let lo := nth i (indptr m) 0%nat in
  let hi := nth (S i) (indptr m) 0%nat in
  combine (slice (indices m) lo hi) (slice (data m) lo hi).

Definition rows (m : csr_matrix) : list entries :=
  map (row m) (seq 0 (n_rows m)).

Fixpoint pointers (start : nat) (rs : list entries) : list nat :=
  match rs with
  | [] => [start]
  | r :: t => start :: pointers (start + length r) t
  end.

(** The CSR encoding of a list of rows. *)
Definition of_rows (sh : nat * nat) (rs : list entries) : csr_matrix :=
  {| shape := sh;
     indptr := pointers 0 rs;
     indices := map fst (concat rs);
     data := map snd (concat rs) |}.

(** A matrix is well formed when its arrays encode its rows and every
    stored column index is inside the shape. *)
Definition csr_wf (m : csr_matrix) : Prop :=
  m = of_rows (shape m) (rows m) /\
  Forall (fun r => Forall (fun e => (fst e < n_cols m)%nat) r) (rows m).

Definition row_sum (r : entries) : Qc := sum (map snd r).

(** The matrix entry at column [j] of a row: stored duplicates are summed. *)
Fixpoint row_at (r : entries) (j : nat) : Qc :=
  match r with
  | [] => 0
  | (k, w) :: t => (if Nat.eqb k j then w else 0) + row_at t j
  end.

(** [m.sum()]: the sum of all stored values. *)
Definition total (m : csr_matrix) : Qc := sum (data m).

(** Adding an entry to a row kept in ascending column order. *)
Fixpoint insert_entry (j : nat) (v : Qc) (r : entries) : entries :=
  match r with
  | [] => [(j, v)]
  | (k, w) :: t =>
      if Nat.ltb j k then (j, v) :: r
      else if Nat.eqb j k then (k, w + v) :: t
      else (k, w) :: insert_entry j v t
  end.

(** [sum_duplicates]: one entry per stored column. *)
Definition sum_duplicates (r : entries) : entries :=
  fold_right (fun e acc => insert_entry (fst e) (snd e) acc) [] r.

(** Column [j] of a matrix, as the entries of row [j] of its transpose. *)
Definition column (m : csr_matrix) (j : nat) : entries :=
  flat_map (fun i => map (fun e => (i, snd e))
                         (filter (fun e => Nat.eqb (fst e) j) (row m i)))
           (seq 0 (n_rows m)).

(** [m.T] *)
Definition transpose (m : csr_matrix) : csr_matrix :=
  of_rows (n_cols m, n_rows m) (map (column m) (seq 0 (n_cols m))).

(** [c * m] and [m / c] act on the stored values only. *)
Definition scale (c : Qc) (m : csr_matrix) : csr_matrix :=
  {| shape := shape m; indptr := indptr m; indices := indices m;
     data := map (Qcmult c) (data m) |}.

Definition divide (m : csr_matrix) (c : Qc) : result csr_matrix :=
  if Qc_eq_dec c 0 then Raise ZeroDivision
  else Ok {| shape := shape m; indptr := indptr m; indices := indices m;
             data := map (fun x => x / c) (data m) |}.

(** [a + b] *)
Definition add (a b : csr_matrix) : result csr_matrix :=
  if (Nat.eqb (n_rows a) (n_rows b) && Nat.eqb (n_cols a) (n_cols b))%bool then
    Ok (of_rows (shape a)
          (map (fun i => sum_duplicates (row a i ++ row b i)) (seq 0 (n_rows a))))
  else Raise ValueError.

(** Row [i] of the product [a.dot(b)]. *)
Definition dot_row (a b : csr_matrix) (i : nat) : entries :=
  sum_duplicates
    (flat_map (fun e => map (fun f => (fst f, snd e * snd f)) (row b (fst e)))
              (row a i)).

Definition product (a b : csr_matrix) : csr_matrix :=
  of_rows (n_rows a, n_cols b) (map (dot_row a b) (seq 0 (n_rows a))).

(** [a.dot(b)] for two sparse matrices; scipy raises [ValueError] on a
    dimension mismatch. *)
Definition dot (a b : csr_matrix) : result csr_matrix :=
  if Nat.eqb (n_cols a) (n_rows b) then Ok (product a b) else Raise ValueError.

Definition product_vec (a : csr_matrix) (v : list Qc) : list Qc :=
  map (fun i => sum (map (fun e => snd e * nth (fst e) v 0) (row a i)))
      (seq 0 (n_rows a)).

(** [a.dot(v)] for a dense vector [v]. *)
Definition dot_vec (a : csr_matrix) (v : list Qc) : result (list Qc) :=
  if Nat.eqb (n_cols a) (length v) then Ok (product_vec a v) else Raise ValueError.

(** [m.diagonal()] *)
Definition diagonal (m : csr_matrix) : list Qc :=
  map (fun i => row_at (row m i) i) (seq 0 (Nat.min (n_rows m) (n_cols m))).

(** [sparse.identity(n, format='csr')] *)
Definition identity (n : nat) : csr_matrix :=
  of_rows (n, n) (map (fun i => [(i, 1)]) (seq 0 n)).

(** *** Decoding an encoded matrix *)

Lemma nth_map_in {A B} (f : A -> B) l i d d' :
  (i < length l)%nat -> nth i (map f l) d = f (nth i l d').
Proof.
  revert i. induction l as [|x t IH]; intros [|i] H; simpl in *; try lia; auto.
  apply IH. lia.
Qed.

Lemma slice_app_mid {A} (pre r post : list A) :
  slice (pre ++ r ++ post) (length pre) (length pre + length r) = r.
Proof.
  unfold slice.
  rewrite skipn_app, skipn_all, Nat.sub_diag. simpl.
  replace (length pre + length r - length pre)%nat with (length r) by lia.
  rewrite firstn_app, firstn_all, Nat.sub_diag. simpl. apply app_nil_r.
Qed.

Lemma combine_fst_snd {A B} (l : list (A * B)) :
  combine (map fst l) (map snd l) = l.
Proof. induction l as [|[a b] t IH]; simpl; [reflexivity | now rewrite IH]. Qed.

Lemma pointers_head start rs : nth 0 (pointers start rs) 0%nat = start.
Proof. destruct rs; reflexivity. Qed.

Lemma pointers_length start rs : length (pointers start rs) = S (length rs).
Proof.
  revert start. induction rs as [|r t IH]; intros; simpl; [reflexivity|].
  now rewrite IH.
Qed.

Lemma slice_pointers rs : forall (pre : entries) i,
  (i < length rs)%nat ->
  let p := pointers (length pre) rs in
  slice (map fst (pre ++ concat rs)) (nth i p 0%nat) (nth (S i) p 0%nat)
  = map fst (nth i rs []) /\
  slice (map snd (pre ++ concat rs)) (nth i p 0%nat) (nth (S i) p 0%nat)
  = map snd (nth i rs []).
Proof.
  induction rs as [|r t IH]; intros pre i Hi; simpl in Hi; [lia|].
  destruct i as [|i].
  - cbn [pointers concat nth]. rewrite pointers_head.
    rewrite !map_app. split.
    + rewrite <- (length_map fst pre) at 1 2.
      rewrite <- (length_map fst r) at 1.
      apply slice_app_mid.
    + rewrite <- (length_map snd pre).
      rewrite <- (length_map snd r).
      apply slice_app_mid.
  - cbn [pointers concat]. cbn [nth].
    specialize (IH (pre ++ r) i ltac:(lia)).
    rewrite length_app in IH. cbn zeta in IH.
    rewrite <- !app_assoc in IH. exact IH.
Qed.

Lemma row_pointers rs : forall (pre : entries) i,
  (i < length rs)%nat ->
  let p := pointers (length pre) rs in
  combine (slice (map fst (pre ++ concat rs)) (nth i p 0%nat) (nth (S i) p 0%nat))
          (slice (map snd (pre ++ concat rs)) (nth i p 0%nat) (nth (S i) p 0%nat))
  = nth i rs [].
Proof.
  intros pre i Hi. cbn zeta.
  destruct (slice_pointers rs pre i Hi) as [-> ->]. apply combine_fst_snd.
Qed.

Lemma row_of_rows sh rs i :
  (i < length rs)%nat -> row (of_rows sh rs) i = nth i rs [].
Proof.
  intros Hi. exact (row_pointers rs [] i Hi).
Qed.

Lemma rows_of_rows n c rs :
  length rs = n -> rows (of_rows (n, c) rs) = rs.
Proof.
  intros <-. unfold rows, n_rows. simpl.
  apply nth_ext with (d := []) (d' := []); rewrite length_map, length_seq; [reflexivity|].
  intros i Hi.
  rewrite (nth_indep _ [] (row (of_rows (length rs, c) rs) 0)) by now rewrite length_map, length_seq.
  rewrite map_nth, seq_nth by assumption. simpl. now apply row_of_rows.
Qed.

Lemma row_out_of_rows n c rs i :
  length rs = n -> (i < n)%nat -> row (of_rows (n, c) rs) i = nth i rs [].
Proof. intros <- Hi. now apply row_of_rows. Qed.

Lemma of_rows_wf n c rs :
  length rs = n ->
  Forall (fun r => Forall (fun e => (fst e < c)%nat) r) rs ->
  csr_wf (of_rows (n, c) rs).
Proof.
  intros Hn Hc. unfold csr_wf. rewrite rows_of_rows by assumption.
  split; [reflexivity | exact Hc].
Qed.

Lemma row_rows m i : (i < n_rows m)%nat -> row m i = nth i (rows m) [].
Proof.
  intros Hi. unfold rows.
  rewrite (nth_indep _ [] (row m 0)) by now rewrite length_map, length_seq.
  now rewrite map_nth, seq_nth.
Qed.

Lemma wf_slices m i :
  csr_wf m -> (i < n_rows m)%nat ->
  slice (indices m) (nth i (indptr m) 0%nat) (nth (S i) (indptr m) 0%nat)
  = map fst (row m i) /\
  slice (data m) (nth i (indptr m) 0%nat) (nth (S i) (indptr m) 0%nat)
  = map snd (row m i).
Proof.
  intros [E _] Hi. rewrite (row_rows m i Hi).
  assert (L : (i < length (rows m))%nat).
  { unfold rows. now rewrite length_map, length_seq. }
  pose proof (slice_pointers (rows m) [] i L) as H. cbn zeta in H.
  change (length (@nil (nat * Qc))) with 0%nat in H.
  change ([] ++ concat (rows m)) with (concat (rows m)) in H.
  assert (Ei : indices m = map fst (concat (rows m))) by (rewrite E at 1; reflexivity).
  assert (Ed : data m = map snd (concat (rows m))) by (rewrite E at 1; reflexivity).
  assert (Ep : indptr m = pointers 0 (rows m)) by (rewrite E at 1; reflexivity).
  rewrite Ei, Ed, Ep. exact H.
Qed.

Lemma scale_of_rows c sh rs :
  scale c (of_rows sh rs)
  = of_rows sh (map (map (fun e => (fst e, c * snd e))) rs).
Proof.
  unfold scale, of_rows. simpl. f_equal.
  - generalize 0%nat.
    induction rs as [|r t IH]; intros k; simpl; [reflexivity|].
    now rewrite length_map, IH.
  - rewrite <- concat_map, map_map. reflexivity.
  - rewrite <- concat_map, !map_map. reflexivity.
Qed.

Lemma rows_length m : length (rows m) = n_rows m.
Proof. unfold rows. now rewrite length_map, length_seq. Qed.

Lemma wf_row_cols m i e :
  csr_wf m -> (i < n_rows m)%nat -> In e (row m i) -> (fst e < n_cols m)%nat.
Proof.
  intros [_ Hc] Hi He.
  rewrite Forall_forall in Hc.
  specialize (Hc (row m i)).
  rewrite Forall_forall in Hc. apply Hc; [|exact He].
  unfold rows. apply in_map, in_seq. lia.
Qed.

(** *** Sums over rows *)

(** [wsum f r]: the sum over the stored entries [(j, w)] of [w * f j]. *)
Definition wsum (f : nat -> Qc) (r : entries) : Qc :=
  sum (map (fun e => snd e * f (fst e)) r).

Lemma wsum_one r : wsum (fun _ => 1) r = row_sum r.
Proof.
  unfold wsum, row_sum. induction r as [|e t IH]; simpl; [reflexivity|].
  rewrite IH. ring.
Qed.

Lemma wsum_app f r1 r2 : wsum f (r1 ++ r2) = wsum f r1 + wsum f r2.
Proof. unfold wsum. now rewrite map_app, sum_app. Qed.

Lemma wsum_ext f g r :
  (forall e, In e r -> f (fst e) = g (fst e)) -> wsum f r = wsum g r.
Proof.
  unfold wsum. induction r as [|e t IH]; simpl; intros H; [reflexivity|].
  rewrite IH by (intros; apply H; now right).
  rewrite (H e) by now left. reflexivity.
Qed.

Lemma wsum_insert f j v r :
  wsum f (insert_entry j v r) = v * f j + wsum f r.
Proof.
  unfold wsum. induction r as [|[k w] t IH]; simpl; [ring|].
  destruct (Nat.ltb j k); simpl; [ring|].
  destruct (Nat.eqb_spec j k) as [->|Hne]; simpl; [ring|].
  rewrite IH. ring.
Qed.

Lemma wsum_sum_duplicates f r : wsum f (sum_duplicates r) = wsum f r.
Proof.
  induction r as [|[j v] t IH]; simpl; [reflexivity|].
  rewrite wsum_insert, IH. unfold wsum. simpl. reflexivity.
Qed.

Lemma row_at_wsum r j : row_at r j = wsum (fun k => if Nat.eqb k j then 1 else 0) r.
Proof.
  unfold wsum. induction r as [|[k w] t IH]; simpl; [reflexivity|].
  rewrite IH. destruct (Nat.eqb k j); ring.
Qed.

Lemma row_at_sum_duplicates r j : row_at (sum_duplicates r) j = row_at r j.
Proof. rewrite !row_at_wsum. apply wsum_sum_duplicates. Qed.

Lemma row_at_app r1 r2 j : row_at (r1 ++ r2) j = row_at r1 j + row_at r2 j.
Proof. rewrite !row_at_wsum. apply wsum_app. Qed.

Lemma row_sum_sum_duplicates r : row_sum (sum_duplicates r) = row_sum r.
Proof. rewrite <- !wsum_one. apply wsum_sum_duplicates. Qed.

(** A weighted sum over the stored entries is a sum over the columns. *)
Lemma wsum_columns c f r :
  Forall (fun e => (fst e < c)%nat) r ->
  wsum f r = sumn c (fun j => row_at r j * f j).
Proof.
  unfold wsum. induction r as [|[k w] t IH]; simpl; intros H.
  - rewrite (sumn_ext c _ (fun _ => 0)), sumn_zero; [reflexivity | intros; ring].
  - inversion H as [|? ? Hk Ht]; subst. simpl in Hk.
    rewrite IH by assumption.
    rewrite (sumn_ext c (fun j => ((if Nat.eqb k j then w else 0) + row_at t j) * f j)
               (fun j => (if Nat.eqb j k then w * f k else 0) + row_at t j * f j)).
    + rewrite sumn_plus, sumn_single by assumption. reflexivity.
    + intros j _. rewrite (Nat.eqb_sym k j).
      destruct (Nat.eqb_spec j k) as [->|]; ring.
Qed.

Lemma row_sum_columns c r :
  Forall (fun e => (fst e < c)%nat) r ->
  row_sum r = sumn c (fun j => row_at r j).
Proof.
  intros H. rewrite <- wsum_one, (wsum_columns c) by assumption.
  apply sumn_ext. intros; ring.
Qed.

Lemma insert_entry_cols (P : nat -> Prop) j v r :
  P j -> Forall (fun e => P (fst e)) r ->
  Forall (fun e => P (fst e)) (insert_entry j v r).
Proof.
  intros Hj. induction r as [|[k w] t IH]; simpl; intros H.
  - constructor; [exact Hj | constructor].
  - inversion H as [|? ? Hk Ht]; subst.
    destruct (Nat.ltb j k); [constructor; assumption|].
    destruct (Nat.eqb j k); constructor; auto.
Qed.

Lemma sum_duplicates_cols (P : nat -> Prop) r :
  Forall (fun e => P (fst e)) r -> Forall (fun e => P (fst e)) (sum_duplicates r).
Proof.
  induction r as [|[j v] t IH]; simpl; intros H; [constructor|].
  inversion H; subst. apply insert_entry_cols; auto.
Qed.

Lemma sum_concat_rows rs : sum (map snd (concat rs)) = sum (map row_sum rs).
Proof.
  induction rs as [|r t IH]; simpl; [reflexivity|].
  rewrite map_app, sum_app, IH. reflexivity.
Qed.

Lemma total_of_rows sh rs : total (of_rows sh rs) = sum (map row_sum rs).
Proof. unfold total. simpl. apply sum_concat_rows. Qed.

Lemma sum_map_seq (f : nat -> Qc) n :
  sum (map f (seq 0 n)) = sumn n f.
Proof.
  induction n as [|k IH]; [reflexivity|].
  rewrite seq_S, map_app, sum_app, IH. simpl. ring.
Qed.

Lemma total_wf m : csr_wf m -> total m = sumn (n_rows m) (fun i => row_sum (row m i)).
Proof.
  intros [E _]. rewrite E at 1. rewrite total_of_rows. unfold rows.
  rewrite map_map. apply sum_map_seq.
Qed.

(** *** Transposes and products *)

Lemma row_transpose m j :
  (j < n_cols m)%nat -> row (transpose m) j = column m j.
Proof.
  intros Hj. unfold transpose.
  rewrite row_of_rows by now rewrite length_map, length_seq.
  rewrite (nth_indep _ [] (column m 0)) by now rewrite length_map, length_seq.
  now rewrite map_nth, seq_nth.
Qed.

Lemma n_rows_transpose m : n_rows (transpose m) = n_cols m.
Proof. reflexivity. Qed.

Lemma n_cols_transpose m : n_cols (transpose m) = n_rows m.
Proof. reflexivity. Qed.

Lemma wsum_flat_map {A} f (g : A -> entries) l :
  wsum f (flat_map g l) = sum (map (fun x => wsum f (g x)) l).
Proof.
  induction l as [|x t IH]; simpl; [reflexivity|].
  now rewrite wsum_app, IH.
Qed.

Lemma wsum_filter_col f r i j :
  wsum f (map (fun e => (i, snd e)) (filter (fun e => Nat.eqb (fst e) j) r))
  = f i * row_at r j.
Proof.
  unfold wsum. induction r as [|[k w] t IH]; simpl; [ring|].
  destruct (Nat.eqb k j); simpl; rewrite IH; ring.
Qed.

Lemma wsum_column f m j :
  wsum f (column m j) = sumn (n_rows m) (fun i => f i * row_at (row m i) j).
Proof.
  unfold column. rewrite wsum_flat_map.
  rewrite <- sum_map_seq. f_equal. apply map_ext. intros i.
  apply wsum_filter_col.
Qed.

Lemma row_at_column m j i :
  (i < n_rows m)%nat -> row_at (column m j) i = row_at (row m i) j.
Proof.
  intros Hi. rewrite row_at_wsum, wsum_column.
  rewrite (sumn_ext _ _ (fun k => if Nat.eqb k i then row_at (row m i) j else 0)).
  - now apply sumn_single.
  - intros k _. destruct (Nat.eqb_spec k i) as [->|]; ring.
Qed.

Lemma column_rows_bound m j :
  Forall (fun e => (fst e < n_rows m)%nat) (column m j).
Proof.
  unfold column. rewrite Forall_forall. intros e He.
  apply in_flat_map in He. destruct He as [i [Hi He]].
  apply in_map_iff in He. destruct He as [e' [<- _]]. simpl.
  apply in_seq in Hi. lia.
Qed.

Lemma transpose_wf m : csr_wf (transpose m).
Proof.
  unfold transpose. apply of_rows_wf.
  - now rewrite length_map, length_seq.
  - rewrite Forall_forall. intros r Hr.
    apply in_map_iff in Hr. destruct Hr as [j [<- _]].
    apply column_rows_bound.
Qed.

Lemma wsum_dot_row h a b i :
  wsum h (dot_row a b i) = wsum (fun j => wsum h (row b j)) (row a i).
Proof.
  unfold dot_row. rewrite wsum_sum_duplicates, wsum_flat_map.
  unfold wsum. f_equal. apply map_ext. intros [j x]. simpl.
  rewrite <- sum_map_scale, !map_map. f_equal.
  apply map_ext. intros [k y]. simpl. ring.
Qed.

Lemma dot_ok a b :
  n_cols a = n_rows b ->
  dot a b = Ok (product a b).
Proof. intros H. unfold dot. now rewrite H, Nat.eqb_refl. Qed.

Lemma dot_mismatch a b : n_cols a <> n_rows b -> dot a b = Raise ValueError.
Proof.
  intros H. unfold dot. destruct (Nat.eqb_spec (n_cols a) (n_rows b)); [contradiction | reflexivity].
Qed.

Lemma row_dot a b i :
  (i < n_rows a)%nat ->
  row (product a b) i = dot_row a b i.
Proof.
  intros Hi. unfold product. rewrite row_of_rows by now rewrite length_map, length_seq.
  rewrite (nth_indep _ [] (dot_row a b 0)) by now rewrite length_map, length_seq.
  now rewrite map_nth, seq_nth.
Qed.

(** Every stored column index of the first [n_rows] rows is in range. *)
Definition cols_ok (m : csr_matrix) : Prop :=
  forall i e, (i < n_rows m)%nat -> In e (row m i) -> (fst e < n_cols m)%nat.

Lemma wf_cols_ok m : csr_wf m -> cols_ok m.
Proof. intros H i e Hi He. now apply (wf_row_cols m i). Qed.

Lemma dot_row_cols a b i :
  (i < n_rows a)%nat -> cols_ok a -> cols_ok b -> n_cols a = n_rows b ->
  Forall (fun e => (fst e < n_cols b)%nat) (dot_row a b i).
Proof.
  intros Hi Ha Hb Hab. unfold dot_row.
  apply (sum_duplicates_cols (fun j => (j < n_cols b)%nat)).
  rewrite Forall_forall. intros e He.
  apply in_flat_map in He. destruct He as [x [Hx He]].
  apply in_map_iff in He. destruct He as [y [<- Hy]]. simpl.
  apply (Hb (fst x)); [|assumption].
  rewrite <- Hab. now apply (Ha i).
Qed.

Lemma dot_wf a b :
  cols_ok a -> cols_ok b -> n_cols a = n_rows b ->
  csr_wf (product a b).
Proof.
  intros Ha Hb Hab. apply of_rows_wf.
  - now rewrite length_map, length_seq.
  - rewrite Forall_forall. intros r Hr.
    apply in_map_iff in Hr. destruct Hr as [i [<- Hi]].
    apply in_seq in Hi. apply dot_row_cols; auto. lia.
Qed.

Lemma total_dot a b :
  total (product a b)
  = sumn (n_rows a) (fun i => wsum (fun j => row_sum (row b j)) (row a i)).
Proof.
  unfold product. rewrite total_of_rows, map_map, sum_map_seq.
  apply sumn_ext. intros i _.
  rewrite <- wsum_one, wsum_dot_row.
  apply wsum_ext. intros e _. apply wsum_one.
Qed.

Lemma dot_vec_ok a v : n_cols a = length v -> dot_vec a v = Ok (product_vec a v).
Proof. intros H. unfold dot_vec. now rewrite H, Nat.eqb_refl. Qed.

Lemma dot_vec_mismatch a v : n_cols a <> length v -> dot_vec a v = Raise ValueError.
Proof.
  intros H. unfold dot_vec.
  destruct (Nat.eqb_spec (n_cols a) (length v)); [contradiction | reflexivity].
Qed.

Lemma product_vec_length a v : length (product_vec a v) = n_rows a.
Proof. unfold product_vec. now rewrite length_map, length_seq. Qed.

Lemma sum_product_vec a v :
  sum (product_vec a v) = sumn (n_rows a) (fun i => wsum (fun j => nth j v 0) (row a i)).
Proof. unfold product_vec. apply sum_map_seq. Qed.

Lemma n_rows_product a b : n_rows (product a b) = n_rows a.
Proof. reflexivity. Qed.

Lemma n_cols_product a b : n_cols (product a b) = n_cols b.
Proof. reflexivity. Qed.

(** Summing the rows of a transpose: every stored entry is met once. *)
Lemma sum_transpose_rows m h :
  (forall i, (i < n_rows m)%nat -> Forall (fun e => (fst e < n_cols m)%nat) (row m i)) ->
  sumn (n_cols m) (fun c => wsum h (row (transpose m) c))
  = sumn (n_rows m) (fun i => h i * row_sum (row m i)).
Proof.
  intros Hc.
  rewrite (sumn_ext _ _ (fun c => sumn (n_rows m) (fun i => h i * row_at (row m i) c))).
  - rewrite sumn_swap. apply sumn_ext. intros i Hi.
    rewrite sumn_scale. f_equal. symmetry. apply row_sum_columns. now apply Hc.
  - intros c Hcn. rewrite row_transpose by assumption. apply wsum_column.
Qed.

Lemma total_transpose m : csr_wf m -> total (transpose m) = total m.
Proof.
  intros Hm. rewrite (total_wf _ (transpose_wf m)), (total_wf _ Hm).
  rewrite n_rows_transpose.
  rewrite (sumn_ext _ _ (fun c => wsum (fun _ => 1) (row (transpose m) c)))
    by (intros; symmetry; apply wsum_one).
  rewrite sum_transpose_rows.
  - apply sumn_ext. intros; ring.
  - intros i Hi. rewrite Forall_forall. intros e He. now apply (wf_row_cols m i).
Qed.

End Sparse.

(** ** The coarsened graph (class AggregateGraph) *)

Module Graph.

Import Num Sparse.
Local Open Scope Qc_scope.

(** [membership_matrix(labels)]: the [n x k] binary matrix built from the
    triplets [(1, (i, labels[i]))].  scipy infers the shape from the largest
    index, and refuses empty index arrays. *)
Definition membership_matrix (labels : list nat) : result csr_matrix :=
  match labels with
  | [] => Raise ValueError
  | _ => Ok (of_rows (length labels, S (list_max labels))
                     (map (fun c => [(c, 1)]) labels))
  end.

Record AggregateGraph : Type := {
  n_nodes : nat;
  norm_adjacency : csr_matrix;
  out_probs : list Qc;
  in_probs : option (list Qc)
}.

(** The weighting policies accepted for node weights. *)
Inductive weights : Type :=
| Degree
| Uniform
| Custom (v : list Qc).

(** Modelled from the spec: [check_probs] (sknetwork.utils.checks), which is
    not part of the sources at hand.  "degree" is proportional to the row
    sums, "uniform" gives equal mass to every node, an explicit vector is
    normalized to sum to 1; a vector whose length is not the node count is
    rejected. *)
Definition check_probs (w : weights) (adjacency : csr_matrix) : result (list Qc) :=
  let n := n_rows adjacency in
  do v <- match w with
          | Degree => Ok (map (fun i => row_sum (row adjacency i)) (seq 0 n))
          | Uniform => Ok (repeat 1 n)
          | Custom v => if Nat.eqb (length v) n then Ok v else Raise ValueError
          end;
  if Qc_eq_dec (sum v) 0 then Raise ZeroDivision
  else Ok (map (fun x => x / sum v) v).

(** The in-weights of the constructor: [None] leaves [in_probs] unset. *)
Definition check_in_probs (in_weights : option weights) (adjacency : csr_matrix)
    : result (option (list Qc)) :=
  match in_weights with
  | Some w => do p <- check_probs w (transpose adjacency); Ok (Some p)
  | None => Ok None
  end.

(** [AggregateGraph.__init__] *)
Definition init (adjacency : csr_matrix) (out_weights : weights)
    (in_weights : option weights) : result AggregateGraph :=
  do na <- divide adjacency (total adjacency);
  do op <- check_probs out_weights adjacency;
  do ip <- check_in_probs in_weights adjacency;
  Ok {| n_nodes := n_rows adjacency; norm_adjacency := na;
        out_probs := op; in_probs := ip |}.

(** *** Methods that update the object

    [aggregate] assigns the fields of [self] one after the other, and any
    of the matrix products may raise.  An action returns the state of
    [self] when it stops together with its outcome. *)

Definition action (A : Type) : Type := AggregateGraph -> AggregateGraph * result A.

Definition ret {A} (a : A) : action A := fun self => (self, Ok a).

Definition seq_action {A B} (m : action A) (k : A -> action B) : action B :=
  fun self =>
    match m self with
    | (self', Ok a) => k a self'
    | (self', Raise e) => (self', Raise e)
    end.

Definition lift {A} (r : result A) : action A := fun self => (self, r).

Definition read {A} (field : AggregateGraph -> A) : action A :=
  fun self => (self, Ok (field self)).

Definition set_norm_adjacency (m : csr_matrix) : action unit :=
  fun self => ({| n_nodes := n_nodes self; norm_adjacency := m;
                  out_probs := out_probs self; in_probs := in_probs self |}, Ok tt).

Definition set_out_probs (p : list Qc) : action unit :=
  fun self => ({| n_nodes := n_nodes self; norm_adjacency := norm_adjacency self;
                  out_probs := p; in_probs := in_probs self |}, Ok tt).

Definition set_in_probs (p : option (list Qc)) : action unit :=
  fun self => ({| n_nodes := n_nodes self; norm_adjacency := norm_adjacency self;
                  out_probs := out_probs self; in_probs := p |}, Ok tt).

Definition set_n_nodes (n : nat) : action unit :=
  fun self => ({| n_nodes := n; norm_adjacency := norm_adjacency self;
                  out_probs := out_probs self; in_probs := in_probs self |}, Ok tt).

Local Notation "'let!' x := m 'in' k" := (seq_action m (fun x => k))
  (at level 10, x name, m at level 100, k at level 200).
Local Notation "m ;; k" := (seq_action m (fun _ => k))
  (at level 61, right associativity).

(** A membership argument is a label vector or a membership matrix. *)
Inductive membership : Type :=
| Labels (labels : list nat)
| Matrix (m : csr_matrix).

Definition as_matrix (a : membership) : result csr_matrix :=
  match a with
  | Labels labels => membership_matrix labels
  | Matrix m => Ok m
  end.

(** [m.dot(v)] where [v] may be [None]. *)
Definition dot_optvec (m : csr_matrix) (v : option (list Qc)) : result (list Qc) :=
  match v with
  | Some p => dot_vec m p
  | None => Raise TypeError
  end.

(** [AggregateGraph.aggregate] *)
Definition aggregate (row_membership : membership)
    (col_membership : option membership) : action unit :=
  let! R := lift (as_matrix row_membership) in
  match col_membership with
  | Some cm =>
      let! C := lift (as_matrix cm) in
      let! A := read norm_adjacency in
      let! adj := lift (do ac <- dot A C; dot (transpose R) ac) in
      set_norm_adjacency adj ;;
      let! p := read in_probs in
      let! p' := lift (dot_optvec (transpose C) p) in
      set_in_probs (Some p')
  | None =>
      let! A := read norm_adjacency in
      let! adj := lift (do ar <- dot A R; dot (transpose R) ar) in
      set_norm_adjacency adj ;;
      let! p := read in_probs in
      match p with
      | Some q =>
          let! p' := lift (dot_vec (transpose R) q) in
          set_in_probs (Some p')
      | None => ret tt
      end
  end ;;
  let! o := read out_probs in
  let! o' := lift (dot_vec (transpose R) o) in
  set_out_probs o' ;;
  let! A' := read norm_adjacency in
  set_n_nodes (n_rows A').

(** A graph at some level: a square normalized adjacency and mass vectors
    in correspondence with its rows and columns. *)
Definition graph_wf (g : AggregateGraph) : Prop :=
  csr_wf (norm_adjacency g) /\
  n_rows (norm_adjacency g) = n_nodes g /\
  n_cols (norm_adjacency g) = n_nodes g /\
  length (out_probs g) = n_nodes g /\
  (forall p, in_probs g = Some p -> length p = n_nodes g).

(** A cluster assignment of [n] nodes: every node in exactly one cluster. *)
Definition assignment (n : nat) (m : csr_matrix) : Prop :=
  n_rows m = n /\
  forall i, (i < n)%nat -> exists c, (c < n_cols m)%nat /\ row m i = [(c, 1)].

(** *** Normalization at construction *)

Lemma sum_map_div c l : sum (map (fun x => x / c) l) = sum l / c.
Proof.
  induction l as [|x t IH]; simpl.
  - unfold Qcdiv. ring.
  - rewrite IH. unfold Qcdiv. ring.
Qed.

Lemma divide_total m c na : divide m c = Ok na -> total na = total m / c.
Proof.
  unfold divide. destruct (Qc_eq_dec c 0); [discriminate|].
  intros H. injection H as <-. unfold total. simpl. apply sum_map_div.
Qed.

Lemma divide_rows m c na i :
  divide m c = Ok na -> row na i = map (fun e => (fst e, snd e / c)) (row m i).
Proof.
  unfold divide. destruct (Qc_eq_dec c 0); [discriminate|].
  intros H. injection H as <-. unfold row, slice. simpl.
  set (lo := nth i (indptr m) 0%nat). set (hi := nth (S i) (indptr m) 0%nat).
  rewrite skipn_map, firstn_map.
  generalize (firstn (hi - lo) (skipn lo (data m))).
  generalize (firstn (hi - lo) (skipn lo (indices m))).
  induction l as [|a l IH]; intros [|b l']; simpl; try reflexivity.
  now rewrite IH.
Qed.

(** Small adjacencies used to run the definitions. *)
Definition weight (w : nat) : Qc := Q2Qc (inject_Z (Z.of_nat w)).

Definition adjacency_of (n c : nat) (rs : list (list (nat * nat))) : csr_matrix :=
  of_rows (n, c) (map (map (fun e => (fst e, weight (snd e)))) rs).

(** A triangle with unit weights. *)
Definition triangle : csr_matrix :=
  adjacency_of 3 3 [[(1, 1); (2, 1)]; [(0, 1); (2, 1)]; [(0, 1); (1, 1)]]%nat.

(** Three nodes and no stored entry. *)
Definition empty3 : csr_matrix := adjacency_of 3 3 [[]; []; []].



(** *** Aggregation *)

Lemma assignment_row_sum n m i :
  assignment n m -> (i < n)%nat -> row_sum (row m i) = 1.
Proof.
  intros [_ H] Hi. destruct (H i Hi) as [c [_ ->]].
  unfold row_sum. simpl. ring.
Qed.

Lemma assignment_cols n m i :
  assignment n m -> (i < n_rows m)%nat ->
  Forall (fun e => (fst e < n_cols m)%nat) (row m i).
Proof.
  intros [Hn H] Hi. rewrite Hn in Hi. destruct (H i Hi) as [c [Hc ->]].
  constructor; [exact Hc | constructor].
Qed.

Lemma total_product_assignment a c :
  csr_wf a -> assignment (n_cols a) c -> total (product a c) = total a.
Proof.
  intros Ha Hc. rewrite total_dot, (total_wf _ Ha).
  apply sumn_ext. intros i Hi.
  rewrite <- wsum_one. apply wsum_ext. intros e He.
  apply (assignment_row_sum _ _ _ Hc). now apply (wf_row_cols a i).
Qed.

Lemma total_transpose_product n r b :
  assignment n r -> csr_wf b -> n_rows b = n ->
  total (product (transpose r) b) = total b.
Proof.
  intros Hr Hb Hn. rewrite total_dot, n_rows_transpose.
  rewrite sum_transpose_rows by (intros; now apply (assignment_cols n)).
  rewrite (total_wf _ Hb). rewrite (proj1 Hr), Hn.
  apply sumn_ext. intros i Hi.
  rewrite (assignment_row_sum n r i Hr Hi). ring.
Qed.

Lemma sum_transpose_product_vec n r v :
  assignment n r -> length v = n -> sum (product_vec (transpose r) v) = sum v.
Proof.
  intros Hr Hv. rewrite sum_product_vec, n_rows_transpose.
  rewrite sum_transpose_rows by (intros; now apply (assignment_cols n)).
  rewrite sum_nth_sumn, Hv. rewrite (proj1 Hr).
  apply sumn_ext. intros i Hi.
  rewrite (assignment_row_sum n r i Hr Hi). ring.
Qed.

Lemma list_max_above (l : list nat) c : In c l -> (c < S (list_max l))%nat.
Proof.
  intros H. pose proof (list_max_le l (list_max l)) as [K _].
  specialize (K (Nat.le_refl _)). rewrite Forall_forall in K.
  specialize (K c H). lia.
Qed.

Lemma membership_matrix_assignment labels :
  labels <> [] ->
  exists m, membership_matrix labels = Ok m /\ assignment (length labels) m /\
            n_cols m = S (list_max labels) /\ csr_wf m /\
            forall i, (i < length labels)%nat -> row m i = [(nth i labels 0%nat, 1)].
Proof.
  intros Hne. destruct labels as [|l0 t] eqn:E; [congruence|]. rewrite <- E in *.
  exists (of_rows (length labels, S (list_max labels)) (map (fun c => [(c, 1)]) labels)).
  assert (R : forall i, (i < length labels)%nat ->
     row (of_rows (length labels, S (list_max labels)) (map (fun c => [(c, 1)]) labels)) i
     = [(nth i labels 0%nat, 1)]).
  { intros i Hi. rewrite row_of_rows by now rewrite length_map.
    exact (nth_map_in (fun c => [(c, 1)]) labels i [] 0%nat Hi). }
  split; [|split; [|split; [|split]]].
  - unfold membership_matrix. rewrite E. rewrite <- E. reflexivity.
  - split; [reflexivity|]. intros i Hi. exists (nth i labels 0%nat). split.
    + apply list_max_above. now apply nth_In.
    + now apply R.
  - reflexivity.
  - apply of_rows_wf; [now rewrite length_map|].
    rewrite Forall_forall. intros r Hr. apply in_map_iff in Hr.
    destruct Hr as [c [<- Hc]]. constructor; [|constructor]. simpl.
    now apply list_max_above.
  - exact R.
Qed.

(** What [aggregate] computes when the dimensions agree. *)
Definition aggregated (g : AggregateGraph) (r c : csr_matrix) : AggregateGraph :=
  {| n_nodes := n_cols r;
     norm_adjacency := product (transpose r) (product (norm_adjacency g) c);
     out_probs := product_vec (transpose r) (out_probs g);
     in_probs := option_map (product_vec (transpose c)) (in_probs g) |}.

Lemma aggregate_rows g rm r :
  as_matrix rm = Ok r ->
  graph_wf g -> n_rows r = n_nodes g ->
  aggregate rm None g = (aggregated g r r, Ok tt).
Proof.
  intros Hr (Hwf & Hnr & Hnc & Ho & Hi) Hn.
  unfold aggregate, seq_action, lift, read. rewrite Hr.
  rewrite (dot_ok (norm_adjacency g) r) by congruence. cbn [bind].
  rewrite dot_ok by (rewrite n_cols_transpose, n_rows_product; congruence).
  cbn [set_norm_adjacency in_probs].
  destruct (in_probs g) as [p|] eqn:Ep.
  - rewrite dot_vec_ok by (rewrite n_cols_transpose, (Hi p eq_refl); congruence).
    cbn. rewrite dot_vec_ok by (rewrite n_cols_transpose; congruence).
    unfold aggregated. rewrite Ep. reflexivity.
  - cbn. rewrite dot_vec_ok by (rewrite n_cols_transpose; congruence).
    unfold aggregated. rewrite Ep. reflexivity.
Qed.

Lemma aggregate_rows_cols g rm cm r c p :
  as_matrix rm = Ok r -> as_matrix cm = Ok c ->
  graph_wf g -> n_rows r = n_nodes g -> n_rows c = n_nodes g ->
  in_probs g = Some p ->
  aggregate rm (Some cm) g = (aggregated g r c, Ok tt).
Proof.
  intros Hr Hc (Hwf & Hnr & Hnc & Ho & Hi) Hn Hm Ep.
  unfold aggregate, seq_action, lift, read. rewrite Hr, Hc.
  rewrite (dot_ok (norm_adjacency g) c) by congruence. cbn [bind].
  rewrite dot_ok by (rewrite n_cols_transpose, n_rows_product; congruence).
  cbn [set_norm_adjacency in_probs]. rewrite Ep. cbn [dot_optvec].
  rewrite dot_vec_ok by (rewrite n_cols_transpose, (Hi p Ep); congruence).
  cbn. rewrite dot_vec_ok by (rewrite n_cols_transpose; congruence).
  unfold aggregated. rewrite Ep. reflexivity.
Qed.

Lemma assignment_cols_ok n m : assignment n m -> cols_ok m.
Proof.
  intros H i e Hi He.
  pose proof (assignment_cols n m i H Hi) as F.
  rewrite Forall_forall in F. now apply F.
Qed.

Definition membership_rows (a : membership) : nat :=
  match a with
  | Labels labels => length labels
  | Matrix m => n_rows m
  end.

(** A membership argument that gives each of [n] nodes exactly one cluster. *)
Definition valid_membership (n : nat) (a : membership) : Prop :=
  match a with
  | Labels labels => length labels = n
  | Matrix m => assignment n m
  end.

Lemma valid_membership_matrix n a :
  n <> 0%nat -> valid_membership n a ->
  exists m, as_matrix a = Ok m /\ assignment n m.
Proof.
  intros Hn Ha. destruct a as [labels|m]; simpl in *.
  - destruct (membership_matrix_assignment labels) as [m [E [A _]]].
    + intros ->. simpl in Ha. congruence.
    + exists m. rewrite <- Ha. auto.
  - exists m. auto.
Qed.

Lemma as_matrix_rows a m : as_matrix a = Ok m -> n_rows m = membership_rows a.
Proof.
  destruct a as [[|l0 t]|m']; simpl; intros H; try discriminate.
  - injection H as <-. reflexivity.
  - injection H as <-. reflexivity.
Qed.

Lemma as_matrix_error a e : as_matrix a = Raise e -> e = ValueError.
Proof.
  destruct a as [[|l0 t]|m']; simpl; intros H; try discriminate.
  now injection H as <-.
Qed.

Lemma aggregated_mass g r c n :
  graph_wf g -> n_nodes g = n -> assignment n r -> assignment n c ->
  sum (out_probs (aggregated g r c)) = sum (out_probs g) /\
  (forall p', in_probs (aggregated g r c) = Some p' ->
     exists p, in_probs g = Some p /\ sum p' = sum p) /\
  total (norm_adjacency (aggregated g r c)) = total (norm_adjacency g).
Proof.
  intros (Hwf & Hnr & Hnc & Ho & Hi) Hn Hr Hc. subst n.
  split; [|split].
  - simpl. apply (sum_transpose_product_vec (n_nodes g)); assumption.
  - simpl. intros p' Hp'. destruct (in_probs g) as [p|] eqn:Ep; [|discriminate].
    exists p. split; [reflexivity|]. simpl in Hp'. injection Hp' as <-.
    apply (sum_transpose_product_vec (n_nodes g)); auto.
  - simpl. rewrite (total_transpose_product (n_nodes g)).
    + apply total_product_assignment; [assumption | now rewrite Hnc].
    + assumption.
    + apply dot_wf; [now apply wf_cols_ok | now apply (assignment_cols_ok (n_nodes g)) |].
      rewrite (proj1 Hc). exact Hnc.
    + rewrite n_rows_product. exact Hnr.
Qed.

(** C4: aggregation conserves mass.  On a graph whose mass vectors sum to 1
    and whose normalized adjacency has total mass [m], aggregating by an
    assignment that gives every node exactly one cluster leaves mass vectors
    that sum to 1 and an adjacency of total mass [m].  The call completes
    whenever no secondary assignment is given or [in_probs] is set. *)
Theorem aggregate_conserves_mass g rm cm m :
  graph_wf g ->
  sum (out_probs g) = 1 ->
  (forall p, in_probs g = Some p -> sum p = 1) ->
  total (norm_adjacency g) = m ->
  valid_membership (n_nodes g) rm ->
  (forall c, cm = Some c -> valid_membership (n_nodes g) c) ->
  (forall g', aggregate rm cm g = (g', Ok tt) ->
     sum (out_probs g') = 1 /\
     (forall p, in_probs g' = Some p -> sum p = 1) /\
     total (norm_adjacency g') = m) /\
  (cm = None \/ in_probs g <> None -> exists g', aggregate rm cm g = (g', Ok tt)).
Proof.
  intros Hg Hout Hin Hm Hrm Hcm.
  assert (Hn : n_nodes g <> 0%nat).
  { destruct Hg as (_ & _ & _ & Ho & _). intros E. rewrite E in Ho.
    destruct (out_probs g); [|discriminate]. simpl in Hout.
    exact (Q_apart_0_1 (eq_sym Hout)). }
  destruct (valid_membership_matrix _ _ Hn Hrm) as [r [Er Ar]].
  assert (Post : forall c, assignment (n_nodes g) c ->
     sum (out_probs (aggregated g r c)) = 1 /\
     (forall p, in_probs (aggregated g r c) = Some p -> sum p = 1) /\
     total (norm_adjacency (aggregated g r c)) = m).
  { intros c Ac.
    destruct (aggregated_mass g r c (n_nodes g) Hg eq_refl Ar Ac) as (M1 & M2 & M3).
    split; [congruence|]. split; [|congruence].
    intros p' Hp'. destruct (M2 p' Hp') as [p [Ep ->]]. now apply Hin. }
  destruct cm as [c|].
  - destruct (valid_membership_matrix _ _ Hn (Hcm c eq_refl)) as [mc [Ec Ac]].
    destruct (in_probs g) as [p|] eqn:Ep.
    + rewrite (aggregate_rows_cols g rm c r mc p Er Ec Hg (proj1 Ar) (proj1 Ac) Ep).
      split.
      * intros g' E. injection E as <-. now apply Post.
      * intros _. eexists. reflexivity.
    + split.
      * intros g' E. exfalso. revert E.
        unfold aggregate, seq_action, lift, read. rewrite Er, Ec.
        destruct (do ac <- dot (norm_adjacency g) mc; dot (transpose r) ac);
          [|discriminate].
        cbn [set_norm_adjacency in_probs]. rewrite Ep. cbn. discriminate.
      * intros [E|E]; [discriminate | now elim E].
  - rewrite (aggregate_rows g rm r Er Hg (proj1 Ar)). split.
    + intros g' E. injection E as <-. now apply Post.
    + intros _. eexists. reflexivity.
Qed.

(** The graph built from the unit triangle with degree weights. *)
Definition graph_of (adjacency : csr_matrix) : AggregateGraph :=
  match init adjacency Degree (Some Degree) with
  | Ok g => g
  | Raise _ => {| n_nodes := 0; norm_adjacency := adjacency; out_probs := [];
                  in_probs := None |}
  end.

Definition triangle_graph : AggregateGraph := graph_of triangle.

Lemma triangle_graph_wf : graph_wf triangle_graph.
Proof.
  unfold graph_wf. split; [|split; [|split; [|split]]].
  - split; [vm_compute; reflexivity|].
    vm_compute. repeat constructor.
  - reflexivity.
  - reflexivity.
  - reflexivity.
  - intros p H. vm_compute in H. injection H as <-. reflexivity.
Qed.

Lemma triangle_graph_mass :
  sum (out_probs triangle_graph) = 1 /\
  (forall p, in_probs triangle_graph = Some p -> sum p = 1) /\
  total (norm_adjacency triangle_graph) = 1.
Proof.
  split; [|split].
  - apply Qc_is_canon. vm_compute. reflexivity.
  - intros p H. vm_compute in H. injection H as <-. apply Qc_is_canon. vm_compute. reflexivity.
  - apply Qc_is_canon. vm_compute. reflexivity.
Qed.

Lemma aggregate_conserves_mass_witness :
  exists g',
    aggregate (Labels [0; 0; 1]%nat) None triangle_graph = (g', Ok tt) /\
    sum (out_probs g') = 1 /\
    (forall p, in_probs g' = Some p -> sum p = 1) /\
    total (norm_adjacency g') = 1.
Proof.
  destruct triangle_graph_mass as (M1 & M2 & M3).
  destruct (aggregate_conserves_mass triangle_graph (Labels [0; 0; 1]%nat) None 1
              triangle_graph_wf M1 M2 M3 eq_refl
              (fun c (E : None = Some c) => match E with end)) as [Post [g' E]].
  - left. reflexivity.
  - exists g'. split; [exact E | exact (Post g' E)].
Defined.

(** An assignment matrix over three nodes that leaves node 1 unassigned. *)
Definition unassigned_middle : csr_matrix :=
  of_rows (3, 2)%nat [[(0%nat, 1)]; []; [(1%nat, 1)]].

Lemma aggregate_mismatch_rows g rm :
  graph_wf g -> membership_rows rm <> n_nodes g ->
  aggregate rm None g = (g, Raise ValueError).
Proof.
  intros (Hwf & Hnr & Hnc & Ho & Hi) Hm.
  unfold aggregate, seq_action, lift, read.
  destruct (as_matrix rm) as [r|e] eqn:Er.
  - rewrite dot_mismatch; [reflexivity|].
    rewrite (as_matrix_rows _ _ Er). congruence.
  - now rewrite (as_matrix_error _ _ Er).
Qed.

Lemma aggregate_mismatch_cols g rm cm :
  graph_wf g ->
  membership_rows rm <> n_nodes g \/ membership_rows cm <> n_nodes g ->
  aggregate rm (Some cm) g = (g, Raise ValueError).
Proof.
  intros (Hwf & Hnr & Hnc & Ho & Hi) Hm.
  unfold aggregate, seq_action, lift, read.
  destruct (as_matrix rm) as [r|e] eqn:Er;
    [|now rewrite (as_matrix_error _ _ Er)].
  destruct (as_matrix cm) as [c|e] eqn:Ec;
    [|now rewrite (as_matrix_error _ _ Ec)].
  destruct (Nat.eq_dec (membership_rows cm) (n_nodes g)) as [Hc|Hc].
  - destruct Hm as [Hr|Hc']; [|contradiction].
    rewrite dot_ok by (rewrite (as_matrix_rows _ _ Ec); congruence).
    cbn [bind]. rewrite dot_mismatch; [reflexivity|].
    rewrite n_cols_transpose, n_rows_product, (as_matrix_rows _ _ Er). congruence.
  - rewrite dot_mismatch; [reflexivity|].
    rewrite (as_matrix_rows _ _ Ec). congruence.
Qed.

(** C9, as the code has it: [aggregate] validates nothing itself.  When the
    number of rows of an assignment differs from the node count, the sparse
    product raises scipy's dimension-mismatch [ValueError] before any field
    of the graph is written, so the graph is unchanged.  An assignment
    matrix of the right size is accepted whatever its rows hold. *)
Theorem aggregate_checks_dimensions_only g rm cm :
  graph_wf g ->
  (membership_rows rm <> n_nodes g \/
   (exists c, cm = Some c /\ membership_rows c <> n_nodes g) ->
   aggregate rm cm g = (g, Raise ValueError)) /\
  (forall m, rm = Matrix m -> cm = None -> n_rows m = n_nodes g ->
   aggregate rm cm g = (aggregated g m m, Ok tt)).
Proof.
  intros Hg. split.
  - intros [Hr | [c [-> Hc]]].
    + destruct cm as [c|].
      * apply aggregate_mismatch_cols; auto.
      * apply aggregate_mismatch_rows; auto.
    + apply aggregate_mismatch_cols; auto.
  - intros m -> -> Hm. now apply aggregate_rows.
Qed.

Lemma aggregate_checks_dimensions_only_witness :
  aggregate (Labels [0; 1]%nat) None triangle_graph = (triangle_graph, Raise ValueError) /\
  aggregate (Matrix unassigned_middle) None triangle_graph
  = (aggregated triangle_graph unassigned_middle unassigned_middle, Ok tt).
Proof.
  destruct (aggregate_checks_dimensions_only triangle_graph (Labels [0; 1]%nat) None
              triangle_graph_wf) as [H _].
  destruct (aggregate_checks_dimensions_only triangle_graph (Matrix unassigned_middle) None
              triangle_graph_wf) as [_ K].
  split.
  - apply H. left. vm_compute. lia.
  - apply (K unassigned_middle eq_refl eq_refl). reflexivity.
Defined.

(** C9 fails as stated: node 1 is left unassigned by [unassigned_middle],
    and [aggregate] completes without any error, the mass of node 1 being
    dropped from the aggregated graph. *)
Lemma aggregate_accepts_unassigned_node :
  row unassigned_middle 1 = [] /\
  ~ assignment 3 unassigned_middle /\
  snd (aggregate (Matrix unassigned_middle) None triangle_graph) = Ok tt /\
  sum (out_probs (fst (aggregate (Matrix unassigned_middle) None triangle_graph))) <> 1.
Proof.
  split; [reflexivity|]. split; [|split].
  - intros [_ H]. destruct (H 1%nat ltac:(lia)) as [c [_ E]]. discriminate E.
  - vm_compute. reflexivity.
  - intros E. apply (f_equal (fun q : Qc => Qnum (this q))) in E.
    vm_compute in E. discriminate E.
Qed.

End Graph.

(** ** The greedy modularity optimizer (fit_core and GreedyModularity) *)

Module Optimizer.

Import Num Sparse Graph.
Local Open Scope Qc_scope.

(** [a[i] = v] on an index in range. *)
Fixpoint upd {A : Type} (l : list A) (i : nat) (v : A) : list A :=
  match l, i with
  | [], _ => []
  | _ :: t, O => v :: t
  | x :: t, S k => x :: upd t k v
  end.

(** The set of candidate clusters of a node.  Both engines build the set
    of the labels of its neighbours, remove the node's own cluster and
    iterate over what is left; the order of that iteration is the set
    implementation's and is not fixed by the program.  A [cluster_set] is
    one such implementation. *)
Record cluster_set : Type := {
  unique_clusters : list nat -> nat -> list nat;
  unique_clusters_nodup : forall l c, NoDup (unique_clusters l c);
  unique_clusters_in :
    forall l c x, In x (unique_clusters l c) <-> In x l /\ x <> c
}.

(** The live state of a sweep. *)
Record sweep_state : Type := {
  labels : list nat;
  out_clusters_weights : list Qc;
  in_clusters_weights : list Qc;
  pass_increase : Qc
}.

Section Engines.

Variable resolution : Qc.
Variable tol : Qc.
Variable n_nodes : nat.
Variable out_node_probs : list Qc.
Variable in_node_probs : list Qc.
Variable self_loops : list Qc.
Variable data : list Qc.
Variable indices : list nat.
Variable indptr : list nat.

(** The move of [node] from [node_cluster] to [best_cluster]: the last
    six statements of the body of the node loop, the same in both engines. *)
Definition move (node node_cluster best_cluster : nat) (best_delta : Qc)
    (st : sweep_state) : sweep_state :=
  let pass := pass_increase st + best_delta in
  let ocw := out_clusters_weights st in
  let icw := in_clusters_weights st in
  let ocw := upd ocw node_cluster (nth node_cluster ocw 0 - nth node out_node_probs 0) in
  let icw := upd icw node_cluster (nth node_cluster icw 0 - nth node in_node_probs 0) in
  let ocw := upd ocw best_cluster (nth best_cluster ocw 0 + nth node out_node_probs 0) in
  let icw := upd icw best_cluster (nth best_cluster icw 0 + nth node in_node_probs 0) in
  {| labels := upd (labels st) node best_cluster;
     out_clusters_weights := ocw;
     in_clusters_weights := icw;
     pass_increase := pass |}.

(** [weights[clusters == c].sum()] *)
Definition masked_sum (weights : list Qc) (clusters : list nat) (c : nat) : Qc :=
  sum (map snd (filter (fun p => Nat.eqb (fst p) c) (combine clusters weights))).

(** [np.argmax]: the index of the first maximum. *)
Fixpoint argmax_from (best : Qc) (best_i i : nat) (l : list Qc) : nat :=
  match l with
  | [] => best_i
  | x :: t =>
      if Qcltb best x then argmax_from x i (S i) t
      else argmax_from best best_i (S i) t
  end.

Definition argmax (l : list Qc) : nat :=
  match l with
  | [] => 0%nat
  | x :: t => argmax_from x 0 1 t
  end.

(** *** The interpreted engine: the node loop of [GreedyModularity.fit] *)

Definition py_visit (S : cluster_set) (node : nat) (st : sweep_state) : sweep_state :=
  let node_cluster := nth node (labels st) 0%nat in
  let neighbors := slice indices (nth node indptr 0%nat) (nth (node + 1) indptr 0%nat) in
  let weights := slice data (nth node indptr 0%nat) (nth (node + 1) indptr 0%nat) in
  let neighbors_clusters := map (fun j => nth j (labels st) 0%nat) neighbors in
  let unique := unique_clusters S neighbors_clusters node_cluster in
  let n_clusters := length unique in
  let out_ratio := resolution * nth node out_node_probs 0 in
  let in_ratio := resolution * nth node in_node_probs 0 in
  if Nat.ltb 0 n_clusters then
    let exit_delta :=
      two * (masked_sum weights neighbors_clusters node_cluster - nth node self_loops 0) in
    let exit_delta :=
      exit_delta - out_ratio * (nth node_cluster (in_clusters_weights st) 0
                                - nth node in_node_probs 0) in
    let exit_delta :=
      exit_delta - in_ratio * (nth node_cluster (out_clusters_weights st) 0
                               - nth node out_node_probs 0) in
    let local_delta :=
      map (fun cluster =>
             let delta := two * masked_sum weights neighbors_clusters cluster in
             let delta := delta - out_ratio * nth cluster (in_clusters_weights st) 0 in
             let delta := delta - in_ratio * nth cluster (out_clusters_weights st) 0 in
             - exit_delta + delta)
          unique in
    let delta_argmax := argmax local_delta in
    let best_delta := nth delta_argmax local_delta 0 in
    if Qcltb 0 best_delta then
      let best_cluster := nth delta_argmax unique 0%nat in
      move node node_cluster best_cluster best_delta st
    else st
  else st.

(** *** The compiled engine: the node loop of [fit_core] *)

(** [neighbor_clusters_weights]: one bucket per cluster, filled by one pass
    over the neighbours. *)
Definition accumulate (clusters : list nat) (weights : list Qc) : list Qc :=
  fold_left (fun acc p => upd acc (fst p) (nth (fst p) acc 0 + snd p))
            (combine clusters weights) (repeat 0 n_nodes).

Definition core_visit (S : cluster_set) (node : nat) (st : sweep_state) : sweep_state :=
  let node_cluster := nth node (labels st) 0%nat in
  let neighbors := slice indices (nth node indptr 0%nat) (nth (node + 1) indptr 0%nat) in
  let weights := slice data (nth node indptr 0%nat) (nth (node + 1) indptr 0%nat) in
  let neighbors_clusters := map (fun j => nth j (labels st) 0%nat) neighbors in
  let neighbor_clusters_weights := accumulate neighbors_clusters weights in
  let unique := unique_clusters S neighbors_clusters node_cluster in
  let out_ratio := resolution * nth node out_node_probs 0 in
  let in_ratio := resolution * nth node in_node_probs 0 in
  if Nat.ltb 0 (length unique) then
    let exit_delta :=
      two * (nth node_cluster neighbor_clusters_weights 0 - nth node self_loops 0) in
    let exit_delta :=
      exit_delta - out_ratio * (nth node_cluster (in_clusters_weights st) 0
                                - nth node in_node_probs 0) in
    let exit_delta :=
      exit_delta - in_ratio * (nth node_cluster (out_clusters_weights st) 0
                               - nth node out_node_probs 0) in
    let '(best_delta, best_cluster) :=
      fold_left
        (fun best cluster =>
           let delta := two * nth cluster neighbor_clusters_weights 0 in
           let delta := delta - out_ratio * nth cluster (in_clusters_weights st) 0 in
           let delta := delta - in_ratio * nth cluster (out_clusters_weights st) 0 in
           let local_delta := delta - exit_delta in
           if Qcltb (fst best) local_delta then (local_delta, cluster) else best)
        unique (0, node_cluster) in
    if Qcltb 0 best_delta then
      move node node_cluster best_cluster best_delta st
    else st
  else st.

(** *** Sweeps

    [visit] is the body of the node loop.  One sweep visits the nodes in
    ascending order, starting with [pass_increase = 0]. *)

Variable visit : nat -> sweep_state -> sweep_state.

Definition sweep (st : sweep_state) : sweep_state :=
  fold_left (fun s node => visit node s) (seq 0 n_nodes)
    {| labels := labels st;
       out_clusters_weights := out_clusters_weights st;
       in_clusters_weights := in_clusters_weights st;
       pass_increase := 0 |}.

(** [while increase: ...]: every turn of the loop takes one unit of fuel;
    [None] means that the fuel ran out before the loop stopped. *)
Fixpoint sweeps (fuel : nat) (st : sweep_state) (total_increase : Qc)
    : option (list nat * Qc) :=
  match fuel with
  | O => None
  | Datatypes.S fuel' =>
      let st' := sweep st in
      let total_increase := total_increase + pass_increase st' in
      if Qcltb tol (pass_increase st') then sweeps fuel' st' total_increase
      else Some (labels st', total_increase)
  end.

(** The state before the first sweep: every node in its own cluster. *)
Definition initial_state : sweep_state :=
  {| labels := seq 0 n_nodes;
     out_clusters_weights := out_node_probs;
     in_clusters_weights := in_node_probs;
     pass_increase := 0 |}.

Definition optimize (fuel : nat) : option (list nat * Qc) :=
  sweeps fuel initial_state 0.

End Engines.

(** [fit_core]: the compiled kernel. *)
Definition fit_core (S : cluster_set) (fuel : nat) (resolution tol : Qc) (n_nodes : nat)
    (out_node_probs in_node_probs self_loops data : list Qc)
    (indices indptr : list nat) : option (list nat * Qc) :=
  optimize tol n_nodes out_node_probs in_node_probs
    (core_visit resolution n_nodes out_node_probs in_node_probs self_loops
       data indices indptr S)
    fuel.

(** [np.unique(labels, return_inverse=True)]: the sorted distinct values,
    and for every element its index in that sorted list. *)
Fixpoint insert_sorted (x : nat) (l : list nat) : list nat :=
  match l with
  | [] => [x]
  | y :: t =>
      if Nat.ltb x y then x :: l
      else if Nat.eqb x y then l
      else y :: insert_sorted x t
  end.

Definition unique (l : list nat) : list nat := fold_right insert_sorted [] l.

Fixpoint index_of (x : nat) (l : list nat) : nat :=
  match l with
  | [] => 0%nat
  | y :: t => if Nat.eqb x y then 0%nat else Datatypes.S (index_of x t)
  end.

Definition unique_inverse (l : list nat) : list nat :=
  map (fun x => index_of x (unique l)) l.

(** Modelled from the spec: [directed2undirected]
    (sknetwork.utils.adjacency_formats), which is not part of the sources at
    hand: the sum of the forward and the transposed weights. *)
Definition directed2undirected (adjacency : csr_matrix) : result csr_matrix :=
  add adjacency (transpose adjacency).

Inductive engine_name : Type := Default | Python | Numba.

(** What the two engines run on: whether numba can be imported, and the
    set implementation each engine iterates with. *)
Record runtime : Type := {
  numba_available : bool;
  python_set : cluster_set;
  numba_set : cluster_set
}.

(** Modelled from the spec: [check_engine] (sknetwork.utils.checks), which
    is not part of the sources at hand.  "default" selects the compiled
    engine when it is available; asking for the compiled engine when it is
    not available is an error. *)
Definition check_engine (rt : runtime) (e : engine_name) : result engine_name :=
  match e with
  | Default => Ok (if numba_available rt then Numba else Python)
  | Python => Ok Python
  | Numba => if numba_available rt then Ok Numba else Raise ValueError
  end.

Record GreedyModularity : Type := {
  resolution : Qc;
  tol : Qc;
  engine : engine_name;
  score_ : option Qc;
  labels_ : option (list nat)
}.

(** [GreedyModularity.__init__] *)
Definition GreedyModularity_init (rt : runtime) (resolution tol : Qc)
    (engine : engine_name) : result GreedyModularity :=
  do e <- check_engine rt engine;
  Ok {| resolution := resolution; tol := tol; engine := e;
        score_ := None; labels_ := None |}.

(** The proxy adjacency [0.5 * directed2undirected(graph.norm_adjacency)]. *)
Definition proxy (graph : AggregateGraph) : result csr_matrix :=
  do u <- directed2undirected (norm_adjacency graph);
  Ok (scale half u).

Definition in_node_probs_of (graph : AggregateGraph) : list Qc :=
  match in_probs graph with
  | Some p => p
  | None => out_probs graph
  end.

(** The sweeps of the interpreted engine, as written in the body of
    [GreedyModularity.fit]. *)
Definition python_sweeps (S : cluster_set) (fuel : nat) (resolution tol : Qc)
    (graph : AggregateGraph) (adjacency : csr_matrix) : option (list nat * Qc) :=
  optimize tol (n_nodes graph) (out_probs graph) (in_node_probs_of graph)
    (py_visit resolution (out_probs graph) (in_node_probs_of graph)
       (diagonal adjacency) (Sparse.data adjacency) (Sparse.indices adjacency)
       (Sparse.indptr adjacency) S)
    fuel.

(** The branch on [self.engine]: the sweeps of the selected engine; the outer
    [None] is the final [else] branch, reached by an unknown engine name. *)
Definition engine_sweeps (rt : runtime) (fuel : nat) (self : GreedyModularity)
    (graph : AggregateGraph) (adjacency : csr_matrix)
    : option (option (list nat * Qc)) :=
  let self_loops := diagonal adjacency in
  match engine self with
  | Python =>
      Some (python_sweeps (python_set rt) fuel (resolution self) (tol self)
              graph adjacency)
  | Numba =>
      Some (fit_core (numba_set rt) fuel (resolution self) (tol self)
              (n_nodes graph) (out_probs graph) (in_node_probs_of graph)
              self_loops (Sparse.data adjacency) (Sparse.indices adjacency)
              (Sparse.indptr adjacency))
  | Default => None
  end.

(** [GreedyModularity.fit].  The result is [None] when the fuel runs out,
    otherwise the updated optimizer or the exception raised. *)
Definition GreedyModularity_fit (rt : runtime) (fuel : nat) (self : GreedyModularity)
    (graph : AggregateGraph) : option (result GreedyModularity) :=
  match proxy graph with
  | Raise e => Some (Raise e)
  | Ok adjacency =>
      match engine_sweeps rt fuel self graph adjacency with
      | None => Some (Raise ValueError)
      | Some None => None
      | Some (Some (labels, total_increase)) =>
          Some (Ok {| resolution := resolution self; tol := tol self;
                      engine := engine self;
                      score_ := Some total_increase;
                      labels_ := Some (unique_inverse labels) |})
      end
  end.

(** *** Two set implementations

    Iteration in ascending order of cluster id, and in descending order. *)

Lemma insert_sorted_in x y l : In x (insert_sorted y l) <-> x = y \/ In x l.
Proof.
  induction l as [|z t IH]; simpl.
  - intuition.
  - destruct (Nat.ltb_spec y z); simpl; [intuition|].
    destruct (Nat.eqb_spec y z) as [->|]; simpl; [intuition|].
    rewrite IH. intuition.
Qed.

Lemma unique_in x l : In x (unique l) <-> In x l.
Proof.
  induction l as [|y t IH]; simpl; [reflexivity|].
  rewrite insert_sorted_in, IH. intuition.
Qed.

Lemma insert_sorted_sorted y l :
  StronglySorted lt l -> StronglySorted lt (insert_sorted y l).
Proof.
  induction l as [|z t IH]; simpl; intros H.
  - constructor; constructor.
  - inversion H as [|? ? Ht Hz]; subst.
    destruct (Nat.ltb_spec y z).
    + constructor; [assumption|]. constructor; [assumption|].
      rewrite Forall_forall in *. intros w Hw. specialize (Hz w Hw). lia.
    + destruct (Nat.eqb_spec y z) as [->|]; [assumption|].
      constructor; [now apply IH|].
      rewrite Forall_forall in *. intros w Hw.
      apply insert_sorted_in in Hw. destruct Hw as [->|Hw]; [lia | now apply Hz].
Qed.

Lemma unique_sorted l : StronglySorted lt (unique l).
Proof.
  induction l as [|y t IH]; simpl; [constructor | now apply insert_sorted_sorted].
Qed.

Lemma sorted_nodup l : StronglySorted lt l -> NoDup l.
Proof.
  induction 1 as [|x t Ht IH Hx]; constructor; [|assumption].
  intros Hin. rewrite Forall_forall in Hx. specialize (Hx x Hin). lia.
Qed.

Definition ascending_clusters (l : list nat) (c : nat) : list nat :=
  unique (filter (fun x => negb (Nat.eqb x c)) l).

Lemma ascending_clusters_in l c x :
  In x (ascending_clusters l c) <-> In x l /\ x <> c.
Proof.
  unfold ascending_clusters. rewrite unique_in, filter_In.
  rewrite negb_true_iff, Nat.eqb_neq. reflexivity.
Qed.

Definition ascending_set : cluster_set :=
  {| unique_clusters := ascending_clusters;
     unique_clusters_nodup := fun l c => sorted_nodup _ (unique_sorted _);
     unique_clusters_in := ascending_clusters_in |}.



(** *** Array updates *)

Lemma upd_length {A} (l : list A) i v : length (upd l i v) = length l.
Proof.
  revert i. induction l as [|x t IH]; intros [|i]; simpl; auto.
Qed.

Lemma nth_upd_same {A} (l : list A) i v d :
  (i < length l)%nat -> nth i (upd l i v) d = v.
Proof.
  revert i. induction l as [|x t IH]; intros [|i] H; simpl in *; try lia; auto.
  apply IH. lia.
Qed.

Lemma nth_upd_other {A} (l : list A) i j v d :
  i <> j -> nth j (upd l i v) d = nth j l d.
Proof.
  revert i j. induction l as [|x t IH]; intros [|i] [|j] H; simpl; auto; try lia.
Qed.

Lemma nth_upd {A} (l : list A) i j v d :
  (i < length l)%nat ->
  nth j (upd l i v) d = if Nat.eqb j i then v else nth j l d.
Proof.
  intros H. destruct (Nat.eqb_spec j i) as [->|Hne].
  - now apply nth_upd_same.
  - apply nth_upd_other. congruence.
Qed.

(** *** The scores of a move, as the specification writes them *)

Section Scores.

Variable adjacency : csr_matrix.
Variable resolution : Qc.
Variable out_node_probs : list Qc.
Variable in_node_probs : list Qc.

(** [edge_mass(i, c)]: the proxy weight from [i] to its neighbours that are
    currently in cluster [c]. *)
Definition edge_mass (st : sweep_state) (i c : nat) : Qc :=
  wsum (fun j => if Nat.eqb (nth j (labels st) 0%nat) c then 1 else 0) (row adjacency i).

Definition self_loop (i : nat) : Qc := row_at (row adjacency i) i.

Definition exit_score (st : sweep_state) (i : nat) : Qc :=
  let A := nth i (labels st) 0%nat in
  two * (edge_mass st i A - self_loop i)
  - resolution * nth i out_node_probs 0
    * (nth A (in_clusters_weights st) 0 - nth i in_node_probs 0)
  - resolution * nth i in_node_probs 0
    * (nth A (out_clusters_weights st) 0 - nth i out_node_probs 0).

Definition candidate_score (st : sweep_state) (i B : nat) : Qc :=
  two * edge_mass st i B
  - resolution * nth i out_node_probs 0 * nth B (in_clusters_weights st) 0
  - resolution * nth i in_node_probs 0 * nth B (out_clusters_weights st) 0.

Definition gain (st : sweep_state) (i B : nat) : Qc :=
  candidate_score st i B - exit_score st i.

(** [B] is a candidate for [i]: the cluster of a neighbour, other than the
    cluster of [i]. *)
Definition candidate (st : sweep_state) (i B : nat) : Prop :=
  B <> nth i (labels st) 0%nat /\
  exists e, In e (row adjacency i) /\ nth (fst e) (labels st) 0%nat = B.

(** Scanning the candidates for the first one of greatest positive gain. *)
Definition best_move (f : nat -> Qc) (A : nat) (u : list nat) : Qc * nat :=
  fold_left (fun best c => if Qcltb (fst best) (f c) then (f c, c) else best)
            u (0, A).

(** One visit of the node loop, written with the scores above. *)
Definition greedy_visit (S : cluster_set) (node : nat) (st : sweep_state) : sweep_state :=
  let A := nth node (labels st) 0%nat in
  let u := unique_clusters S
             (map (fun j => nth j (labels st) 0%nat) (map fst (row adjacency node))) A in
  let best := best_move (gain st node) A u in
  if Qcltb 0 (fst best)
  then move out_node_probs in_node_probs node A (snd best) (fst best) st
  else st.

End Scores.

Lemma masked_sum_wsum (lab : nat -> nat) c (neighbors : list nat) (weights : list Qc) :
  masked_sum weights (map lab neighbors) c
  = wsum (fun j => if Nat.eqb (lab j) c then 1 else 0) (combine neighbors weights).
Proof.
  unfold masked_sum, wsum. revert weights.
  induction neighbors as [|j t IH]; intros [|w ws]; simpl; try reflexivity.
  destruct (Nat.eqb (lab j) c); simpl; rewrite IH; ring.
Qed.

(** The bucket of cluster [c] after the pass over the neighbours. *)
Lemma accumulate_from n c (l : list (nat * Qc)) : forall acc,
  length acc = n ->
  (forall p, In p l -> (fst p < n)%nat) ->
  nth c (fold_left (fun acc p => upd acc (fst p) (nth (fst p) acc 0 + snd p)) l acc) 0
  = nth c acc 0 + sum (map snd (filter (fun p => Nat.eqb (fst p) c) l)).
Proof.
  induction l as [|[k w] t IH]; intros acc Hn Hl; simpl.
  - ring.
  - rewrite IH.
    + rewrite nth_upd by (rewrite Hn; apply (Hl (k, w)); now left). simpl.
      rewrite (Nat.eqb_sym k c).
      destruct (Nat.eqb_spec c k) as [->|]; simpl; ring.
    + now rewrite upd_length.
    + intros p Hp. apply Hl. now right.
Qed.

Lemma accumulate_masked n clusters weights c :
  Forall (fun k => (k < n)%nat) clusters ->
  nth c (accumulate n clusters weights) 0 = masked_sum weights clusters c.
Proof.
  intros H. unfold accumulate, masked_sum.
  rewrite (accumulate_from n).
  - rewrite nth_repeat. ring.
  - apply repeat_length.
  - intros [k w] Hp. apply in_combine_l in Hp. rewrite Forall_forall in H. now apply H.
Qed.

(** *** Both engines perform [greedy_visit] *)

Definition scan (f : nat -> Qc) (t : list nat) (init : Qc * nat) : Qc * nat :=
  fold_left (fun best c => if Qcltb (fst best) (f c) then (f c, c) else best) t init.

Lemma scan_ext f g t init : (forall c, f c = g c) -> scan f t init = scan g t init.
Proof.
  intros H. unfold scan. revert init.
  induction t as [|c t IH]; intros init; simpl; [reflexivity|].
  now rewrite H, IH.
Qed.

Lemma argmax_from_scan f d t : forall pre best_i,
  (best_i < length pre)%nat ->
  let r := argmax_from (f (nth best_i pre d)) best_i (length pre) (map f t) in
  (r < length (pre ++ t))%nat /\
  (f (nth r (pre ++ t) d), nth r (pre ++ t) d)
  = scan f t (f (nth best_i pre d), nth best_i pre d).
Proof.
  induction t as [|x t IH]; intros pre best_i Hb; cbn zeta.
  - simpl. rewrite app_nil_r. split; [exact Hb | reflexivity].
  - simpl map. cbn [argmax_from scan fold_left fst].
    fold (scan f t).
    replace (pre ++ x :: t) with ((pre ++ [x]) ++ t) by (rewrite <- app_assoc; reflexivity).
    destruct (Qcltb (f (nth best_i pre d)) (f x)) eqn:E.
    + specialize (IH (pre ++ [x]) (length pre)).
      rewrite length_app in IH. simpl length in IH.
      rewrite Nat.add_1_r in IH.
      rewrite app_nth2, Nat.sub_diag in IH by lia. simpl nth in IH.
      apply IH. lia.
    + specialize (IH (pre ++ [x]) best_i).
      rewrite length_app in IH. simpl length in IH.
      rewrite Nat.add_1_r in IH.
      rewrite app_nth1 in IH by lia.
      apply IH. lia.
Qed.

Lemma argmax_scan f d c0 t :
  let l := map f (c0 :: t) in
  (nth (argmax l) l 0, nth (argmax l) (c0 :: t) d) = scan f t (f c0, c0).
Proof.
  cbn zeta. simpl map. unfold argmax.
  destruct (argmax_from_scan f d t [c0] 0%nat ltac:(simpl; lia)) as [Hr E].
  change ([c0] ++ t) with (c0 :: t) in *.
  change (length [c0]) with 1%nat in *.
  change (nth 0 [c0] d) with c0 in *.
  rewrite <- E. f_equal.
  change (f c0 :: map f t) with (map f (c0 :: t)).
  apply nth_map_in. exact Hr.
Qed.

(** The first maximum found by [argmax] and the first strict improvement
    over 0 select the same move. *)
Definition agree (py nb : Qc * nat) : Prop :=
  (0 < fst py /\ nb = py) \/ (fst py <= 0 /\ fst nb = 0).

Lemma scan_agree f t : forall py nb, agree py nb -> agree (scan f t py) (scan f t nb).
Proof.
  induction t as [|c t IH]; intros py nb H; [exact H|].
  cbn [scan fold_left]. fold (scan f t). apply IH.
  destruct H as [[Hpos ->] | [Hle Hz]].
  - destruct (Qcltb (fst py) (f c)) eqn:E.
    + left. split; [|reflexivity]. simpl. apply Qcltb_lt in E.
      exact (Qclt_trans _ _ _ Hpos E).
    + left. split; [exact Hpos | reflexivity].
  - rewrite Hz.
    destruct (Qcltb 0 (f c)) eqn:E0.
    + apply Qcltb_lt in E0.
      assert (E : Qcltb (fst py) (f c) = true).
      { apply Qcltb_lt. exact (Qcle_lt_trans _ _ _ Hle E0). }
      rewrite E. left. split; [exact E0 | reflexivity].
    + apply Qcltb_ge in E0.
      destruct (Qcltb (fst py) (f c)) eqn:E.
      * right. split; [exact E0 | exact Hz].
      * right. split; [exact Hle | exact Hz].
Qed.

Lemma first_agree f A c0 :
  agree (f c0, c0) (if Qcltb (fst (0, A)) (f c0) then (f c0, c0) else (0, A)).
Proof.
  simpl. destruct (Qcltb 0 (f c0)) eqn:E.
  - left. split; [now apply Qcltb_lt | reflexivity].
  - right. split; [now apply Qcltb_ge | reflexivity].
Qed.

Lemma agree_choice {T} py nb (F : nat -> Qc -> T) (st : T) :
  agree py nb ->
  (if Qcltb 0 (fst py) then F (snd py) (fst py) else st)
  = (if Qcltb 0 (fst nb) then F (snd nb) (fst nb) else st).
Proof.
  intros [[Hpos ->] | [Hle Hz]]; [reflexivity|].
  rewrite Hz.
  assert (E : Qcltb 0 (fst py) = false) by now apply Qcltb_ge.
  assert (E0 : Qcltb 0 0 = false) by (apply Qcltb_ge; apply Qcle_refl).
  now rewrite E, E0.
Qed.

Lemma best_move_scan f A u : best_move f A u = scan f u (0, A).
Proof. reflexivity. Qed.

Lemma diagonal_nth m i :
  (i < n_rows m)%nat -> (i < n_cols m)%nat ->
  nth i (diagonal m) 0 = row_at (row m i) i.
Proof.
  intros Hr Hc. unfold diagonal.
  rewrite (nth_map_in (fun i => row_at (row m i) i) _ i 0 0%nat)
    by (rewrite length_seq; lia).
  rewrite seq_nth by lia. reflexivity.
Qed.

Lemma py_select {T} (f : nat -> Qc) A (u : list nat) (F : nat -> Qc -> T) (st : T) :
  (if Nat.ltb 0 (length u) then
     if Qcltb 0 (nth (argmax (map f u)) (map f u) 0)
     then F (nth (argmax (map f u)) u 0%nat) (nth (argmax (map f u)) (map f u) 0)
     else st
   else st)
  = (if Qcltb 0 (fst (best_move f A u))
     then F (snd (best_move f A u)) (fst (best_move f A u)) else st).
Proof.
  destruct u as [|c0 t].
  - change (Nat.ltb 0 (length (@nil nat))) with false.
    change (best_move f A []) with (0, A).
    assert (E0 : Qcltb 0 0 = false) by (apply Qcltb_ge; apply Qcle_refl).
    cbn [fst]. now rewrite E0.
  - change (Nat.ltb 0 (length (c0 :: t))) with true. cbv iota.
    pose proof (argmax_scan f 0%nat c0 t) as Hs. cbn zeta in Hs.
    assert (Hd : nth (argmax (map f (c0 :: t))) (map f (c0 :: t)) 0
                 = fst (scan f t (f c0, c0))) by (rewrite <- Hs; reflexivity).
    assert (Hcl : nth (argmax (map f (c0 :: t))) (c0 :: t) 0%nat
                  = snd (scan f t (f c0, c0))) by (rewrite <- Hs; reflexivity).
    rewrite Hd, Hcl.
    apply (agree_choice _ _ F).
    change (best_move f A (c0 :: t))
      with (scan f t (if Qcltb (fst (0, A)) (f c0) then (f c0, c0) else (0, A))).
    apply scan_agree. apply first_agree.
Qed.

Lemma core_select {T} (g : nat -> Qc) A (u : list nat) (F : nat -> Qc -> T) (st : T) :
  (if Nat.ltb 0 (length u) then
     let '(best_delta, best_cluster) :=
       fold_left (fun best cluster =>
                    if Qcltb (fst best) (g cluster) then (g cluster, cluster) else best)
                 u (0, A) in
     if Qcltb 0 best_delta then F best_cluster best_delta else st
   else st)
  = (if Qcltb 0 (fst (best_move g A u))
     then F (snd (best_move g A u)) (fst (best_move g A u)) else st).
Proof.
  destruct u as [|c0 t].
  - change (Nat.ltb 0 (length (@nil nat))) with false.
    change (best_move g A []) with (0, A).
    assert (E0 : Qcltb 0 0 = false) by (apply Qcltb_ge; apply Qcle_refl).
    cbn [fst]. now rewrite E0.
  - change (Nat.ltb 0 (length (c0 :: t))) with true. cbv iota.
    unfold best_move.
    destruct (fold_left _ (c0 :: t) (0, A)) as [bd bc]. reflexivity.
Qed.

Lemma best_move_ext f g A u : (forall c, f c = g c) -> best_move f A u = best_move g A u.
Proof. intros H. unfold best_move. now apply scan_ext. Qed.

Section Refinement.

Variable adjacency : csr_matrix.
Variable resolution : Qc.
Variable out_node_probs : list Qc.
Variable in_node_probs : list Qc.
Variable S : cluster_set.
Hypothesis adjacency_wf : csr_wf adjacency.

Lemma py_visit_greedy node st :
  (node < n_rows adjacency)%nat -> (node < n_cols adjacency)%nat ->
  py_visit resolution out_node_probs in_node_probs (diagonal adjacency)
    (data adjacency) (indices adjacency) (indptr adjacency) S node st
  = greedy_visit adjacency resolution out_node_probs in_node_probs S node st.
Proof.
  intros Hr Hc. unfold py_visit, greedy_visit.
  rewrite Nat.add_1_r.
  destruct (wf_slices adjacency node adjacency_wf Hr) as [-> ->].
  rewrite (diagonal_nth adjacency node Hr Hc).
  cbv zeta.
  etransitivity;
    [apply (py_select _ (nth node (labels st) 0%nat) _
              (fun bc bd => move out_node_probs in_node_probs node
                              (nth node (labels st) 0%nat) bc bd st))|].
  cbv beta.
  rewrite (best_move_ext _ (gain adjacency resolution out_node_probs in_node_probs st node));
    [reflexivity|].
  intros c. unfold gain, candidate_score, exit_score, edge_mass, self_loop.
  rewrite !masked_sum_wsum, !combine_fst_snd. ring.
Qed.

Lemma core_visit_greedy n_nodes node st :
  (node < n_rows adjacency)%nat -> (node < n_cols adjacency)%nat ->
  Forall (fun e => (nth (fst e) (labels st) 0 < n_nodes)%nat) (row adjacency node) ->
  core_visit resolution n_nodes out_node_probs in_node_probs (diagonal adjacency)
    (data adjacency) (indices adjacency) (indptr adjacency) S node st
  = greedy_visit adjacency resolution out_node_probs in_node_probs S node st.
Proof.
  intros Hr Hc Hl. unfold core_visit, greedy_visit.
  rewrite Nat.add_1_r.
  destruct (wf_slices adjacency node adjacency_wf Hr) as [-> ->].
  rewrite (diagonal_nth adjacency node Hr Hc).
  cbv zeta.
  etransitivity;
    [apply (core_select _ (nth node (labels st) 0%nat) _
              (fun bc bd => move out_node_probs in_node_probs node
                              (nth node (labels st) 0%nat) bc bd st))|].
  cbv beta.
  rewrite (best_move_ext _ (gain adjacency resolution out_node_probs in_node_probs st node));
    [reflexivity|].
  intros c. unfold gain, candidate_score, exit_score, edge_mass, self_loop.
  rewrite !(accumulate_masked n_nodes).
  - rewrite !masked_sum_wsum, !combine_fst_snd. ring.
  - rewrite map_map, Forall_map. exact Hl.
  - rewrite map_map, Forall_map. exact Hl.
Qed.

End Refinement.

(** *** What a visit does, in the words of the specification *)

Section Outcome.

Variable adjacency : csr_matrix.
Variable resolution : Qc.
Variable out_node_probs : list Qc.
Variable in_node_probs : list Qc.

Let gain_of := gain adjacency resolution out_node_probs in_node_probs.

(** Either no candidate has a strictly positive gain and nothing changes,
    or the node moves to a candidate of greatest gain, that gain being
    strictly positive. *)
Definition visit_outcome (st : sweep_state) (i : nat) (st' : sweep_state) : Prop :=
  ((forall B, candidate adjacency st i B -> gain_of st i B <= 0) /\ st' = st) \/
  (exists B,
     candidate adjacency st i B /\
     0 < gain_of st i B /\
     (forall B', candidate adjacency st i B' -> gain_of st i B' <= gain_of st i B) /\
     st' = move out_node_probs in_node_probs i (nth i (labels st) 0%nat) B
             (gain_of st i B) st).

Lemma scan_spec (f : nat -> Qc) (A : nat) t : forall seen init,
  ((init = (0, A) /\ forall c, In c seen -> f c <= 0) \/
   (0 < fst init /\ In (snd init) seen /\ fst init = f (snd init) /\
    forall c, In c seen -> f c <= fst init)) ->
  let r := scan f t init in
  (r = (0, A) /\ forall c, In c (seen ++ t) -> f c <= 0) \/
  (0 < fst r /\ In (snd r) (seen ++ t) /\ fst r = f (snd r) /\
   forall c, In c (seen ++ t) -> f c <= fst r).
Proof.
  induction t as [|x t IH]; intros seen init H; cbn zeta.
  - rewrite app_nil_r. exact H.
  - cbn [scan fold_left]. fold (scan f t).
    replace (seen ++ x :: t) with ((seen ++ [x]) ++ t)
      by (rewrite <- app_assoc; reflexivity).
    apply IH.
    destruct H as [[-> Hs] | (Hpos & Hin & Hf & Hs)].
    + cbn [fst]. destruct (Qcltb 0 (f x)) eqn:E.
      * right. apply Qcltb_lt in E. cbn [fst snd].
        split; [exact E|]. split; [apply in_or_app; right; now left|].
        split; [reflexivity|].
        intros c Hc. apply in_app_or in Hc. destruct Hc as [Hc|[<-|[]]].
        -- apply Qcle_trans with 0; [now apply Hs | now apply Qclt_le_weak].
        -- apply Qcle_refl.
      * left. apply Qcltb_ge in E. split; [reflexivity|].
        intros c Hc. apply in_app_or in Hc. destruct Hc as [Hc|[<-|[]]]; auto.
    + destruct (Qcltb (fst init) (f x)) eqn:E.
      * right. apply Qcltb_lt in E. cbn [fst snd].
        split; [exact (Qclt_trans _ _ _ Hpos E)|].
        split; [apply in_or_app; right; now left|].
        split; [reflexivity|].
        intros c Hc. apply in_app_or in Hc. destruct Hc as [Hc|[<-|[]]].
        -- apply Qcle_trans with (fst init); [now apply Hs | now apply Qclt_le_weak].
        -- apply Qcle_refl.
      * right. apply Qcltb_ge in E.
        split; [exact Hpos|]. split; [apply in_or_app; now left|].
        split; [exact Hf|].
        intros c Hc. apply in_app_or in Hc. destruct Hc as [Hc|[<-|[]]]; auto.
Qed.

Lemma best_move_spec (f : nat -> Qc) A u :
  let r := best_move f A u in
  (r = (0, A) /\ forall c, In c u -> f c <= 0) \/
  (0 < fst r /\ In (snd r) u /\ fst r = f (snd r) /\
   forall c, In c u -> f c <= fst r).
Proof.
  apply (scan_spec f A u [] (0, A)). left. split; [reflexivity|]. intros c [].
Qed.

Lemma candidate_in S st i B :
  In B (unique_clusters S
          (map (fun j => nth j (labels st) 0%nat) (map fst (row adjacency i)))
          (nth i (labels st) 0%nat))
  <-> candidate adjacency st i B.
Proof.
  rewrite unique_clusters_in. unfold candidate. rewrite map_map, in_map_iff.
  split.
  - intros [[e [He Hin]] Hne]. split; [exact Hne|]. exists e. auto.
  - intros [Hne [e [Hin He]]]. split; [|exact Hne]. exists e. auto.
Qed.

Lemma greedy_visit_outcome S st i :
  visit_outcome st i
    (greedy_visit adjacency resolution out_node_probs in_node_probs S i st).
Proof.
  unfold greedy_visit, visit_outcome. cbv zeta.
  set (A := nth i (labels st) 0%nat).
  set (u := unique_clusters S _ A).
  destruct (best_move_spec (gain_of st i) A u) as [[E Hs] | (Hpos & Hin & Hf & Hs)].
  - fold gain_of. rewrite E. cbn [fst snd].
    assert (E0 : Qcltb 0 0 = false) by (apply Qcltb_ge; apply Qcle_refl).
    rewrite E0. left. split; [|reflexivity].
    intros B HB. apply Hs. now apply candidate_in.
  - fold gain_of.
    assert (E1 : Qcltb 0 (fst (best_move (gain_of st i) A u)) = true)
      by now apply Qcltb_lt.
    rewrite E1. right. exists (snd (best_move (gain_of st i) A u)).
    split; [now apply (candidate_in S)|].
    split; [now rewrite <- Hf|].
    split.
    + intros B' HB'. rewrite <- Hf. apply Hs. now apply candidate_in.
    + now rewrite <- Hf.
Qed.

End Outcome.

(** *** The proxy adjacency *)

Lemma add_ok a b :
  n_rows a = n_rows b -> n_cols a = n_cols b ->
  add a b = Ok (of_rows (shape a)
                  (map (fun i => sum_duplicates (row a i ++ row b i)) (seq 0 (n_rows a)))).
Proof.
  intros Hr Hc. unfold add. now rewrite Hr, Hc, !Nat.eqb_refl.
Qed.

Definition proxy_rows (a : csr_matrix) : list entries :=
  map (map (fun e => (fst e, half * snd e)))
      (map (fun i => sum_duplicates (row a i ++ row (transpose a) i)) (seq 0 (n_rows a))).

Lemma proxy_ok graph :
  graph_wf graph ->
  proxy graph = Ok (of_rows (shape (norm_adjacency graph)) (proxy_rows (norm_adjacency graph))).
Proof.
  intros (Hwf & Hnr & Hnc & _). unfold proxy, directed2undirected.
  rewrite add_ok by (rewrite ?n_rows_transpose, ?n_cols_transpose; congruence).
  cbn [bind]. now rewrite scale_of_rows.
Qed.

Lemma row_at_scale c r j :
  row_at (map (fun e => (fst e, c * snd e)) r) j = c * row_at r j.
Proof.
  induction r as [|[k w] t IH]; simpl; [ring|].
  rewrite IH. destruct (Nat.eqb k j); ring.
Qed.

Lemma proxy_spec graph adjacency :
  graph_wf graph -> proxy graph = Ok adjacency ->
  csr_wf adjacency /\
  n_rows adjacency = n_nodes graph /\
  n_cols adjacency = n_nodes graph /\
  forall i j, (i < n_nodes graph)%nat -> (j < n_nodes graph)%nat ->
    row_at (row adjacency i) j
    = half * (row_at (row (norm_adjacency graph) i) j
              + row_at (row (norm_adjacency graph) j) i).
Proof.
  intros Hg E. rewrite (proxy_ok graph Hg) in E. injection E as <-.
  destruct Hg as (Hwf & Hnr & Hnc & _).
  set (a := norm_adjacency graph) in *.
  assert (Hsh : shape a = (n_nodes graph, n_nodes graph)).
  { destruct (shape a) as [x y] eqn:Es. unfold n_rows, n_cols in Hnr, Hnc.
    rewrite Es in Hnr, Hnc. simpl in Hnr, Hnc. congruence. }
  rewrite Hsh.
  assert (L : length (proxy_rows a) = n_nodes graph).
  { unfold proxy_rows. now rewrite !length_map, length_seq. }
  assert (R : forall i, (i < n_nodes graph)%nat ->
     row (of_rows (n_nodes graph, n_nodes graph) (proxy_rows a)) i
     = map (fun e => (fst e, half * snd e))
           (sum_duplicates (row a i ++ column a i))).
  { intros i Hi. rewrite (row_out_of_rows _ _ _ i L Hi).
    unfold proxy_rows. rewrite map_map.
    rewrite nth_map_in with (d' := 0%nat) by (rewrite length_seq; lia).
    rewrite seq_nth by lia. rewrite row_transpose by lia. reflexivity. }
  split; [|split; [reflexivity | split; [reflexivity|]]].
  - apply of_rows_wf; [exact L|].
    rewrite Forall_forall. intros r Hr. unfold proxy_rows in Hr.
    rewrite map_map in Hr. apply in_map_iff in Hr. destruct Hr as [i [<- Hi]].
    apply in_seq in Hi. rewrite Forall_map. simpl.
    apply (sum_duplicates_cols (fun k => (k < n_nodes graph)%nat)).
    apply Forall_app. split.
    + rewrite Forall_forall. intros e He. rewrite <- Hnc.
      apply (wf_row_cols a i); auto. lia.
    + rewrite row_transpose by lia. rewrite <- Hnr. apply column_rows_bound.
  - intros i j Hi Hj. rewrite (R i Hi), row_at_scale, row_at_sum_duplicates, row_at_app.
    rewrite row_at_column by lia. reflexivity.
Qed.




Definition ascending_runtime : runtime :=
  {| numba_available := true; python_set := ascending_set; numba_set := ascending_set |}.

Definition triangle_proxy : csr_matrix :=
  of_rows (shape (norm_adjacency triangle_graph))
          (proxy_rows (norm_adjacency triangle_graph)).



(** *** The objective and the invariant of the sweeps *)

Lemma sumn_except n x (g : nat -> Qc) :
  (x < n)%nat ->
  sumn n (fun j => if Nat.eqb j x then 0 else g j) = sumn n g - g x.
Proof.
  intros H. rewrite (sumn_split n x g H). ring.
Qed.

Section Objective.

Variable n : nat.

(** The sum of [K i j] over the ordered pairs of nodes that share a label. *)
Definition pair_sum (K : nat -> nat -> Qc) (lab : list nat) : Qc :=
  sumn n (fun i => sumn n (fun j =>
    if Nat.eqb (nth i lab 0%nat) (nth j lab 0%nat) then K i j else 0)).

(** The mass of cluster [c]: the sum of the masses of its members. *)
Definition cluster_mass (w : list Qc) (lab : list nat) (c : nat) : Qc :=
  sumn n (fun j => if Nat.eqb (nth j lab 0%nat) c then nth j w 0 else 0).

Definition indicator (lab : list nat) (c j : nat) : Qc :=
  if Nat.eqb (nth j lab 0%nat) c then 1 else 0.

Lemma pair_sum_move K lab x B :
  (x < n)%nat -> length lab = n -> nth x lab 0%nat <> B ->
  pair_sum K (upd lab x B)
  = pair_sum K lab
    + sumn n (fun j => if Nat.eqb j x then 0
                       else (indicator lab B j - indicator lab (nth x lab 0%nat) j)
                            * (K x j + K j x)).
Proof.
  intros Hx Hlen Hne. set (A := nth x lab 0%nat) in *.
  assert (Hl : forall j, nth j (upd lab x B) 0%nat
                         = if Nat.eqb j x then B else nth j lab 0%nat).
  { intros j. apply nth_upd. lia. }
  unfold pair_sum.
  (* the change of each row *)
  set (hx := fun j => if Nat.eqb j x then 0
                      else (indicator lab B j - indicator lab A j) * K x j).
  set (hcol := fun i => (indicator lab B i - indicator lab A i) * K i x).
  rewrite (sumn_ext n _
    (fun i => sumn n (fun j => if Nat.eqb (nth i lab 0%nat) (nth j lab 0%nat)
                               then K i j else 0)
              + (if Nat.eqb i x then sumn n hx else hcol i))).
  - rewrite sumn_plus. f_equal.
    rewrite (sumn_split n x _ Hx), Nat.eqb_refl.
    rewrite <- sumn_plus. apply sumn_ext. intros j _.
    unfold hx, hcol. destruct (Nat.eqb_spec j x) as [->|]; ring.
  - intros i Hi. destruct (Nat.eqb_spec i x) as [->|Hix].
    + rewrite <- sumn_plus. apply sumn_ext. intros j _.
      rewrite !Hl, Nat.eqb_refl. unfold hx, indicator. fold A.
      destruct (Nat.eqb_spec j x) as [->|Hjx].
      * fold A. rewrite !Nat.eqb_refl. ring.
      * rewrite (Nat.eqb_sym B), (Nat.eqb_sym A).
        destruct (Nat.eqb (nth j lab 0%nat) B), (Nat.eqb (nth j lab 0%nat) A); ring.
    + rewrite <- (sumn_single n x (hcol i) Hx) at 1.
      rewrite <- sumn_plus. apply sumn_ext. intros j _.
      rewrite !Hl. destruct (Nat.eqb_spec i x) as [|_]; [contradiction|].
      unfold hcol, indicator. fold A.
      destruct (Nat.eqb_spec j x) as [->|Hjx].
      * fold A.
        destruct (Nat.eqb (nth i lab 0%nat) B), (Nat.eqb (nth i lab 0%nat) A); ring.
      * ring.
Qed.

Lemma cluster_mass_move w lab x B c :
  (x < n)%nat -> length lab = n ->
  cluster_mass w (upd lab x B) c
  = cluster_mass w lab c
    + (if Nat.eqb B c then nth x w 0 else 0)
    - (if Nat.eqb (nth x lab 0%nat) c then nth x w 0 else 0).
Proof.
  intros Hx Hlen. unfold cluster_mass.
  rewrite (sumn_split n x _ Hx).
  rewrite (sumn_split n x (fun j => if Nat.eqb (nth j lab 0%nat) c then nth j w 0 else 0) Hx).
  rewrite nth_upd_same by lia.
  rewrite (sumn_ext n
    (fun i => if Nat.eqb i x then 0
              else if Nat.eqb (nth i (upd lab x B) 0%nat) c then nth i w 0 else 0)
    (fun i => if Nat.eqb i x then 0
              else if Nat.eqb (nth i lab 0%nat) c then nth i w 0 else 0)).
  - ring.
  - intros i _. destruct (Nat.eqb_spec i x) as [|Hne]; [reflexivity|].
    rewrite nth_upd_other by congruence. reflexivity.
Qed.

Lemma indicator_sum_except lab x B (f : nat -> Qc) :
  (x < n)%nat -> nth x lab 0%nat <> B ->
  sumn n (fun j => if Nat.eqb j x then 0
                   else (indicator lab B j - indicator lab (nth x lab 0%nat) j) * f j)
  = sumn n (fun j => indicator lab B j * f j)
    - (sumn n (fun j => indicator lab (nth x lab 0%nat) j * f j) - f x).
Proof.
  intros Hx Hne. rewrite sumn_except by assumption.
  rewrite (sumn_ext n _ (fun j => indicator lab B j * f j
                                  - indicator lab (nth x lab 0%nat) j * f j))
    by (intros; ring).
  rewrite sumn_minus. unfold indicator at 3 4.
  rewrite Nat.eqb_refl.
  destruct (Nat.eqb_spec (nth x lab 0%nat) B) as [|_]; [contradiction|]. ring.
Qed.

End Objective.



Section Invariant.

Variable adjacency : csr_matrix.
Variable resolution : Qc.
Variable out_node_probs : list Qc.
Variable in_node_probs : list Qc.
Variable n : nat.

Hypothesis adjacency_wf : csr_wf adjacency.
Hypothesis adjacency_rows : n_rows adjacency = n.
Hypothesis adjacency_cols : n_cols adjacency = n.
Hypothesis adjacency_sym : forall i j, (i < n)%nat -> (j < n)%nat ->
  row_at (row adjacency i) j = row_at (row adjacency j) i.
Hypothesis out_length : length out_node_probs = n.
Hypothesis in_length : length in_node_probs = n.

(** The objective the sweeps increase: the weight inside the clusters
    minus the resolution times the product of the masses inside them. *)
Definition objective (lab : list nat) : Qc :=
  pair_sum n (fun i j => row_at (row adjacency i) j) lab
  - resolution
    * pair_sum n (fun i j => nth i out_node_probs 0 * nth j in_node_probs 0) lab.

(** The invariant of the sweeps: labels are cluster ids below [n], and the
    accumulators hold the masses of the clusters. *)
Definition state_ok (st : sweep_state) : Prop :=
  length (labels st) = n /\
  Forall (fun c => (c < n)%nat) (labels st) /\
  length (out_clusters_weights st) = n /\
  length (in_clusters_weights st) = n /\
  (forall c, (c < n)%nat ->
     nth c (out_clusters_weights st) 0 = cluster_mass n out_node_probs (labels st) c) /\
  (forall c, (c < n)%nat ->
     nth c (in_clusters_weights st) 0 = cluster_mass n in_node_probs (labels st) c).

Lemma label_bound st j : state_ok st -> (j < n)%nat -> (nth j (labels st) 0 < n)%nat.
Proof.
  intros (Hl & Hf & _) Hj. rewrite Forall_forall in Hf. apply Hf.
  apply nth_In. lia.
Qed.

Lemma edge_mass_sum st i c :
  (i < n)%nat ->
  edge_mass adjacency st i c
  = sumn n (fun j => indicator (labels st) c j * row_at (row adjacency i) j).
Proof.
  intros Hi. unfold edge_mass.
  rewrite (wsum_columns n).
  - apply sumn_ext. intros j _. unfold indicator. ring.
  - rewrite Forall_forall. intros e He. rewrite <- adjacency_cols.
    apply (wf_row_cols adjacency i); auto. lia.
Qed.

Lemma cluster_mass_indicator w lab c :
  cluster_mass n w lab c = sumn n (fun j => indicator lab c j * nth j w 0).
Proof.
  unfold cluster_mass, indicator. apply sumn_ext. intros j _.
  destruct (Nat.eqb (nth j lab 0%nat) c); ring.
Qed.

Lemma candidate_bound st i B :
  state_ok st -> (i < n)%nat -> candidate adjacency st i B ->
  (B < n)%nat /\ B <> nth i (labels st) 0%nat.
Proof.
  intros Hst Hi [Hne [e [He <-]]]. split; [|exact Hne].
  apply label_bound; [assumption|]. rewrite <- adjacency_cols.
  apply (wf_row_cols adjacency i); auto. lia.
Qed.

(** A move changes the objective by exactly its gain. *)
Lemma move_objective st x B d :
  state_ok st -> (x < n)%nat -> (B < n)%nat -> B <> nth x (labels st) 0%nat ->
  objective (labels (move out_node_probs in_node_probs x
                       (nth x (labels st) 0%nat) B d st))
  = objective (labels st)
    + gain adjacency resolution out_node_probs in_node_probs st x B.
Proof.
  intros Hst Hx HB Hne.
  pose proof (label_bound st x Hst Hx) as HA.
  destruct Hst as (Hl & Hf & Hol & Hil & Ho & Hi).
  set (A := nth x (labels st) 0%nat) in *.
  unfold move. cbn [labels]. unfold objective.
  rewrite !pair_sum_move by (auto; congruence).
  fold A.
  rewrite !indicator_sum_except by (auto; congruence). fold A.
  unfold gain, candidate_score, exit_score. fold A. unfold self_loop.
  rewrite !edge_mass_sum by assumption.
  rewrite (Ho A HA), (Ho B HB), (Hi A HA), (Hi B HB).
  rewrite !cluster_mass_indicator.
  (* the symmetric weights *)
  rewrite (sumn_ext n
    (fun j => indicator (labels st) B j
              * (row_at (row adjacency x) j + row_at (row adjacency j) x))
    (fun j => two * (indicator (labels st) B j * row_at (row adjacency x) j))).
  2:{ intros j Hj. rewrite (adjacency_sym j x Hj Hx). unfold two. ring. }
  rewrite (sumn_ext n
    (fun j => indicator (labels st) A j
              * (row_at (row adjacency x) j + row_at (row adjacency j) x))
    (fun j => two * (indicator (labels st) A j * row_at (row adjacency x) j))).
  2:{ intros j Hj. rewrite (adjacency_sym j x Hj Hx). unfold two. ring. }
  rewrite !sumn_scale.
  (* the products of masses *)
  rewrite (sumn_ext n
    (fun j => indicator (labels st) B j
              * (nth x out_node_probs 0 * nth j in_node_probs 0
                 + nth j out_node_probs 0 * nth x in_node_probs 0))
    (fun j => nth x out_node_probs 0 * (indicator (labels st) B j * nth j in_node_probs 0)
              + nth x in_node_probs 0 * (indicator (labels st) B j * nth j out_node_probs 0)))
    by (intros; ring).
  rewrite (sumn_ext n
    (fun j => indicator (labels st) A j
              * (nth x out_node_probs 0 * nth j in_node_probs 0
                 + nth j out_node_probs 0 * nth x in_node_probs 0))
    (fun j => nth x out_node_probs 0 * (indicator (labels st) A j * nth j in_node_probs 0)
              + nth x in_node_probs 0 * (indicator (labels st) A j * nth j out_node_probs 0)))
    by (intros; ring).
  rewrite !sumn_plus, !sumn_scale.
  unfold two. ring.
Qed.

Lemma move_state_ok st x B d :
  state_ok st -> (x < n)%nat -> (B < n)%nat -> B <> nth x (labels st) 0%nat ->
  state_ok (move out_node_probs in_node_probs x (nth x (labels st) 0%nat) B d st).
Proof.
  intros Hst Hx HB Hne.
  pose proof (label_bound st x Hst Hx) as HA.
  destruct Hst as (Hl & Hf & Hol & Hil & Ho & Hi).
  set (A := nth x (labels st) 0%nat) in *.
  unfold move, state_ok. cbn [labels out_clusters_weights in_clusters_weights].
  rewrite !upd_length.
  split; [exact Hl|]. split; [|split; [exact Hol | split; [exact Hil|]]].
  - rewrite Forall_forall in *. intros c Hc.
    destruct (In_nth _ _ 0%nat Hc) as [j [Hj Ej]]. rewrite upd_length in Hj.
    rewrite nth_upd in Ej by lia.
    destruct (Nat.eqb j x); [congruence|].
    apply Hf. rewrite <- Ej. apply nth_In. exact Hj.
  - split; intros c Hc.
    + rewrite cluster_mass_move by assumption. fold A.
      rewrite nth_upd by (rewrite upd_length; lia).
      rewrite (nth_upd_other _ A B) by congruence.
      rewrite nth_upd by lia.
      rewrite (Nat.eqb_sym B c), (Nat.eqb_sym A c).
      destruct (Nat.eqb_spec c B) as [->|HcB].
      * destruct (Nat.eqb_spec B A) as [|_]; [contradiction|].
        rewrite (Ho B HB). ring.
      * destruct (Nat.eqb_spec c A) as [->|HcA].
        -- rewrite (Ho A HA). ring.
        -- rewrite (Ho c Hc). ring.
    + rewrite cluster_mass_move by assumption. fold A.
      rewrite nth_upd by (rewrite upd_length; lia).
      rewrite (nth_upd_other _ A B) by congruence.
      rewrite nth_upd by lia.
      rewrite (Nat.eqb_sym B c), (Nat.eqb_sym A c).
      destruct (Nat.eqb_spec c B) as [->|HcB].
      * destruct (Nat.eqb_spec B A) as [|_]; [contradiction|].
        rewrite (Hi B HB). ring.
      * destruct (Nat.eqb_spec c A) as [->|HcA].
        -- rewrite (Hi A HA). ring.
        -- rewrite (Hi c Hc). ring.
Qed.

End Invariant.

(** *** Sweeps increase the objective *)




(** Two nodes share a label. *)
Definition has_duplicate (n : nat) (lab : list nat) : Prop :=
  exists i j, (i < n)%nat /\ (j < n)%nat /\ i <> j /\
              nth i lab 0%nat = nth j lab 0%nat.

Section SweepInvariant.

Variable adjacency : csr_matrix.
Variable resolution : Qc.
Variable out_node_probs : list Qc.
Variable in_node_probs : list Qc.
Variable n : nat.

Hypothesis adjacency_wf : csr_wf adjacency.
Hypothesis adjacency_rows : n_rows adjacency = n.
Hypothesis adjacency_cols : n_cols adjacency = n.
Hypothesis adjacency_sym : forall i j, (i < n)%nat -> (j < n)%nat ->
  row_at (row adjacency i) j = row_at (row adjacency j) i.
Hypothesis out_length : length out_node_probs = n.
Hypothesis in_length : length in_node_probs = n.

Let ok := state_ok out_node_probs in_node_probs n.
Let obj := objective adjacency resolution out_node_probs in_node_probs n.

(** What one visit preserves and changes. *)
Definition visit_step (st st' : sweep_state) : Prop :=
  ok st' /\
  obj (labels st') + pass_increase st = obj (labels st) + pass_increase st' /\
  (st' = st \/
   (pass_increase st < pass_increase st' /\ has_duplicate n (labels st'))).

Lemma greedy_visit_step S st x :
  ok st -> (x < n)%nat ->
  visit_step st (greedy_visit adjacency resolution out_node_probs in_node_probs S x st).
Proof.
  intros Hst Hx.
  destruct (greedy_visit_outcome adjacency resolution out_node_probs in_node_probs S st x)
    as [[_ ->] | (B & HB & Hpos & _ & ->)].
  - split; [exact Hst|]. split; [reflexivity | now left].
  - destruct (candidate_bound adjacency out_node_probs in_node_probs n)
      with (st := st) (i := x) (B := B) as [HBn HBA]; auto.
    split; [apply move_state_ok with (adjacency := adjacency); auto|]. split.
    + unfold obj. rewrite (move_objective adjacency resolution out_node_probs in_node_probs n)
        by assumption.
      unfold move. cbn [pass_increase]. ring.
    + right. split.
      * unfold move. cbn [pass_increase]. now apply Qclt_plus_pos.
      * destruct HB as [_ [e [He Hlab]]].
        assert (Hen : (fst e < n)%nat).
        { rewrite <- adjacency_cols. apply (wf_row_cols adjacency x); auto. lia. }
        assert (Hex : fst e <> x) by (intros E; rewrite E in Hlab; congruence).
        exists x, (fst e). split; [exact Hx|]. split; [exact Hen|]. split; [congruence|].
        unfold move. cbn [labels].
        destruct Hst as (Hl & _).
        rewrite nth_upd_same by lia.
        rewrite nth_upd_other by congruence. now rewrite Hlab.
Qed.

Variable visit : nat -> sweep_state -> sweep_state.
Hypothesis visit_greedy : forall x st, ok st -> (x < n)%nat ->
  exists S, visit x st
            = greedy_visit adjacency resolution out_node_probs in_node_probs S x st.

Lemma visit_steps st x : ok st -> (x < n)%nat -> visit_step st (visit x st).
Proof.
  intros Hst Hx. destruct (visit_greedy x st Hst Hx) as [S ->].
  now apply greedy_visit_step.
Qed.

(** The visits of a list of nodes, one after the other. *)
Lemma visits_steps nodes : forall st,
  ok st -> Forall (fun x => (x < n)%nat) nodes ->
  let st' := fold_left (fun s node => visit node s) nodes st in
  ok st' /\
  obj (labels st') + pass_increase st = obj (labels st) + pass_increase st' /\
  pass_increase st <= pass_increase st' /\
  ((labels st' = labels st /\ pass_increase st' = pass_increase st) \/
   (pass_increase st < pass_increase st' /\ has_duplicate n (labels st'))).
Proof.
  induction nodes as [|x t IH]; intros st Hst Hn; cbn zeta.
  - simpl. split; [exact Hst|]. split; [reflexivity|].
    split; [apply Qcle_refl | left; split; reflexivity].
  - apply Forall_cons_iff in Hn. destruct Hn as [Hx Ht]. cbn [fold_left].
    destruct (visit_steps st x Hst Hx) as (Hok1 & Hobj1 & Hcase1).
    destruct (IH (visit x st) Hok1 Ht) as (Hok2 & Hobj2 & Hle2 & Hcase2).
    cbn zeta in Hok2, Hobj2, Hle2, Hcase2.
    set (st1 := visit x st) in Hok1, Hobj1, Hcase1, Hok2, Hobj2, Hle2, Hcase2 |- *.
    set (st2 := fold_left (fun s node => visit node s) t st1)
      in Hok2, Hobj2, Hle2, Hcase2 |- *.
    split; [exact Hok2|]. split.
    + assert (E : obj (labels st2) + pass_increase st1 + (obj (labels st1) + pass_increase st)
                  = obj (labels st1) + pass_increase st2 + (obj (labels st) + pass_increase st1))
        by (rewrite Hobj1, Hobj2; reflexivity).
      assert (E2 : obj (labels st2) + pass_increase st
                   = (obj (labels st2) + pass_increase st1 + (obj (labels st1) + pass_increase st))
                     - (obj (labels st1) + pass_increase st1)) by ring.
      rewrite E2, E. ring.
    + destruct Hcase1 as [E1 | [Hlt1 Hdup1]].
      * rewrite E1 in Hle2, Hcase2. split; [exact Hle2 | exact Hcase2].
      * split; [exact (Qcle_trans _ _ _ (Qclt_le_weak _ _ Hlt1) Hle2)|].
        right. split; [exact (Qclt_le_trans _ _ _ Hlt1 Hle2)|].
        destruct Hcase2 as [[El _] | [_ Hdup2]]; [now rewrite El | exact Hdup2].
Qed.

Lemma sweep_steps st :
  ok st ->
  let st' := sweep n visit st in
  ok st' /\
  obj (labels st') = obj (labels st) + pass_increase st' /\
  0 <= pass_increase st' /\
  ((labels st' = labels st /\ pass_increase st' = 0) \/
   (0 < pass_increase st' /\ has_duplicate n (labels st'))).
Proof.
  intros Hst. cbn zeta. unfold sweep.
  set (st0 := {| labels := labels st;
                 out_clusters_weights := out_clusters_weights st;
                 in_clusters_weights := in_clusters_weights st;
                 pass_increase := 0 |}).
  assert (H0 : ok st0) by exact Hst.
  assert (Hn : Forall (fun x => (x < n)%nat) (seq 0 n)).
  { rewrite Forall_forall. intros x Hx. apply in_seq in Hx. lia. }
  destruct (visits_steps (seq 0 n) st0 H0 Hn) as (Hok & Hobj & Hle & Hcase).
  cbn zeta in Hok, Hobj, Hle, Hcase.
  cbn [labels pass_increase st0] in Hobj, Hle, Hcase.
  split; [exact Hok|]. split; [|split; [exact Hle | exact Hcase]].
  rewrite <- Hobj. ring.
Qed.

(** The labels returned by the loop, whenever it returns. *)
Lemma sweeps_result tol fuel : forall st total lab score,
  ok st ->
  sweeps tol n visit fuel st total = Some (lab, score) ->
  length lab = n /\ Forall (fun c => (c < n)%nat) lab /\
  total <= score /\
  (has_duplicate n (labels st) -> has_duplicate n lab) /\
  (total < score -> has_duplicate n lab).
Proof.
  induction fuel as [|fuel IH]; intros st total lab score Hst H; [discriminate|].
  cbn [sweeps] in H.
  destruct (sweep_steps st Hst) as (Hok & _ & Hpos & Hcase).
  cbn zeta in Hok, Hpos, Hcase.
  set (st' := sweep n visit st) in H, Hok, Hpos, Hcase.
  assert (Keep : has_duplicate n (labels st) -> has_duplicate n (labels st')).
  { intros Hd. destruct Hcase as [[-> _] | [_ Hd']]; assumption. }
  destruct (Qcltb tol (pass_increase st')) eqn:E.
  - destruct (IH st' _ lab score Hok H) as (Hl & Hf & Hle & Hk & Hlt).
    split; [exact Hl|]. split; [exact Hf|]. split; [|split].
    + exact (Qcle_trans _ _ _ (Qcle_plus_nonneg total _ Hpos) Hle).
    + intros Hd. apply Hk. now apply Keep.
    + intros Hts. destruct Hcase as [[_ E0] | [_ Hd']].
      * apply Hlt. now rewrite E0, Qcplus_0_r.
      * now apply Hk.
  - injection H as <- <-. destruct Hok as (Hl & Hf & _).
    split; [exact Hl|]. split; [exact Hf|]. split; [|split].
    + now apply Qcle_plus_nonneg.
    + exact Keep.
    + intros Hts. destruct Hcase as [[_ E0] | [_ Hd']]; [|exact Hd'].
      rewrite E0, Qcplus_0_r in Hts. elim (Qclt_irrefl' _ Hts).
Qed.



End SweepInvariant.

(** *** The loop over the sweeps *)

Lemma sumn_shift m (f : nat -> Qc) :
  sumn (Datatypes.S m) f = f 0%nat + sumn m (fun k => f (Datatypes.S k)).
Proof.
  induction m as [|m IH]; [simpl; ring|].
  change (sumn (Datatypes.S (Datatypes.S m)) f)
    with (sumn (Datatypes.S m) f + f (Datatypes.S m)).
  rewrite IH. simpl. ring.
Qed.

Section Loop.

Variable tol : Qc.
Variable n : nat.
Variable visit : nat -> sweep_state -> sweep_state.

(** The state after [k] sweeps, and the gain of sweep number [k]
    (counting from 0). *)
Definition after_sweeps (st : sweep_state) (k : nat) : sweep_state :=
  Nat.iter k (sweep n visit) st.

Definition sweep_gain (st : sweep_state) (k : nat) : Qc :=
  pass_increase (after_sweeps st (Datatypes.S k)).

Lemma after_sweeps_shift st k :
  after_sweeps (sweep n visit st) k = after_sweeps st (Datatypes.S k).
Proof. unfold after_sweeps. now rewrite <- Nat.iter_succ_r. Qed.

Lemma sweep_gain_shift st k :
  sweep_gain (sweep n visit st) k = sweep_gain st (Datatypes.S k).
Proof. unfold sweep_gain. now rewrite after_sweeps_shift. Qed.

(** The loop runs out of fuel exactly when every sweep it had fuel for was
    followed by another one. *)
Lemma sweeps_none fuel : forall st total,
  sweeps tol n visit fuel st total = None
  <-> forall k, (k < fuel)%nat -> tol < sweep_gain st k.
Proof.
  induction fuel as [|fuel IH]; intros st total.
  - split; [intros _ k Hk; lia | reflexivity].
  - cbn [sweeps].
    destruct (Qcltb tol (pass_increase (sweep n visit st))) eqn:E.
    + rewrite IH. apply Qcltb_lt in E. split.
      * intros H [|k] Hk; [exact E|].
        rewrite <- sweep_gain_shift. apply H. lia.
      * intros H k Hk. rewrite sweep_gain_shift. apply H. lia.
    + apply Qcltb_ge in E. split; [discriminate|].
      intros H. exfalso. specialize (H 0%nat ltac:(lia)).
      exact (Qcle_not_lt _ _ E H).
Qed.

(** When it returns, it has made [K + 1] sweeps: each of the first [K] had
    a gain above [tol], the last one had not; the labels are those after
    the last sweep and the score adds up the gains. *)
Lemma sweeps_some fuel : forall st total lab score,
  sweeps tol n visit fuel st total = Some (lab, score) ->
  exists K, (K < fuel)%nat /\
    (forall k, (k < K)%nat -> tol < sweep_gain st k) /\
    sweep_gain st K <= tol /\
    lab = labels (after_sweeps st (Datatypes.S K)) /\
    score = total + sumn (Datatypes.S K) (sweep_gain st).
Proof.
  induction fuel as [|fuel IH]; intros st total lab score H; [discriminate|].
  cbn [sweeps] in H.
  destruct (Qcltb tol (pass_increase (sweep n visit st))) eqn:E.
  - apply Qcltb_lt in E.
    destruct (IH _ _ _ _ H) as (K & HK & Hbefore & Hlast & Hlab & Hscore).
    exists (Datatypes.S K). split; [lia|]. split; [|split; [|split]].
    + intros [|k] Hk; [exact E|]. rewrite <- sweep_gain_shift. apply Hbefore. lia.
    + now rewrite <- sweep_gain_shift.
    + now rewrite <- after_sweeps_shift.
    + rewrite Hscore, (sumn_shift (Datatypes.S K)).
      rewrite (sumn_ext (Datatypes.S K) (sweep_gain (sweep n visit st))
                 (fun k => sweep_gain st (Datatypes.S k)))
        by (intros; apply sweep_gain_shift).
      change (sweep_gain st 0%nat) with (pass_increase (sweep n visit st)). ring.
  - apply Qcltb_ge in E. injection H as <- <-.
    exists 0%nat. split; [lia|]. split; [intros k Hk; lia|].
    split; [exact E|]. split; [reflexivity|].
    change (sumn 1 (sweep_gain st)) with (0 + pass_increase (sweep n visit st)). ring.
Qed.


Hypothesis visit_monotone :
  forall node st, pass_increase st <= pass_increase (visit node st).

Lemma sweep_nonneg st : 0 <= pass_increase (sweep n visit st).
Proof.
  unfold sweep.
  set (st0 := {| labels := labels st;
                 out_clusters_weights := out_clusters_weights st;
                 in_clusters_weights := in_clusters_weights st;
                 pass_increase := 0 |}).
  assert (G : forall nodes s, pass_increase s
                <= pass_increase (fold_left (fun s node => visit node s) nodes s)).
  { induction nodes as [|x t IH]; intros s; simpl; [apply Qcle_refl|].
    exact (Qcle_trans _ _ _ (visit_monotone x s) (IH _)). }
  exact (G (seq 0 n) st0).
Qed.

Lemma sweep_gain_nonneg st k : 0 <= sweep_gain st k.
Proof. unfold sweep_gain, after_sweeps. simpl. apply sweep_nonneg. Qed.

End Loop.

(** Both engines only ever add a strictly positive gain to [pass_increase]. *)
Lemma move_pass o p node A B d st :
  pass_increase (move o p node A B d st) = pass_increase st + d.
Proof. reflexivity. Qed.

Lemma py_visit_monotone res o p loops data indices indptr S node st :
  pass_increase st
  <= pass_increase (py_visit res o p loops data indices indptr S node st).
Proof.
  unfold py_visit. cbv zeta.
  destruct (Nat.ltb 0 _); [|apply Qcle_refl].
  match goal with |- context [Qcltb 0 ?d] => destruct (Qcltb 0 d) eqn:E end;
    [|apply Qcle_refl].
  rewrite move_pass. apply Qcle_plus_nonneg, Qclt_le_weak.
  apply Qcltb_lt. exact E.
Qed.

Lemma core_visit_monotone res n o p loops data indices indptr S node st :
  pass_increase st
  <= pass_increase (core_visit res n o p loops data indices indptr S node st).
Proof.
  unfold core_visit. cbv zeta.
  destruct (Nat.ltb 0 _); [|apply Qcle_refl].
  destruct (fold_left _ _ _) as [bd bc].
  destruct (Qcltb 0 bd) eqn:E; [|apply Qcle_refl].
  rewrite move_pass. apply Qcle_plus_nonneg, Qclt_le_weak.
  apply Qcltb_lt. exact E.
Qed.

(** *** The two engines *)

(** The body of the node loop of the engine selected by [self.engine]. *)
Definition engine_visit (rt : runtime) (self : GreedyModularity)
    (graph : AggregateGraph) (adjacency : csr_matrix)
    : option (nat -> sweep_state -> sweep_state) :=
  match engine self with
  | Python =>
      Some (py_visit (resolution self) (out_probs graph) (in_node_probs_of graph)
              (diagonal adjacency) (data adjacency) (indices adjacency)
              (indptr adjacency) (python_set rt))
  | Numba =>
      Some (core_visit (resolution self) (n_nodes graph) (out_probs graph)
              (in_node_probs_of graph) (diagonal adjacency) (data adjacency)
              (indices adjacency) (indptr adjacency) (numba_set rt))
  | Default => None
  end.

(** The state in which the selected engine starts its first sweep. *)
Definition start (graph : AggregateGraph) : sweep_state :=
  initial_state (n_nodes graph) (out_probs graph) (in_node_probs_of graph).

Lemma engine_sweeps_visit rt fuel self graph adjacency :
  engine_sweeps rt fuel self graph adjacency
  = option_map (fun visit => sweeps (tol self) (n_nodes graph) visit fuel (start graph) 0)
               (engine_visit rt self graph adjacency).
Proof.
  unfold engine_sweeps, engine_visit. destruct (engine self); reflexivity.
Qed.

Lemma engine_visit_monotone rt self graph adjacency visit :
  engine_visit rt self graph adjacency = Some visit ->
  forall node st, pass_increase st <= pass_increase (visit node st).
Proof.
  unfold engine_visit. intros H node st.
  destruct (engine self); try discriminate; injection H as <-.
  - apply py_visit_monotone.
  - apply core_visit_monotone.
Qed.

(** C2: the gains of the sweeps.  Every sweep has a gain of at least 0.
    The loop starts a further sweep exactly when the gain of the sweep it
    just made is strictly above [tol]: it runs out of fuel when every sweep
    it had fuel for was above, and otherwise returns after the first sweep
    [K] whose gain is not above, reporting as [score_] the sum of the gains
    of the sweeps it made. *)
Theorem sweep_gains_and_score rt fuel self graph adjacency visit :
  proxy graph = Ok adjacency ->
  engine_visit rt self graph adjacency = Some visit ->
  let gain_of := sweep_gain (n_nodes graph) visit (start graph) in
  (forall k, 0 <= gain_of k) /\
  (GreedyModularity_fit rt fuel self graph = None
   <-> forall k, (k < fuel)%nat -> tol self < gain_of k) /\
  (forall o, GreedyModularity_fit rt fuel self graph = Some (Ok o) ->
     exists K, (K < fuel)%nat /\
       (forall k, (k < K)%nat -> tol self < gain_of k) /\
       gain_of K <= tol self /\
       score_ o = Some (sumn (Datatypes.S K) gain_of)).
Proof.
  intros Hp Hv. cbn zeta.
  split; [|split].
  - intros k. apply sweep_gain_nonneg.
    exact (engine_visit_monotone rt self graph adjacency visit Hv).
  - unfold GreedyModularity_fit. rewrite Hp, engine_sweeps_visit, Hv. cbn [option_map].
    rewrite <- (sweeps_none (tol self) (n_nodes graph) visit fuel (start graph) 0).
    destruct (sweeps _ _ _ _ _ _) as [[lab score]|]; split; auto; discriminate.
  - intros o. unfold GreedyModularity_fit.
    rewrite Hp, engine_sweeps_visit, Hv. cbn [option_map].
    destruct (sweeps _ _ _ _ _ _) as [[lab score]|] eqn:E; [|discriminate].
    intros H. injection H as <-. cbn [score_].
    destruct (sweeps_some _ _ _ _ _ _ _ _ E) as (K & HK & Hb & Hl & _ & Hs).
    exists K. split; [exact HK|]. split; [exact Hb|]. split; [exact Hl|].
    rewrite Hs. f_equal. ring.
Qed.

Definition python_optimizer (res tol : Qc) : GreedyModularity :=
  {| resolution := res; tol := tol; engine := Python;
     score_ := None; labels_ := None |}.


Definition thousandth : Qc := Q2Qc (1 # 1000).

Lemma sweep_gains_and_score_witness :
  exists o K,
    GreedyModularity_fit ascending_runtime 5 (python_optimizer 1 thousandth) triangle_graph
    = Some (Ok o) /\
    (K < 5)%nat /\
    score_ o = Some (sumn (Datatypes.S K) (sweep_gain 3
       (py_visit 1 (out_probs triangle_graph) (in_node_probs_of triangle_graph)
          (diagonal triangle_proxy) (data triangle_proxy) (indices triangle_proxy)
          (indptr triangle_proxy) ascending_set)
       (start triangle_graph))).
Proof.
  destruct (sweep_gains_and_score ascending_runtime 5 (python_optimizer 1 thousandth)
              triangle_graph triangle_proxy _
              (proxy_ok _ triangle_graph_wf) eq_refl) as (_ & _ & H).
  destruct (GreedyModularity_fit ascending_runtime 5 (python_optimizer 1 thousandth)
              triangle_graph) as [[o|e]|] eqn:E.
  - destruct (H o eq_refl) as (K & HK & _ & _ & Hs).
    exists o, K. split; [reflexivity|]. split; [exact HK | exact Hs].
  - exfalso. vm_compute in E. discriminate E.
  - exfalso. vm_compute in E. discriminate E.
Defined.

(** *** The engines on a well-formed graph *)

Lemma in_node_probs_length graph :
  graph_wf graph -> length (in_node_probs_of graph) = n_nodes graph.
Proof.
  intros (_ & _ & _ & Ho & Hi). unfold in_node_probs_of.
  destruct (in_probs graph) as [p|]; [now apply Hi | exact Ho].
Qed.

Lemma proxy_symmetric graph adjacency :
  graph_wf graph -> proxy graph = Ok adjacency ->
  forall i j, (i < n_nodes graph)%nat -> (j < n_nodes graph)%nat ->
    row_at (row adjacency i) j = row_at (row adjacency j) i.
Proof.
  intros Hg Hp i j Hi Hj.
  destruct (proxy_spec graph adjacency Hg Hp) as (_ & _ & _ & He).
  rewrite (He i j Hi Hj), (He j i Hj Hi). ring.
Qed.

Lemma seq_nth0 n j : (j < n)%nat -> nth j (seq 0 n) 0%nat = j.
Proof. intros H. now rewrite seq_nth. Qed.

Lemma initial_state_ok n o p :
  length o = n -> length p = n -> state_ok o p n (initial_state n o p).
Proof.
  intros Ho Hp. unfold state_ok, initial_state.
  cbn [labels out_clusters_weights in_clusters_weights].
  split; [apply length_seq|]. split.
  { rewrite Forall_forall. intros c Hc. apply in_seq in Hc. lia. }
  split; [exact Ho|]. split; [exact Hp|].
  assert (M : forall (w : list Qc) c, (c < n)%nat ->
            nth c w 0 = cluster_mass n w (seq 0 n) c).
  { intros w c Hc. unfold cluster_mass.
    rewrite (sumn_ext n _ (fun j => if Nat.eqb j c then nth c w 0 else 0)).
    - now rewrite sumn_single.
    - intros j Hj. rewrite seq_nth0 by assumption.
      destruct (Nat.eqb_spec j c) as [->|]; reflexivity. }
  split; intros c Hc; now apply M.
Qed.

Lemma start_ok graph :
  graph_wf graph ->
  state_ok (out_probs graph) (in_node_probs_of graph) (n_nodes graph) (start graph).
Proof.
  intros Hg. apply initial_state_ok.
  - now destruct Hg as (_ & _ & _ & Ho & _).
  - now apply in_node_probs_length.
Qed.

(** On the states the sweeps go through, both engines perform
    [greedy_visit] with their own set implementation. *)
Lemma engine_visit_greedy rt self graph adjacency visit :
  graph_wf graph -> proxy graph = Ok adjacency ->
  engine_visit rt self graph adjacency = Some visit ->
  forall x st,
    state_ok (out_probs graph) (in_node_probs_of graph) (n_nodes graph) st ->
    (x < n_nodes graph)%nat ->
    visit x st
    = greedy_visit adjacency (resolution self) (out_probs graph)
        (in_node_probs_of graph)
        (match engine self with Numba => numba_set rt | _ => python_set rt end) x st.
Proof.
  intros Hg Hp Hv x st Hst Hx.
  destruct (proxy_spec graph adjacency Hg Hp) as (Hwf & Hr & Hc & _).
  unfold engine_visit in Hv.
  destruct (engine self); try discriminate; injection Hv as <-.
  - apply py_visit_greedy; [assumption | lia | lia].
  - apply core_visit_greedy; [assumption | lia | lia |].
    rewrite Forall_forall. intros e He.
    destruct Hst as (Hl & Hf & _). rewrite Forall_forall in Hf. apply Hf.
    apply nth_In. rewrite Hl, <- Hc. apply (wf_row_cols adjacency x); auto. lia.
Qed.


(** *** The two engines side by side *)


Section Agreement.

Variable adjacency : csr_matrix.
Variable resolution : Qc.
Variable out_node_probs : list Qc.
Variable in_node_probs : list Qc.
Variable n : nat.

Hypothesis adjacency_wf : csr_wf adjacency.
Hypothesis adjacency_rows : n_rows adjacency = n.
Hypothesis adjacency_cols : n_cols adjacency = n.
Hypothesis adjacency_sym : forall i j, (i < n)%nat -> (j < n)%nat ->
  row_at (row adjacency i) j = row_at (row adjacency j) i.
Hypothesis out_length : length out_node_probs = n.
Hypothesis in_length : length in_node_probs = n.

Variable S : cluster_set.
Variables visit1 visit2 : nat -> sweep_state -> sweep_state.

Hypothesis visit1_greedy : forall x st,
  state_ok out_node_probs in_node_probs n st -> (x < n)%nat ->
  visit1 x st = greedy_visit adjacency resolution out_node_probs in_node_probs S x st.
Hypothesis visit2_greedy : forall x st,
  state_ok out_node_probs in_node_probs n st -> (x < n)%nat ->
  visit2 x st = greedy_visit adjacency resolution out_node_probs in_node_probs S x st.




End Agreement.








(** *** The renumbering of the labels ([np.unique] with [return_inverse]) *)

Lemma index_of_lt x l : In x l -> (index_of x l < length l)%nat.
Proof.
  induction l as [|y t IH]; simpl; [tauto|].
  intros H. destruct (Nat.eqb_spec x y) as [->|Hne]; [lia|].
  destruct H as [->|H]; [congruence|]. specialize (IH H). lia.
Qed.

Lemma nth_index_of x l d : In x l -> nth (index_of x l) l d = x.
Proof.
  induction l as [|y t IH]; simpl; [tauto|].
  intros H. destruct (Nat.eqb_spec x y) as [->|Hne]; [reflexivity|].
  destruct H as [->|H]; [congruence | now apply IH].
Qed.

Lemma index_of_nth l k d :
  NoDup l -> (k < length l)%nat -> index_of (nth k l d) l = k.
Proof.
  revert k. induction l as [|y t IH]; intros k Hnd Hk; simpl in Hk; [lia|].
  inversion Hnd as [|? ? Hy Ht]; subst.
  destruct k as [|k]; simpl.
  - now rewrite Nat.eqb_refl.
  - destruct (Nat.eqb_spec (nth k t d) y) as [E|_].
    + exfalso. apply Hy. rewrite <- E. apply nth_In. lia.
    + f_equal. apply IH; [assumption | lia].
Qed.

Lemma index_of_sorted l x y :
  StronglySorted lt l -> In x l -> In y l ->
  ((x < y)%nat <-> (index_of x l < index_of y l)%nat).
Proof.
  induction 1 as [|z t Ht IH Hz]; [simpl; tauto|].
  intros Hx Hy. rewrite Forall_forall in Hz. simpl.
  destruct (Nat.eqb_spec x z) as [->|Hxz], (Nat.eqb_spec y z) as [->|Hyz].
  - lia.
  - destruct Hy as [->|Hy]; [congruence|]. specialize (Hz y Hy). lia.
  - destruct Hx as [->|Hx]; [congruence|]. specialize (Hz x Hx). lia.
  - destruct Hx as [->|Hx]; [congruence|]. destruct Hy as [->|Hy]; [congruence|].
    rewrite (IH Hx Hy). lia.
Qed.

Lemma unique_inverse_length l : length (unique_inverse l) = length l.
Proof. unfold unique_inverse. apply length_map. Qed.

Lemma unique_inverse_nth l i :
  (i < length l)%nat ->
  nth i (unique_inverse l) 0%nat = index_of (nth i l 0%nat) (unique l).
Proof.
  intros H. unfold unique_inverse.
  exact (nth_map_in (fun x => index_of x (unique l)) l i 0%nat 0%nat H).
Qed.

(** The reported label of a node is the rank of its sweep label among the
    distinct sweep labels: order is preserved, and the labels used are
    exactly the numbers below the number of clusters. *)
Lemma unique_inverse_rank l :
  (forall i j, (i < length l)%nat -> (j < length l)%nat ->
     ((nth i l 0 < nth j l 0)%nat
      <-> (nth i (unique_inverse l) 0 < nth j (unique_inverse l) 0)%nat)) /\
  (forall c, (c < length (unique l))%nat
             <-> exists i, (i < length l)%nat /\ nth i (unique_inverse l) 0%nat = c).
Proof.
  split.
  - intros i j Hi Hj. rewrite !unique_inverse_nth by assumption.
    apply index_of_sorted; [apply unique_sorted | |];
      apply unique_in; now apply nth_In.
  - intros c. split.
    + intros Hc.
      assert (Hin : In (nth c (unique l) 0%nat) l) by (apply unique_in; now apply nth_In).
      destruct (In_nth _ _ 0%nat Hin) as [i [Hi Ei]].
      exists i. split; [exact Hi|].
      rewrite unique_inverse_nth, Ei by assumption.
      apply index_of_nth; [apply sorted_nodup, unique_sorted | exact Hc].
    + intros [i [Hi <-]]. rewrite unique_inverse_nth by assumption.
      apply index_of_lt, unique_in. now apply nth_In.
Qed.

(** The renumbering the specification describes: clusters numbered in the
    order in which a scan of the nodes first meets them. *)
Definition first_seen (l : list nat) : list nat :=
  fold_left (fun seen x => if existsb (Nat.eqb x) seen then seen else seen ++ [x]) l [].

Definition first_occurrence (l : list nat) : list nat :=
  map (fun x => index_of x (first_seen l)) l.

(** C6, as the code has it: the labels reported by [fit] are the labels of
    the last sweep renumbered by [np.unique]: densely, from 0, in ascending
    order of the cluster ids of the sweep (the node whose sweep label is the
    smallest receives 0), not in order of first occurrence. *)
Theorem fit_labels_renumbered_by_rank rt fuel self graph o :
  GreedyModularity_fit rt fuel self graph = Some (Ok o) ->
  exists adjacency sweep_labels score,
    proxy graph = Ok adjacency /\
    engine_sweeps rt fuel self graph adjacency = Some (Some (sweep_labels, score)) /\
    labels_ o = Some (unique_inverse sweep_labels) /\
    length (unique_inverse sweep_labels) = length sweep_labels /\
    (forall i j, (i < length sweep_labels)%nat -> (j < length sweep_labels)%nat ->
       ((nth i sweep_labels 0 < nth j sweep_labels 0)%nat
        <-> (nth i (unique_inverse sweep_labels) 0
             < nth j (unique_inverse sweep_labels) 0)%nat)) /\
    (forall c, (c < length (unique sweep_labels))%nat
               <-> exists i, (i < length sweep_labels)%nat /\
                             nth i (unique_inverse sweep_labels) 0%nat = c).
Proof.
  unfold GreedyModularity_fit.
  destruct (proxy graph) as [adjacency|e] eqn:Hp; [|discriminate].
  destruct (engine_sweeps rt fuel self graph adjacency) as [[[lab score]|]|] eqn:Hs;
    try discriminate.
  intros H. injection H as <-.
  exists adjacency, lab, score. cbn [labels_].
  split; [reflexivity|]. split; [exact Hs|]. split; [reflexivity|].
  split; [apply unique_inverse_length|]. apply unique_inverse_rank.
Qed.

(** Two disjoint edges, 0 - 3 and 1 - 2, with unit weights. *)
Definition two_edges : csr_matrix :=
  adjacency_of 4 4 [[(3, 1)]; [(2, 1)]; [(1, 1)]; [(0, 1)]]%nat.

Lemma fit_labels_renumbered_by_rank_witness :
  exists o sweep_labels,
    GreedyModularity_fit ascending_runtime 5 (python_optimizer 1 thousandth)
      (graph_of two_edges) = Some (Ok o) /\
    labels_ o = Some (unique_inverse sweep_labels) /\
    length (unique_inverse sweep_labels) = length sweep_labels.
Proof.
  destruct (GreedyModularity_fit ascending_runtime 5 (python_optimizer 1 thousandth)
              (graph_of two_edges)) as [[o|e]|] eqn:E.
  - destruct (fit_labels_renumbered_by_rank _ _ _ _ o E)
      as (adjacency & lab & score & _ & _ & Hl & Hn & _).
    exists o, lab. split; [reflexivity|]. split; [exact Hl | exact Hn].
  - exfalso. vm_compute in E. discriminate E.
  - exfalso. vm_compute in E. discriminate E.
Defined.

(** C6 fails as stated: on two disjoint edges the sweeps end with the
    labels [3; 2; 2; 3]; the lowest-indexed node is reported in cluster 1,
    whereas numbering by first occurrence would put it in cluster 0. *)
Lemma fit_labels_not_by_first_occurrence :
  exists o,
    GreedyModularity_fit ascending_runtime 5 (python_optimizer 1 thousandth)
      (graph_of two_edges) = Some (Ok o) /\
    option_map fst
      (python_sweeps ascending_set 5 1 thousandth (graph_of two_edges)
         (of_rows (shape (norm_adjacency (graph_of two_edges)))
                  (proxy_rows (norm_adjacency (graph_of two_edges)))))
    = Some [3; 2; 2; 3]%nat /\
    labels_ o = Some [1; 0; 0; 1]%nat /\
    first_occurrence [3; 2; 2; 3]%nat = [0; 1; 1; 0]%nat /\
    labels_ o <> Some (first_occurrence [3; 2; 2; 3]%nat).
Proof.
  eexists. split; [vm_compute; reflexivity|].
  split; [vm_compute; reflexivity|].
  split; [reflexivity|]. split; [reflexivity | discriminate].
Qed.



(** *** Configuration of the optimizer *)

Definition minus_one : Qc := - (1).




End Optimizer.

(** ** The multilevel driver (class Louvain) *)

Module Louvain.

Import Num Sparse Graph Optimizer.
Local Open Scope Qc_scope.


(** Modelled from the spec: [check_format] (sknetwork.utils.checks), which
    is not part of the sources at hand.  Validation and conversion of the raw
    input belong to the input layer; the driver receives a CSR matrix. *)
Definition check_format (adjacency : csr_matrix) : csr_matrix := adjacency.

(** Modelled from the spec: [bipartite2directed]
    (sknetwork.utils.adjacency_formats), which is not part of the sources at
    hand: the directed graph over the row nodes followed by the column
    nodes, whose edges go from rows to columns with the original weights. *)
Definition bipartite2directed (biadjacency : csr_matrix) : csr_matrix :=
  let n1 := n_rows biadjacency in
  let n2 := n_cols biadjacency in
  of_rows ((n1 + n2)%nat, (n1 + n2)%nat)
    (map (fun i => map (fun e => ((n1 + fst e)%nat, snd e)) (row biadjacency i)) (seq 0 n1)
     ++ repeat [] n2).

(** Modelled from the spec: [bipartite2undirected]
    (sknetwork.utils.adjacency_formats), which is not part of the sources at
    hand: the same graph with the edges mirrored from columns to rows. *)
Definition bipartite2undirected (biadjacency : csr_matrix) : csr_matrix :=
  let n1 := n_rows biadjacency in
  let n2 := n_cols biadjacency in
  of_rows ((n1 + n2)%nat, (n1 + n2)%nat)
    (map (fun i => map (fun e => ((n1 + fst e)%nat, snd e)) (row biadjacency i)) (seq 0 n1)
     ++ map (column biadjacency) (seq 0 n2)).

(** Modelled from the spec: [reindex_clusters]
    (sknetwork.clustering.post_processing), which is not part of the sources
    at hand: cluster ids renumbered in descending order of cluster size,
    ties broken by the lowest original id. *)
Definition cluster_size (labels : list nat) (c : nat) : nat :=
  length (filter (Nat.eqb c) labels).

Definition comes_before (labels : list nat) (a b : nat) : bool :=
  (Nat.ltb (cluster_size labels b) (cluster_size labels a)
   || (Nat.eqb (cluster_size labels a) (cluster_size labels b) && Nat.ltb a b))%bool.

Definition reindex_clusters (labels : list nat) : list nat :=
  map (fun c => length (filter (fun d => comes_before labels d c) (unique labels))) labels.

(** [adjacency[nodes, :].tocsc()[:, nodes].tocsr()]: row [i] of the result is
    row [nodes[i]] of the adjacency, and its column [j] is column
    [nodes[j]]. *)
Definition positions (c : nat) (nodes : list nat) : list nat :=
  filter (fun j => Nat.eqb (nth j nodes 0%nat) c) (seq 0 (length nodes)).

Definition reorder (nodes : list nat) (adjacency : csr_matrix) : csr_matrix :=
  of_rows (length nodes, length nodes)
    (map (fun k => sum_duplicates
                     (flat_map (fun e => map (fun j => (j, snd e)) (positions (fst e) nodes))
                               (row adjacency k)))
         nodes).

(** [reverse = np.empty(n); reverse[nodes] = np.arange(n)] *)
Definition reverse_of (nodes : list nat) : list nat :=
  fold_left (fun r i => upd r (nth i nodes 0%nat) i)
            (seq 0 (length nodes)) (repeat 0%nat (length nodes)).

(** [labels[index]] for an index vector. *)
Definition take (labels : list nat) (index : list nat) : list nat :=
  map (fun k => nth k labels 0%nat) index.

Record Louvain : Type := {
  algorithm : GreedyModularity;
  agg_tol : Qc;
  max_agg_iter : Z;
  shuffle_nodes : bool;
  labels_ : option (list nat);
  secondary_labels_ : option (list nat);
  iteration_count_ : option nat;
  aggregate_graph_ : option csr_matrix
}.

(** [Louvain.__init__] with the default algorithm. *)
Definition Louvain_init (rt : runtime) (engine : engine_name) (resolution tol agg_tol : Qc)
    (max_agg_iter : Z) (shuffle_nodes : bool) : result Louvain :=
  do e <- check_engine rt engine;
  do a <- GreedyModularity_init rt resolution tol e;
  Ok {| algorithm := a; agg_tol := agg_tol; max_agg_iter := max_agg_iter;
        shuffle_nodes := shuffle_nodes; labels_ := None; secondary_labels_ := None;
        iteration_count_ := None; aggregate_graph_ := None |}.

(** The first part of [Louvain.fit]: the adjacency and the weights the
    coarsened graph is built from. *)
Definition preprocess (adjacency : csr_matrix) (weights : weights)
    (secondary_weights : option Graph.weights) (force_undirected force_biadjacency : bool)
    : result (csr_matrix * Graph.weights * Graph.weights) :=
  let adjacency := check_format adjacency in
  let n1 := n_rows adjacency in
  let n2 := n_cols adjacency in
  if (negb (Nat.eqb n1 n2) || force_biadjacency)%bool then
    if force_undirected then
      let adjacency := bipartite2undirected adjacency in
      do out_weights <- check_probs weights adjacency;
      Ok (adjacency, Custom out_weights, Custom out_weights)
    else
      do primary_weights <- check_probs weights adjacency;
      let secondary_weights :=
        match secondary_weights with
        | Some w => w
        | None => match weights with
                  | Custom _ => Degree
                  | w => w
                  end
        end in
      do secondary_weights <- check_probs secondary_weights (transpose adjacency);
      let adjacency := bipartite2directed adjacency in
      Ok (adjacency,
          Custom (primary_weights ++ repeat 0 n2),
          Custom (repeat 0 n1 ++ secondary_weights))
  else
    if force_undirected then
      do adjacency <- directed2undirected adjacency;
      Ok (adjacency, weights, weights)
    else Ok (adjacency, weights, weights).

(** The variables of the aggregation loop. *)
Record level_state : Type := {
  optimizer : GreedyModularity;
  graph : AggregateGraph;
  membership : csr_matrix;
  iteration_count : nat
}.

(** How a turn of the loop ends: with another turn, or out of the loop. *)
Inductive turn : Type :=
| Again (s : level_state)
| Leave (s : level_state).

(** One turn of [while increase: ...]. *)
Definition level (rt : runtime) (fuel : nat) (agg_tol : Qc) (max_agg_iter : Z)
    (s : level_state) : option (result turn) :=
  let iteration_count := (iteration_count s + 1)%nat in
  match GreedyModularity_fit rt fuel (optimizer s) (graph s) with
  | None => None
  | Some (Raise e) => Some (Raise e)
  | Some (Ok algorithm) =>
      match score_ algorithm, Optimizer.labels_ algorithm with
      | Some score, Some labels =>
          if Qcleb score agg_tol then
            Some (Ok (Leave {| optimizer := algorithm; graph := graph s;
                               membership := membership s;
                               iteration_count := iteration_count |}))
          else
            Some (do agg_membership <- membership_matrix labels;
                  do membership <- dot (membership s) agg_membership;
                  match aggregate (Matrix agg_membership) None (graph s) with
                  | (_, Raise e) => Raise e
                  | (graph, Ok _) =>
                      let s' := {| optimizer := algorithm; graph := graph;
                                   membership := membership;
                                   iteration_count := iteration_count |} in
                      if Nat.eqb (n_nodes graph) 1 then Ok (Leave s')
                      else if Z.eqb (Z.of_nat iteration_count) max_agg_iter
                           then Ok (Leave s')
                           else Ok (Again s')
                  end)
      | _, _ => Some (Raise TypeError)
      end
  end.

(** The loop: [fuel] bounds the number of turns and, in every turn, the
    number of sweeps of the optimizer; [None] means that it ran out. *)
Fixpoint levels (rt : runtime) (turns fuel : nat) (agg_tol : Qc) (max_agg_iter : Z)
    (s : level_state) : option (result level_state) :=
  match turns with
  | O => None
  | Datatypes.S turns' =>
      match level rt fuel agg_tol max_agg_iter s with
      | None => None
      | Some (Raise e) => Some (Raise e)
      | Some (Ok (Leave s')) => Some (Ok s')
      | Some (Ok (Again s')) => levels rt turns' fuel agg_tol max_agg_iter s'
      end
  end.

(** The last part of [Louvain.fit]: the labels in the original node order,
    reindexed and split at the boundary between rows and columns. *)
Definition postprocess (self : Louvain) (n1 n : nat) (nodes : list nat)
    (sorted_cluster : bool) (adjacency : csr_matrix) (s : level_state) : Louvain :=
  let labels := indices (membership s) in
  let labels := if shuffle_nodes self then take labels (reverse_of nodes) else labels in
  let labels := if sorted_cluster then reindex_clusters labels else labels in
  let secondary := if Nat.ltb n1 n then Some (skipn n1 labels) else secondary_labels_ self in
  let labels := if Nat.ltb n1 n then firstn n1 labels else labels in
  {| algorithm := optimizer s;
     agg_tol := agg_tol self;
     max_agg_iter := max_agg_iter self;
     shuffle_nodes := shuffle_nodes self;
     labels_ := Some labels;
     secondary_labels_ := secondary;
     iteration_count_ := Some (iteration_count s);
     aggregate_graph_ := Some (scale (total adjacency) (norm_adjacency (graph s))) |}.

(** The graph the loop starts from: [permutation] is the value drawn by
    [random_state.permutation] and is used when [shuffle_nodes] is set. *)
Definition prepare (self : Louvain) (adjacency : csr_matrix) (weights : weights)
    (secondary_weights : option Graph.weights) (force_undirected force_biadjacency : bool)
    (permutation : list nat) : result (csr_matrix * list nat * AggregateGraph) :=
  do p <- preprocess adjacency weights secondary_weights force_undirected force_biadjacency;
  let '(adjacency, out_weights, in_weights) := p in
  let nodes := seq 0 (n_rows adjacency) in
  let nodes := if shuffle_nodes self then permutation else nodes in
  let adjacency := if shuffle_nodes self then reorder nodes adjacency else adjacency in
  do graph <- init adjacency out_weights (Some in_weights);
  Ok (adjacency, nodes, graph).

(** [Louvain.fit] *)
Definition fit (rt : runtime) (fuel : nat) (self : Louvain) (adjacency : csr_matrix)
    (weights : weights) (secondary_weights : option Graph.weights)
    (force_undirected force_biadjacency sorted_cluster : bool)
    (permutation : list nat) : option (result Louvain) :=
  let n1 := n_rows adjacency in
  match prepare self adjacency weights secondary_weights force_undirected
          force_biadjacency permutation with
  | Raise e => Some (Raise e)
  | Ok (adjacency, nodes, graph) =>
      let n := n_rows adjacency in
      match levels rt fuel fuel (agg_tol self) (max_agg_iter self)
              {| optimizer := algorithm self; graph := graph;
                 membership := identity n; iteration_count := 0 |} with
      | None => None
      | Some (Raise e) => Some (Raise e)
      | Some (Ok s) => Some (Ok (postprocess self n1 n nodes sorted_cluster adjacency s))
      end
  end.

(** A driver with the interpreted engine and resolution 1. *)
Definition louvain (tolerance agg : Qc) (cap : Z) (shuffle : bool) : Louvain :=
  {| algorithm := python_optimizer 1 tolerance; agg_tol := agg; max_agg_iter := cap;
     shuffle_nodes := shuffle; labels_ := None; secondary_labels_ := None;
     iteration_count_ := None; aggregate_graph_ := None |}.

(** Two disjoint triangles, and a 3 x 2 biadjacency. *)
Definition two_triangles : csr_matrix :=
  adjacency_of 6 6 [[(1,1);(2,1)]; [(0,1);(2,1)]; [(0,1);(1,1)];
                    [(4,1);(5,1)]; [(3,1);(5,1)]; [(3,1);(4,1)]]%nat.

(** *** The graphs of the successive levels are well formed *)

Lemma shape_pair (m : csr_matrix) : shape m = (n_rows m, n_cols m).
Proof. unfold n_rows, n_cols. now destruct (shape m). Qed.

Lemma scale_wf c m : csr_wf m -> csr_wf (scale c m).
Proof.
  intros [E Hc].
  assert (Es : scale c m
               = of_rows (n_rows m, n_cols m)
                   (map (map (fun e => (fst e, c * snd e))) (rows m))).
  { rewrite E at 1. rewrite scale_of_rows. now rewrite shape_pair. }
  rewrite Es. apply of_rows_wf.
  - now rewrite length_map, rows_length.
  - rewrite Forall_map. rewrite Forall_forall in *. intros r Hr.
    rewrite Forall_map. simpl. now apply Hc.
Qed.

Lemma divide_scale m c na : divide m c = Ok na -> na = scale (/ c) m.
Proof.
  unfold divide. destruct (Qc_eq_dec c 0); [discriminate|].
  intros H. injection H as <-. unfold scale. f_equal.
  apply map_ext. intros x. unfold Qcdiv. ring.
Qed.

Lemma check_probs_length w a v : check_probs w a = Ok v -> length v = n_rows a.
Proof.
  unfold check_probs.
  destruct w as [| |u]; cbn [bind].
  - destruct (Qc_eq_dec _ 0); [discriminate|]. intros H. injection H as <-.
    now rewrite !length_map, length_seq.
  - destruct (Qc_eq_dec _ 0); [discriminate|]. intros H. injection H as <-.
    now rewrite length_map, repeat_length.
  - destruct (Nat.eqb_spec (length u) (n_rows a)) as [E|]; cbn [bind]; [|discriminate].
    destruct (Qc_eq_dec _ 0); [discriminate|]. intros H. injection H as <-.
    now rewrite length_map.
Qed.

Lemma init_wf a ow iw g :
  csr_wf a -> n_rows a = n_cols a ->
  init a ow (Some iw) = Ok g ->
  graph_wf g /\ n_nodes g = n_rows a.
Proof.
  intros Ha Hsq. unfold init.
  destruct (divide a (total a)) as [na|] eqn:D; [|discriminate].
  destruct (check_probs ow a) as [op|] eqn:Eo; [|discriminate].
  cbn [bind check_in_probs].
  destruct (check_probs iw (transpose a)) as [ip|] eqn:Ei; [|discriminate].
  cbn [bind]. intros H. injection H as <-.
  rewrite (divide_scale _ _ _ D).
  split; [|reflexivity].
  unfold graph_wf. cbn [norm_adjacency n_nodes out_probs in_probs].
  split; [now apply scale_wf|]. split; [reflexivity|]. split; [now symmetry|].
  split; [exact (check_probs_length _ _ _ Eo)|].
  intros p Hp. injection Hp as <-.
  rewrite (check_probs_length _ _ _ Ei). rewrite n_rows_transpose. now symmetry.
Qed.

Lemma aggregated_wf g r :
  graph_wf g -> csr_wf r -> n_rows r = n_nodes g ->
  graph_wf (aggregated g r r) /\ n_nodes (aggregated g r r) = n_cols r.
Proof.
  intros (Hwf & Hnr & Hnc & Ho & Hi) Hr Hn.
  split; [|reflexivity].
  unfold graph_wf, aggregated. cbn [norm_adjacency n_nodes out_probs in_probs].
  split; [|split; [reflexivity | split; [reflexivity | split]]].
  - apply dot_wf.
    + apply wf_cols_ok, transpose_wf.
    + apply wf_cols_ok, dot_wf; [now apply wf_cols_ok | now apply wf_cols_ok | congruence].
    + rewrite n_cols_transpose, n_rows_product. congruence.
  - now rewrite product_vec_length, n_rows_transpose.
  - intros p Hp. destruct (in_probs g); [|discriminate]. injection Hp as <-.
    now rewrite product_vec_length, n_rows_transpose.
Qed.

(** *** The running membership assigns every node to one cluster *)

Lemma identity_assignment n : assignment n (identity n) /\ n_cols (identity n) = n.
Proof.
  split; [|reflexivity]. split; [reflexivity|].
  intros i Hi. exists i. split; [exact Hi|].
  unfold identity. rewrite row_of_rows by now rewrite length_map, length_seq.
  rewrite nth_map_in with (d' := 0%nat) by now rewrite length_seq.
  now rewrite seq_nth.
Qed.

Lemma product_assignment n m r :
  assignment n m -> assignment (n_cols m) r ->
  assignment n (product m r) /\ n_cols (product m r) = n_cols r.
Proof.
  intros [Hmn Hm] [Hrn Hr]. split; [|reflexivity].
  split; [now rewrite n_rows_product|].
  intros i Hi. destruct (Hm i Hi) as [c [Hc Ec]].
  destruct (Hr c Hc) as [d [Hd Ed]].
  exists d. split; [exact Hd|].
  rewrite row_dot by lia. unfold dot_row. rewrite Ec. cbn [flat_map fst snd].
  rewrite Ed. cbn [map app sum_duplicates fold_right insert_entry fst snd].
  now rewrite Qcmult_1_l.
Qed.

Lemma assignment_indices n m :
  csr_wf m -> assignment n m -> length (indices m) = n.
Proof.
  intros [E _] [Hn Hm].
  assert (Ei : indices m = map fst (concat (rows m))) by (rewrite E at 1; reflexivity).
  rewrite Ei, length_map, length_concat.
  assert (L : map (@length _) (rows m) = repeat 1%nat n).
  { unfold rows. rewrite Hn, map_map. clear Ei E.
    assert (G : forall k, (forall i, (i < k)%nat -> length (row m i) = 1%nat) ->
                 map (fun x => length (row m x)) (seq 0 k) = repeat 1%nat k).
    { induction k as [|k IH]; intros H; [reflexivity|].
      rewrite seq_S, map_app, IH by (intros; apply H; lia).
      simpl. rewrite (H k) by lia.
      clear. induction k; simpl; [reflexivity | now rewrite IHk]. }
    apply G. intros i Hi. destruct (Hm i Hi) as [c [_ ->]]. reflexivity. }
  rewrite L. clear. induction n; simpl; [reflexivity | now rewrite IHn].
Qed.

(** *** The optimizer on one level *)




(** *** The number of clusters *)

Lemma nth_remove_position {A} (l : list A) i k d :
  (k < length l)%nat -> k <> i ->
  In (nth k l d) (firstn i l ++ skipn (Datatypes.S i) l).
Proof.
  intros Hk Hne. apply in_or_app.
  destruct (Nat.lt_ge_cases k i) as [Hlt|Hge].
  - left. rewrite <- (firstn_skipn i l) at 1.
    rewrite app_nth1 by (rewrite length_firstn; lia).
    apply nth_In. rewrite length_firstn. lia.
  - right. replace k with (Datatypes.S i + (k - Datatypes.S i))%nat by lia.
    rewrite <- nth_skipn. apply nth_In. rewrite length_skipn. lia.
Qed.

Lemma unique_length_le l : (length (unique l) <= length l)%nat.
Proof.
  apply NoDup_incl_length; [apply sorted_nodup, unique_sorted|].
  intros x Hx. now apply unique_in.
Qed.

Lemma unique_length_lt n l :
  length l = n -> has_duplicate n l -> (length (unique l) < n)%nat.
Proof.
  intros Hl (i & j & Hi & Hj & Hij & E).
  assert (Hincl : incl (unique l) (firstn i l ++ skipn (Datatypes.S i) l)).
  { intros x Hx. apply (proj1 (unique_in x l)) in Hx.
    destruct (In_nth _ _ 0%nat Hx) as [k [Hk <-]].
    destruct (Nat.eq_dec k i) as [Hki|Hne].
    - rewrite Hki, E. apply nth_remove_position; lia.
    - apply nth_remove_position; lia. }
  pose proof (NoDup_incl_length (sorted_nodup _ (unique_sorted l)) Hincl) as H.
  rewrite length_app, length_firstn, length_skipn in H. lia.
Qed.

Lemma unique_inverse_bound l :
  Forall (fun c => (c < length (unique l))%nat) (unique_inverse l).
Proof.
  unfold unique_inverse. rewrite Forall_map, Forall_forall. intros x Hx.
  apply index_of_lt. now apply unique_in.
Qed.

Lemma list_max_bound l k :
  l <> [] -> Forall (fun c => (c < k)%nat) l -> (Datatypes.S (list_max l) <= k)%nat.
Proof.
  intros Hne H. apply list_max_lt in H; [lia | exact Hne].
Qed.



(** *** One turn of the aggregation loop *)

(** The invariant of the loop over [n0] original nodes. *)
Definition level_ok (n0 : nat) (s : level_state) : Prop :=
  graph_wf (graph s) /\
  csr_wf (membership s) /\
  assignment n0 (membership s) /\
  n_cols (membership s) = n_nodes (graph s).


(** The state at the end of a turn. *)
Definition ending (t : turn) : level_state :=
  match t with
  | Again s => s
  | Leave s => s
  end.

Definition leaves (t : turn) : Prop :=
  match t with
  | Again _ => False
  | Leave _ => True
  end.


(** When a turn ends the loop: the score of the optimizer is at most the
    aggregation tolerance, or the aggregated graph has one node, or the
    number of turns made is the cap. *)
Lemma level_leaves rt fuel agg cap s t :
  level rt fuel agg cap s = Some (Ok t) ->
  iteration_count (ending t) = (iteration_count s + 1)%nat /\
  exists score,
    score_ (optimizer (ending t)) = Some score /\
    (leaves t <-> score <= agg \/ n_nodes (graph (ending t)) = 1%nat
                  \/ Z.of_nat (iteration_count (ending t)) = cap).
Proof.
  unfold level.
  destruct (GreedyModularity_fit rt fuel (optimizer s) (graph s)) as [[o|e]|];
    try discriminate.
  destruct (score_ o) as [score|] eqn:Es; [|discriminate].
  destruct (Optimizer.labels_ o) as [labels|]; [|discriminate].
  destruct (Qcleb score agg) eqn:E.
  - intros H. injection H as <-. cbn [ending iteration_count optimizer graph leaves].
    split; [reflexivity|]. exists score. split; [exact Es|].
    apply Qcleb_le in E. tauto.
  - apply Qcleb_gt in E.
    assert (Hnot : ~ score <= agg) by (intros H; exact (Qcle_not_lt _ _ H E)).
    destruct (membership_matrix labels) as [r|]; cbn [bind]; [|discriminate].
    destruct (dot (membership s) r) as [m|]; cbn [bind]; [|discriminate].
    destruct (aggregate (Matrix r) None (graph s)) as [g' [[]|]]; [|discriminate].
    destruct (Nat.eqb_spec (n_nodes g') 1) as [E1|E1].
    + intros H. injection H as <-. cbn [ending iteration_count optimizer graph leaves].
      split; [reflexivity|]. exists score. split; [exact Es|]. tauto.
    + destruct (Z.eqb_spec (Z.of_nat (iteration_count s + 1)) cap) as [Ec|Ec].
      * intros H. injection H as <-. cbn [ending iteration_count optimizer graph leaves].
        split; [reflexivity|]. exists score. split; [exact Es|]. tauto.
      * intros H. injection H as <-. cbn [ending iteration_count optimizer graph leaves].
        split; [reflexivity|]. exists score. split; [exact Es|]. tauto.
Qed.




(** *** What the loop preserves, whether it stops or not *)

Lemma fit_result rt fuel self g o :
  graph_wf g ->
  GreedyModularity_fit rt fuel self g = Some (Ok o) ->
  exists lab score,
    o = {| resolution := resolution self; tol := tol self; engine := engine self;
           score_ := Some score; Optimizer.labels_ := Some (unique_inverse lab) |} /\
    length lab = n_nodes g.
Proof.
  intros Hg. pose proof (proxy_ok g Hg) as Hp.
  set (adjacency := of_rows (shape (norm_adjacency g)) (proxy_rows (norm_adjacency g)))
    in Hp.
  unfold GreedyModularity_fit. rewrite Hp, engine_sweeps_visit.
  destruct (engine_visit rt self g adjacency) as [visit|] eqn:Hv;
    cbn [option_map]; [|discriminate].
  destruct (sweeps _ _ _ _ _ _) as [[lab score]|] eqn:Hs; [|discriminate].
  intros H. injection H as <-. exists lab, score. split; [reflexivity|].
  destruct (proxy_spec g adjacency Hg Hp) as (Hwf & Hr & Hc & _).
  pose proof (proxy_symmetric g adjacency Hg Hp) as Hsym.
  pose proof (in_node_probs_length g Hg) as Hin.
  assert (Hout : length (out_probs g) = n_nodes g)
    by now destruct Hg as (_ & _ & _ & Ho & _).
  assert (Hgreedy : forall x st,
     state_ok (out_probs g) (in_node_probs_of g) (n_nodes g) st ->
     (x < n_nodes g)%nat ->
     exists S, visit x st
               = greedy_visit adjacency (resolution self) (out_probs g)
                   (in_node_probs_of g) S x st).
  { intros x st Hst Hx. eexists.
    exact (engine_visit_greedy rt self g adjacency visit Hg Hp Hv x st Hst Hx). }
  exact (proj1 (sweeps_result adjacency (resolution self) (out_probs g)
                  (in_node_probs_of g) (n_nodes g) Hwf Hr Hc Hsym Hout Hin
                  visit Hgreedy (tol self) _ (start g) 0 lab score
                  (start_ok g Hg) Hs)).
Qed.

Lemma level_preserves rt fuel agg cap n0 s t :
  level_ok n0 s ->
  level rt fuel agg cap s = Some (Ok t) ->
  level_ok n0 (ending t).
Proof.
  intros (Hg & Hmw & Hma & Hmc). unfold level.
  destruct (GreedyModularity_fit rt fuel (optimizer s) (graph s)) as [[o|e]|] eqn:Hfit;
    try discriminate.
  destruct (fit_result rt fuel _ _ o Hg Hfit) as (lab & score & -> & Hlen).
  cbn [score_ Optimizer.labels_].
  destruct (Qcleb score agg).
  - intros H. injection H as <-. exact (conj Hg (conj Hmw (conj Hma Hmc))).
  - set (labels := unique_inverse lab).
    assert (Hll : length labels = n_nodes (graph s))
      by (unfold labels; now rewrite unique_inverse_length).
    destruct labels as [|l0 tl] eqn:El; [discriminate|]. rewrite <- El in *.
    assert (Hne : labels <> []) by (rewrite El; discriminate).
    destruct (membership_matrix_assignment labels Hne)
      as (r & Er & Ar & Hrc & Hrw & _).
    rewrite Er. cbn [bind].
    assert (Hrn : n_rows r = n_nodes (graph s)) by (rewrite (proj1 Ar); exact Hll).
    rewrite dot_ok by congruence. cbn [bind].
    rewrite (aggregate_rows (graph s) (Matrix r) r eq_refl Hg Hrn).
    destruct (aggregated_wf (graph s) r Hg Hrw Hrn) as [Hg' Hn'].
    assert (Hok : forall o k,
      level_ok n0 {| optimizer := o; graph := aggregated (graph s) r r;
                     membership := product (membership s) r; iteration_count := k |}).
    { intros o k. unfold level_ok. cbn [graph membership].
      split; [exact Hg'|]. split; [|split].
      - apply dot_wf; [now apply wf_cols_ok | now apply wf_cols_ok | congruence].
      - apply product_assignment; [exact Hma|]. rewrite Hmc, <- Hll. exact Ar.
      - rewrite n_cols_product. now rewrite Hn'. }
    destruct (Nat.eqb _ 1); [|destruct (Z.eqb _ cap)];
      intros H; injection H as <-; apply Hok.
Qed.

Lemma levels_preserve rt fuel agg cap n0 : forall turns s s',
  level_ok n0 s ->
  levels rt turns fuel agg cap s = Some (Ok s') ->
  level_ok n0 s'.
Proof.
  induction turns as [|turns IH]; intros s s' Hs H; [discriminate|].
  cbn [levels] in H.
  destruct (level rt fuel agg cap s) as [[[s1|s1]|e]|] eqn:El; try discriminate.
  - apply (IH s1 s'); [|exact H].
    exact (level_preserves rt fuel agg cap n0 s _ Hs El).
  - injection H as <-. exact (level_preserves rt fuel agg cap n0 s _ Hs El).
Qed.

(** *** The graph the loop starts from *)

Lemma directed2undirected_wf a :
  csr_wf a -> n_rows a = n_cols a ->
  exists u, directed2undirected a = Ok u /\ csr_wf u /\
            n_rows u = n_rows a /\ n_cols u = n_cols a.
Proof.
  intros Ha Hsq. unfold directed2undirected.
  rewrite add_ok by (rewrite ?n_rows_transpose, ?n_cols_transpose; congruence).
  eexists. split; [reflexivity|].
  rewrite shape_pair. split; [|split; reflexivity].
  apply of_rows_wf; [now rewrite length_map, length_seq|].
  rewrite Forall_forall. intros r Hr. apply in_map_iff in Hr.
  destruct Hr as [i [<- Hi]]. apply in_seq in Hi.
  apply (sum_duplicates_cols (fun k => (k < n_cols a)%nat)).
  apply Forall_app. split.
  - rewrite Forall_forall. intros e He. apply (wf_row_cols a i); auto. lia.
  - rewrite row_transpose by lia. rewrite <- Hsq. apply column_rows_bound.
Qed.

Lemma shifted_rows_wf b n2 (tail : list entries) :
  csr_wf b -> n_cols b = n2 -> length tail = n2 ->
  Forall (fun r => Forall (fun e => (fst e < n_rows b + n2)%nat) r) tail ->
  csr_wf (of_rows ((n_rows b + n2)%nat, (n_rows b + n2)%nat)
            (map (fun i => map (fun e => ((n_rows b + fst e)%nat, snd e)) (row b i))
                 (seq 0 (n_rows b)) ++ tail)).
Proof.
  intros Hb Hc Ht Hf. apply of_rows_wf.
  - rewrite length_app, length_map, length_seq. f_equal. exact Ht.
  - apply Forall_app. split; [|exact Hf].
    rewrite Forall_map, Forall_forall. intros i Hi. apply in_seq in Hi.
    rewrite Forall_map, Forall_forall. intros e He. cbn [fst].
    assert (Hib : (i < n_rows b)%nat) by lia.
    pose proof (wf_row_cols b i e Hb Hib He). lia.
Qed.

Lemma bipartite2directed_wf b :
  csr_wf b ->
  csr_wf (bipartite2directed b) /\
  n_rows (bipartite2directed b) = (n_rows b + n_cols b)%nat /\
  n_cols (bipartite2directed b) = (n_rows b + n_cols b)%nat.
Proof.
  intros Hb. split; [|split; reflexivity].
  unfold bipartite2directed. cbv zeta.
  apply shifted_rows_wf; auto.
  - apply repeat_length.
  - rewrite Forall_forall. intros r Hr. apply repeat_spec in Hr. subst r. constructor.
Qed.

Lemma bipartite2undirected_wf b :
  csr_wf b ->
  csr_wf (bipartite2undirected b) /\
  n_rows (bipartite2undirected b) = (n_rows b + n_cols b)%nat /\
  n_cols (bipartite2undirected b) = (n_rows b + n_cols b)%nat.
Proof.
  intros Hb. split; [|split; reflexivity].
  unfold bipartite2undirected. cbv zeta.
  apply shifted_rows_wf; auto.
  - now rewrite length_map, length_seq.
  - rewrite Forall_map, Forall_forall. intros j _.
    pose proof (column_rows_bound b j) as H. rewrite Forall_forall in *.
    intros e He. specialize (H e He). lia.
Qed.

Lemma reorder_wf nodes a :
  csr_wf (reorder nodes a) /\
  n_rows (reorder nodes a) = length nodes /\
  n_cols (reorder nodes a) = length nodes.
Proof.
  split; [|split; reflexivity].
  unfold reorder. apply of_rows_wf; [now rewrite length_map|].
  rewrite Forall_map, Forall_forall. intros k _.
  apply (sum_duplicates_cols (fun j => (j < length nodes)%nat)).
  rewrite Forall_forall. intros e He. apply in_flat_map in He.
  destruct He as [x [_ He]]. apply in_map_iff in He. destruct He as [j [<- Hj]].
  simpl. unfold positions in Hj. apply filter_In in Hj. destruct Hj as [Hj _].
  apply in_seq in Hj. lia.
Qed.

(** The number of nodes of the graph that is clustered: rows and columns
    together for a biadjacency. *)
Definition bipartite (adjacency : csr_matrix) (force_biadjacency : bool) : bool :=
  (negb (Nat.eqb (n_rows adjacency) (n_cols adjacency)) || force_biadjacency)%bool.

Definition node_count (adjacency : csr_matrix) (force_biadjacency : bool) : nat :=
  if bipartite adjacency force_biadjacency
  then (n_rows adjacency + n_cols adjacency)%nat
  else n_rows adjacency.

Lemma preprocess_wf adjacency w sw fu fb a ow iw :
  csr_wf adjacency ->
  preprocess adjacency w sw fu fb = Ok (a, ow, iw) ->
  csr_wf a /\ n_rows a = n_cols a /\ n_rows a = node_count adjacency fb.
Proof.
  intros Ha. unfold preprocess, node_count, bipartite, check_format. cbv zeta.
  destruct (negb (Nat.eqb (n_rows adjacency) (n_cols adjacency)) || fb)%bool eqn:Eb.
  - destruct fu.
    + destruct (check_probs w (bipartite2undirected adjacency)); cbn [bind]; [|discriminate].
      intros H. injection H as <- _ _.
      destruct (bipartite2undirected_wf adjacency Ha) as (H1 & H2 & H3).
      split; [exact H1|]. split; congruence.
    + destruct (check_probs w adjacency); cbn [bind]; [|discriminate].
      destruct (check_probs _ (transpose adjacency)); cbn [bind]; [|discriminate].
      intros H. injection H as <- _ _.
      destruct (bipartite2directed_wf adjacency Ha) as (H1 & H2 & H3).
      split; [exact H1|]. split; congruence.
  - apply orb_false_iff in Eb. destruct Eb as [Eb _].
    apply negb_false_iff, Nat.eqb_eq in Eb.
    destruct fu.
    + destruct (directed2undirected_wf adjacency Ha Eb) as (u & Eu & Hu & Hr & Hc).
      rewrite Eu. cbn [bind]. intros H. injection H as <- _ _.
      split; [exact Hu|]. split; congruence.
    + intros H. injection H as <- _ _. auto.
Qed.

Lemma prepare_wf self adjacency w sw fu fb permutation a nodes g :
  csr_wf adjacency ->
  prepare self adjacency w sw fu fb permutation = Ok (a, nodes, g) ->
  csr_wf a /\ graph_wf g /\ n_nodes g = n_rows a /\ length nodes = n_rows a /\
  n_rows a = (if shuffle_nodes self then length permutation
              else node_count adjacency fb) /\
  total a <> 0.
Proof.
  intros Ha. unfold prepare.
  destruct (preprocess adjacency w sw fu fb) as [[[a0 ow] iw]|] eqn:Ep;
    cbn [bind]; [|discriminate].
  destruct (preprocess_wf _ _ _ _ _ _ _ _ Ha Ep) as (Hw0 & Hsq0 & Hn0).
  set (nodes0 := if shuffle_nodes self then permutation else seq 0 (n_rows a0)).
  set (a1 := if shuffle_nodes self then reorder nodes0 a0 else a0).
  destruct (init a1 ow (Some iw)) as [g1|] eqn:Ei; cbn [bind]; [|discriminate].
  intros H. injection H as <- <- <-.
  assert (H1 : csr_wf a1 /\ n_rows a1 = n_cols a1 /\ length nodes0 = n_rows a1 /\
               n_rows a1 = (if shuffle_nodes self then length permutation
                            else node_count adjacency fb)).
  { unfold a1, nodes0. destruct (shuffle_nodes self).
    - destruct (reorder_wf permutation a0) as (R1 & R2 & R3).
      split; [exact R1|]. split; [congruence|]. split; [now rewrite R2 | exact R2].
    - split; [exact Hw0|]. split; [exact Hsq0|]. split; [apply length_seq | exact Hn0]. }
  destruct H1 as (Hw1 & Hsq1 & Hl1 & Hn1).
  destruct (init_wf a1 ow iw g1 Hw1 Hsq1 Ei) as [Hg Hn].
  split; [exact Hw1|]. split; [exact Hg|]. split; [exact Hn|].
  split; [exact Hl1|]. split; [exact Hn1|].
  intros E0. unfold init, divide in Ei. rewrite E0 in Ei.
  destruct (Qc_eq_dec 0 0) as [_|N]; [discriminate Ei | now elim N].
Qed.



(** *** The whole of [Louvain.fit] *)

Lemma identity_wf n : csr_wf (identity n).
Proof.
  unfold identity. apply of_rows_wf; [now rewrite length_map, length_seq|].
  rewrite Forall_map, Forall_forall. intros i Hi. apply in_seq in Hi.
  constructor; [simpl; lia | constructor].
Qed.

Lemma start_level_ok self a g :
  graph_wf g -> n_nodes g = n_rows a ->
  level_ok (n_rows a)
    {| optimizer := algorithm self; graph := g; membership := identity (n_rows a);
       iteration_count := 0 |}.
Proof.
  intros Hg Hn. unfold level_ok. cbn [graph membership].
  split; [exact Hg|]. split; [apply identity_wf|].
  split; [apply identity_assignment|]. now rewrite Hn.
Qed.





Lemma triangle_wf : csr_wf triangle.
Proof.
  unfold triangle, adjacency_of. apply of_rows_wf; [reflexivity|].
  repeat constructor.
Qed.






(** *** The label vectors *)


Lemma reverse_of_length nodes : length (reverse_of nodes) = length nodes.
Proof.
  unfold reverse_of.
  assert (G : forall (l : list nat) r,
             length (fold_left (fun r i => upd r (nth i nodes 0%nat) i) l r) = length r).
  { induction l as [|i l IH]; intros r; [reflexivity|].
    cbn [fold_left]. now rewrite IH, upd_length. }
  now rewrite G, repeat_length.
Qed.


(** A biadjacency without columns stores nothing, so that the construction
    of the graph divides by zero. *)
Lemma empty_rows_data sh (rs : list entries) :
  Forall (fun r => r = []) rs -> data (of_rows sh rs) = [].
Proof.
  intros H. unfold of_rows. cbn [data].
  assert (E : concat rs = []).
  { induction H as [|r t Hr _ IH]; [reflexivity|]. simpl. now rewrite Hr, IH. }
  now rewrite E.
Qed.

Lemma row_data_nil m k : data m = [] -> row m k = [].
Proof.
  intros E. unfold row, slice. rewrite E, skipn_nil, firstn_nil. apply combine_nil.
Qed.

Lemma no_columns_row m i :
  csr_wf m -> n_cols m = 0%nat -> (i < n_rows m)%nat -> row m i = [].
Proof.
  intros Hm Hc Hi. destruct (row m i) as [|e t] eqn:E; [reflexivity|].
  assert (H : (fst e < n_cols m)%nat).
  { apply (wf_row_cols m i e Hm Hi). rewrite E. now left. }
  lia.
Qed.

Lemma shifted_rows_empty b :
  csr_wf b -> n_cols b = 0%nat ->
  Forall (fun r : entries => r = [])
    (map (fun i => map (fun e => ((n_rows b + fst e)%nat, snd e)) (row b i))
         (seq 0 (n_rows b))).
Proof.
  intros Hb Hc. rewrite Forall_map, Forall_forall. intros i Hi. apply in_seq in Hi.
  rewrite (no_columns_row b i Hb Hc) by lia. reflexivity.
Qed.

Lemma preprocess_no_columns adjacency w sw fu fb a ow iw :
  csr_wf adjacency -> bipartite adjacency fb = true -> n_cols adjacency = 0%nat ->
  preprocess adjacency w sw fu fb = Ok (a, ow, iw) ->
  data a = [].
Proof.
  intros Ha Hb Hc. unfold preprocess, check_format. cbv zeta.
  unfold bipartite in Hb. rewrite Hb.
  destruct fu.
  - destruct (check_probs w (bipartite2undirected adjacency)); cbn [bind]; [|discriminate].
    intros H. injection H as <- _ _.
    unfold bipartite2undirected. cbv zeta. rewrite Hc. simpl app at 1.
    apply empty_rows_data. rewrite app_nil_r. now apply shifted_rows_empty.
  - destruct (check_probs w adjacency); cbn [bind]; [|discriminate].
    destruct (check_probs _ (transpose adjacency)); cbn [bind]; [|discriminate].
    intros H. injection H as <- _ _.
    unfold bipartite2directed. cbv zeta. rewrite Hc.
    apply empty_rows_data. cbn [repeat]. rewrite app_nil_r. now apply shifted_rows_empty.
Qed.

Lemma reorder_empty nodes a : data a = [] -> data (reorder nodes a) = [].
Proof.
  intros E. unfold reorder. apply empty_rows_data.
  rewrite Forall_map, Forall_forall. intros k _.
  now rewrite (row_data_nil a k E).
Qed.

Lemma prepare_columns self adjacency w sw fu fb permutation p :
  csr_wf adjacency -> bipartite adjacency fb = true ->
  prepare self adjacency w sw fu fb permutation = Ok p ->
  (0 < n_cols adjacency)%nat.
Proof.
  intros Ha Hb Ep. destruct p as [[a nodes] g].
  destruct (prepare_wf _ _ _ _ _ _ _ _ _ _ Ha Ep) as (_ & _ & _ & _ & _ & Ht).
  destruct (n_cols adjacency) as [|k] eqn:Hc; [|lia].
  exfalso. apply Ht. unfold prepare in Ep.
  destruct (preprocess adjacency w sw fu fb) as [[[a0 ow] iw]|] eqn:E0;
    cbn [bind] in Ep; [|discriminate].
  pose proof (preprocess_no_columns _ _ _ _ _ _ _ _ Ha Hb Hc E0) as Hd.
  destruct (init _ ow (Some iw)); cbn [bind] in Ep; [|discriminate].
  injection Ep as <- _ _. unfold total.
  destruct (shuffle_nodes self); [now rewrite reorder_empty | now rewrite Hd].
Qed.




End Louvain.

(** ** Further properties of the three classes

    What the code does beyond the properties above: the arrays that
    [membership_matrix] builds, the sums that [aggregate] computes, what
    the score of the optimizer measures, and the attributes that
    [Louvain.fit] sets. *)

Module Properties.

Import Num Sparse Graph Optimizer Louvain.
Local Open Scope Qc_scope.

(** *** [membership_matrix] *)

Lemma singletons_indices (labels : list nat) :
  map fst (concat (map (fun c => [(c, 1)]) labels)) = labels.
Proof. induction labels as [|c t IH]; simpl; [reflexivity | now rewrite IH]. Qed.

Lemma singletons_data (labels : list nat) :
  map snd (concat (map (fun c : nat => [(c, 1)]) labels)) = repeat 1 (length labels).
Proof. induction labels as [|c t IH]; simpl; [reflexivity | now rewrite IH]. Qed.

Lemma singletons_pointers (labels : list nat) : forall start,
  pointers start (map (fun c : nat => [(c, 1)]) labels)
  = seq start (Datatypes.S (length labels)).
Proof.
  induction labels as [|c t IH]; intros start; [reflexivity|].
  cbn [map pointers length]. rewrite IH. cbn [length].
  replace (start + 1)%nat with (Datatypes.S start) by lia. reflexivity.
Qed.

(** X1: The CSR arrays of a membership matrix: one stored 1 per node, the
    column indices being the labels themselves, in the order of the nodes;
    the number of columns is the largest label plus one.  An empty label
    vector is refused. *)
Theorem membership_matrix_stores_labels labels :
  match membership_matrix labels with
  | Ok m =>
      labels <> [] /\
      shape m = (length labels, Datatypes.S (list_max labels)) /\
      indptr m = seq 0 (Datatypes.S (length labels)) /\
      indices m = labels /\
      data m = repeat 1 (length labels)
  | Raise e => labels = [] /\ e = ValueError
  end.
Proof.
  destruct labels as [|c t]; [split; reflexivity|].
  change (membership_matrix (c :: t))
    with (Ok (of_rows (length (c :: t), Datatypes.S (list_max (c :: t)))
                      (map (fun c : nat => [(c, 1)]) (c :: t)))).
  cbv iota. unfold of_rows. cbn [shape indptr indices data].
  split; [discriminate|]. split; [reflexivity|].
  split; [apply singletons_pointers|]. split; [apply singletons_indices|].
  apply singletons_data.
Qed.

(** *** [AggregateGraph.aggregate] *)

(** X2: Aggregating by rows keeps a graph well formed: the adjacency stays
    square, of side the number of columns of the membership matrix, which
    becomes the node count, and the mass vectors keep that length; an unset
    [in_probs] stays unset. *)
Theorem aggregate_keeps_graph_well_formed g rm r :
  graph_wf g -> as_matrix rm = Ok r -> csr_wf r -> n_rows r = n_nodes g ->
  exists g',
    aggregate rm None g = (g', Ok tt) /\
    graph_wf g' /\
    n_nodes g' = n_cols r /\
    (in_probs g' = None <-> in_probs g = None).
Proof.
  intros Hg Er Hr Hn. exists (aggregated g r r).
  split; [exact (aggregate_rows g rm r Er Hg Hn)|].
  destruct (aggregated_wf g r Hg Hr Hn) as [Hw Hk].
  split; [exact Hw|]. split; [exact Hk|].
  unfold aggregated. cbn [in_probs]. destruct (in_probs g); simpl; split; congruence.
Qed.

Lemma aggregate_keeps_graph_well_formed_witness :
  exists g',
    aggregate (Labels [0; 0; 1]%nat) None triangle_graph = (g', Ok tt) /\
    graph_wf g' /\
    n_nodes g' = 2%nat /\
    (in_probs g' = None <-> in_probs triangle_graph = None).
Proof.
  refine (aggregate_keeps_graph_well_formed triangle_graph (Labels [0; 0; 1]%nat)
            (of_rows (3, 2)%nat [[(0%nat, 1)]; [(0%nat, 1)]; [(1%nat, 1)]])
            triangle_graph_wf eq_refl _ eq_refl).
  apply of_rows_wf; [reflexivity|]. repeat constructor.
Defined.

Lemma row_at_single (c : nat) (v : Qc) d :
  row_at [(c, v)] d = if Nat.eqb c d then v else 0.
Proof. simpl. destruct (Nat.eqb c d); ring. Qed.

Lemma nth_product_vec a v c :
  (c < n_rows a)%nat ->
  nth c (product_vec a v) 0 = wsum (fun j => nth j v 0) (row a c).
Proof.
  intros Hc. unfold product_vec.
  rewrite nth_map_in with (d' := 0%nat) by now rewrite length_seq.
  now rewrite seq_nth.
Qed.

(** The mass of cluster [c] after aggregation by a membership matrix. *)
Lemma nth_product_vec_transpose n r v c :
  n_rows r = n -> (c < n_cols r)%nat ->
  nth c (product_vec (transpose r) v) 0
  = sumn n (fun i => nth i v 0 * row_at (row r i) c).
Proof.
  intros Hn Hc. rewrite nth_product_vec by now rewrite n_rows_transpose.
  rewrite row_transpose by assumption. rewrite wsum_column. now rewrite Hn.
Qed.

Lemma row_at_product a b i d :
  (i < n_rows a)%nat -> csr_wf a ->
  row_at (row (product a b) i) d
  = sumn (n_cols a) (fun j => row_at (row a i) j * row_at (row b j) d).
Proof.
  intros Hi Ha. rewrite row_dot by assumption.
  rewrite row_at_wsum, wsum_dot_row.
  rewrite (wsum_columns (n_cols a)).
  - apply sumn_ext. intros j _. now rewrite <- row_at_wsum.
  - rewrite Forall_forall. intros e He. now apply (wf_row_cols a i).
Qed.

Lemma row_at_transpose_product r b c d :
  (c < n_cols r)%nat ->
  row_at (row (product (transpose r) b) c) d
  = sumn (n_rows r) (fun i => row_at (row r i) c * row_at (row b i) d).
Proof.
  intros Hc. rewrite row_dot by now rewrite n_rows_transpose.
  rewrite row_at_wsum, wsum_dot_row, row_transpose by assumption.
  rewrite wsum_column. apply sumn_ext. intros i _.
  rewrite <- row_at_wsum. ring.
Qed.

(** X3: What [aggregate] computes from a label vector: the weight between two
    clusters is the sum of the weights between their members, and the
    mass of a cluster is the sum of the masses of its members. *)
Theorem aggregate_sums_within_clusters g labels :
  graph_wf g -> length labels = n_nodes g -> labels <> [] ->
  let n := n_nodes g in
  let member c i := Nat.eqb (nth i labels 0%nat) c in
  exists g',
    aggregate (Labels labels) None g = (g', Ok tt) /\
    n_nodes g' = Datatypes.S (list_max labels) /\
    (forall c d, (c < n_nodes g')%nat -> (d < n_nodes g')%nat ->
       row_at (row (norm_adjacency g') c) d
       = sumn n (fun i => sumn n (fun j =>
           if (member c i && member d j)%bool
           then row_at (row (norm_adjacency g) i) j else 0))) /\
    (forall c, (c < n_nodes g')%nat ->
       nth c (out_probs g') 0
       = sumn n (fun i => if member c i then nth i (out_probs g) 0 else 0)) /\
    (forall p, in_probs g = Some p ->
       exists p', in_probs g' = Some p' /\
         forall c, (c < n_nodes g')%nat ->
           nth c p' 0 = sumn n (fun i => if member c i then nth i p 0 else 0)).
Proof.
  intros Hg Hlen Hne. cbv zeta.
  destruct (membership_matrix_assignment labels Hne) as (r & Er & Ar & Hk & Hrw & Hrow).
  assert (Hn : n_rows r = n_nodes g) by (rewrite (proj1 Ar); exact Hlen).
  assert (Hat : forall i c, (i < n_nodes g)%nat ->
            row_at (row r i) c = if Nat.eqb (nth i labels 0%nat) c then 1 else 0).
  { intros i c Hi. rewrite Hrow by (rewrite Hlen; exact Hi). apply row_at_single. }
  assert (Hvec : forall v c, (c < n_cols r)%nat ->
            nth c (product_vec (transpose r) v) 0
            = sumn (n_nodes g)
                (fun i => if Nat.eqb (nth i labels 0%nat) c then nth i v 0 else 0)).
  { intros v c Hc. rewrite (nth_product_vec_transpose (n_nodes g)) by assumption.
    apply sumn_ext. intros i Hi. rewrite Hat by assumption.
    destruct (Nat.eqb (nth i labels 0%nat) c); ring. }
  exists (aggregated g r r).
  split; [exact (aggregate_rows g (Labels labels) r Er Hg Hn)|].
  unfold aggregated. cbn [n_nodes norm_adjacency out_probs in_probs].
  split; [exact Hk|]. split; [|split].
  - intros c d Hc Hd. destruct Hg as (Hwf & Hnr & Hnc & _).
    rewrite row_at_transpose_product by assumption. rewrite Hn.
    apply sumn_ext. intros i Hi.
    rewrite row_at_product by (assumption || lia). rewrite Hnc.
    rewrite Hat by assumption.
    destruct (Nat.eqb (nth i labels 0%nat) c); cbn [andb].
    + rewrite Qcmult_1_l. apply sumn_ext. intros j Hj. rewrite Hat by assumption.
      destruct (Nat.eqb (nth j labels 0%nat) d); ring.
    + rewrite Qcmult_0_l. symmetry. apply sumn_zero.
  - intros c Hc. now apply Hvec.
  - intros p Ep. rewrite Ep. cbn [option_map]. eexists. split; [reflexivity|].
    intros c Hc. now apply Hvec.
Qed.

Lemma aggregate_sums_within_clusters_witness :
  exists g',
    aggregate (Labels [0; 0; 1]%nat) None triangle_graph = (g', Ok tt) /\
    n_nodes g' = 2%nat.
Proof.
  destruct (aggregate_sums_within_clusters triangle_graph [0; 0; 1]%nat
              triangle_graph_wf eq_refl ltac:(discriminate))
    as (g' & E & Hk & _).
  exists g'. split; [exact E | exact Hk].
Defined.

(** X4: A column membership on a graph whose [in_probs] is unset: the adjacency
    is replaced first, then the product with [None] raises, and the graph
    is left with the new adjacency beside the old masses and node count. *)
Theorem aggregate_half_updates_without_in_probs g rm cm r c :
  as_matrix rm = Ok r -> as_matrix cm = Ok c ->
  n_cols (norm_adjacency g) = n_rows c ->
  n_rows r = n_rows (norm_adjacency g) ->
  in_probs g = None ->
  aggregate rm (Some cm) g
  = ({| n_nodes := n_nodes g;
        norm_adjacency := product (transpose r) (product (norm_adjacency g) c);
        out_probs := out_probs g;
        in_probs := None |},
     Raise TypeError).
Proof.
  intros Er Ec Hc Hr Ep.
  unfold aggregate, seq_action, lift, read. rewrite Er, Ec.
  rewrite (dot_ok (norm_adjacency g) c) by assumption. cbn [bind].
  rewrite dot_ok by (rewrite n_cols_transpose, n_rows_product; assumption).
  cbn [set_norm_adjacency in_probs]. rewrite Ep. reflexivity.
Qed.

Definition triangle_graph_without_in_probs : AggregateGraph :=
  {| n_nodes := 3; norm_adjacency := norm_adjacency triangle_graph;
     out_probs := out_probs triangle_graph; in_probs := None |}.

Lemma aggregate_half_updates_without_in_probs_witness :
  snd (aggregate (Labels [0; 0; 1]%nat) (Some (Labels [0; 1; 1]%nat))
         triangle_graph_without_in_probs) = Raise TypeError /\
  norm_adjacency (fst (aggregate (Labels [0; 0; 1]%nat) (Some (Labels [0; 1; 1]%nat))
                         triangle_graph_without_in_probs))
  <> norm_adjacency triangle_graph_without_in_probs.
Proof.
  rewrite (aggregate_half_updates_without_in_probs triangle_graph_without_in_probs
             (Labels [0; 0; 1]%nat) (Labels [0; 1; 1]%nat) _ _
             eq_refl eq_refl eq_refl eq_refl eq_refl).
  split; [reflexivity|]. cbn [fst norm_adjacency].
  intros E. apply (f_equal shape) in E. vm_compute in E. discriminate E.
Defined.

(** *** [GreedyModularity.fit]: what the score measures *)

(** The quality of a labeling of a graph: over the ordered pairs of nodes
    that share a label, the normalized weight from the first to the second
    minus the resolution times the product of the out-mass of the first and
    the in-mass of the second. *)
Definition quality (g : AggregateGraph) (res : Qc) (lab : list nat) : Qc :=
  pair_sum (n_nodes g)
    (fun i j => row_at (row (norm_adjacency g) i) j
                - res * (nth i (out_probs g) 0 * nth j (in_node_probs_of g) 0))
    lab.

Lemma pair_sum_ext n K K' lab lab' :
  (forall i j, (i < n)%nat -> (j < n)%nat ->
     Nat.eqb (nth i lab 0%nat) (nth j lab 0%nat)
     = Nat.eqb (nth i lab' 0%nat) (nth j lab' 0%nat)) ->
  (forall i j, (i < n)%nat -> (j < n)%nat -> K i j = K' i j) ->
  pair_sum n K lab = pair_sum n K' lab'.
Proof.
  intros Hl HK. unfold pair_sum. apply sumn_ext. intros i Hi.
  apply sumn_ext. intros j Hj. now rewrite Hl, HK.
Qed.

Lemma pair_sum_flip n K lab :
  pair_sum n (fun i j => K j i) lab = pair_sum n K lab.
Proof.
  unfold pair_sum. rewrite sumn_swap. apply sumn_ext. intros i _.
  apply sumn_ext. intros j _. now rewrite Nat.eqb_sym.
Qed.

Lemma pair_sum_plus n K K' lab :
  pair_sum n (fun i j => K i j + K' i j) lab = pair_sum n K lab + pair_sum n K' lab.
Proof.
  unfold pair_sum. rewrite <- sumn_plus. apply sumn_ext. intros i _.
  rewrite <- sumn_plus. apply sumn_ext. intros j _.
  destruct (Nat.eqb _ _); ring.
Qed.

Lemma pair_sum_scale n c K lab :
  pair_sum n (fun i j => c * K i j) lab = c * pair_sum n K lab.
Proof.
  unfold pair_sum. rewrite <- sumn_scale. apply sumn_ext. intros i _.
  rewrite <- sumn_scale. apply sumn_ext. intros j _.
  destruct (Nat.eqb _ _); ring.
Qed.

(** The objective of the sweeps, computed over the proxy adjacency, is the
    quality of the labeling over the graph itself. *)
Lemma objective_quality g adjacency res lab :
  graph_wf g -> proxy g = Ok adjacency ->
  objective adjacency res (out_probs g) (in_node_probs_of g) (n_nodes g) lab
  = quality g res lab.
Proof.
  intros Hg Hp. destruct (proxy_spec g adjacency Hg Hp) as (_ & _ & _ & He).
  pose (a := fun i j => row_at (row (norm_adjacency g) i) j).
  pose (m := fun i j => nth i (out_probs g) 0 * nth j (in_node_probs_of g) 0).
  assert (E1 : pair_sum (n_nodes g) (fun i j => row_at (row adjacency i) j) lab
               = pair_sum (n_nodes g) a lab).
  { rewrite (pair_sum_ext (n_nodes g) (fun i j => row_at (row adjacency i) j)
               (fun i j => half * (a i j + a j i)) lab lab)
      by (auto; intros i j Hi Hj; now apply He).
    rewrite pair_sum_scale, (pair_sum_plus _ a (fun i j => a j i)), (pair_sum_flip _ a).
    apply half_double. }
  assert (E2 : quality g res lab
               = pair_sum (n_nodes g) a lab - res * pair_sum (n_nodes g) m lab).
  { unfold quality.
    rewrite (pair_sum_ext (n_nodes g) _ (fun i j => a i j + (- res) * m i j) lab lab)
      by (auto; intros; unfold a, m; ring).
    rewrite (pair_sum_plus _ a (fun i j => (- res) * m i j)), pair_sum_scale. ring. }
  rewrite E2. unfold objective. rewrite E1. reflexivity.
Qed.

Lemma index_of_inj x y l : In x l -> In y l -> index_of x l = index_of y l -> x = y.
Proof.
  intros Hx Hy E. rewrite <- (nth_index_of x l 0%nat Hx), <- (nth_index_of y l 0%nat Hy).
  now rewrite E.
Qed.

(** The renumbering keeps the partition. *)
Lemma unique_inverse_same_cluster l i j :
  (i < length l)%nat -> (j < length l)%nat ->
  Nat.eqb (nth i (unique_inverse l) 0%nat) (nth j (unique_inverse l) 0%nat)
  = Nat.eqb (nth i l 0%nat) (nth j l 0%nat).
Proof.
  intros Hi Hj. rewrite !unique_inverse_nth by assumption.
  destruct (Nat.eqb_spec (nth i l 0%nat) (nth j l 0%nat)) as [E|Hne].
  - rewrite E. apply Nat.eqb_refl.
  - apply Nat.eqb_neq. intros E. apply Hne.
    apply (index_of_inj _ _ (unique l)); [| |exact E];
      apply unique_in; now apply nth_In.
Qed.

Lemma quality_unique_inverse g res lab :
  length lab = n_nodes g ->
  quality g res (unique_inverse lab) = quality g res lab.
Proof.
  intros Hl. unfold quality. apply pair_sum_ext; [|reflexivity].
  intros i j Hi Hj. apply unique_inverse_same_cluster; now rewrite Hl.
Qed.

Section Increase.

Variable adjacency : csr_matrix.
Variable resolution : Qc.
Variable out_node_probs : list Qc.
Variable in_node_probs : list Qc.
Variable n : nat.

Hypothesis adjacency_wf : csr_wf adjacency.
Hypothesis adjacency_rows : n_rows adjacency = n.
Hypothesis adjacency_cols : n_cols adjacency = n.
Hypothesis adjacency_sym : forall i j, (i < n)%nat -> (j < n)%nat ->
  row_at (row adjacency i) j = row_at (row adjacency j) i.
Hypothesis out_length : length out_node_probs = n.
Hypothesis in_length : length in_node_probs = n.

Variable visit : nat -> sweep_state -> sweep_state.
Hypothesis visit_greedy : forall x st,
  state_ok out_node_probs in_node_probs n st -> (x < n)%nat ->
  exists S, visit x st
            = greedy_visit adjacency resolution out_node_probs in_node_probs S x st.

(** The score adds up exactly what the objective has gained, and a score
    that has not grown means that no node has moved. *)
Lemma sweeps_increase tol fuel : forall st total lab score,
  state_ok out_node_probs in_node_probs n st ->
  sweeps tol n visit fuel st total = Some (lab, score) ->
  objective adjacency resolution out_node_probs in_node_probs n lab + total
  = objective adjacency resolution out_node_probs in_node_probs n (labels st) + score /\
  (score = total -> lab = labels st).
Proof.
  induction fuel as [|fuel IH]; intros st total lab score Hst H; [discriminate|].
  cbn [sweeps] in H.
  destruct (sweep_steps adjacency resolution out_node_probs in_node_probs n
              adjacency_wf adjacency_rows adjacency_cols adjacency_sym
              out_length in_length visit visit_greedy st Hst)
    as (Hok & Hobj & Hpos & Hcase).
  cbn zeta in Hok, Hobj, Hpos, Hcase.
  set (st' := sweep n visit st) in H, Hok, Hobj, Hpos, Hcase.
  assert (Hzero : pass_increase st' = 0 -> labels st' = labels st).
  { intros E0. destruct Hcase as [[El _] | [Hlt _]]; [exact El|].
    rewrite E0 in Hlt. elim (Qclt_irrefl' _ Hlt). }
  destruct (Qcltb tol (pass_increase st')) eqn:E.
  - destruct (IH st' _ lab score Hok H) as [Hsum Hsame].
    destruct (sweeps_result adjacency resolution out_node_probs in_node_probs n
                adjacency_wf adjacency_rows adjacency_cols adjacency_sym
                out_length in_length visit visit_greedy tol fuel st' _ lab score Hok H)
      as (_ & _ & Hle & _).
    split.
    + rewrite Hobj in Hsum.
      assert (E2 : objective adjacency resolution out_node_probs in_node_probs n lab + total
                   = objective adjacency resolution out_node_probs in_node_probs n lab
                     + (total + pass_increase st') - pass_increase st') by ring.
      rewrite E2, Hsum. ring.
    + intros Es. rewrite Es in Hle.
      assert (P0 : pass_increase st' = 0).
      { apply Qcle_antisym; [|exact Hpos].
        apply Qcnot_lt_le. intros Hp. apply (Qclt_irrefl' total).
        exact (Qclt_le_trans _ _ _ (Qclt_plus_pos total _ Hp) Hle). }
      rewrite Hsame, Hzero; auto. rewrite Es, P0. ring.
  - injection H as <- <-. split.
    + rewrite Hobj. ring.
    + intros Es. apply Hzero.
      assert (E2 : pass_increase st' = (total + pass_increase st') - total) by ring.
      rewrite E2, Es. ring.
Qed.

End Increase.

Lemma fit_sweeps rt fuel self g o :
  graph_wf g ->
  GreedyModularity_fit rt fuel self g = Some (Ok o) ->
  exists adjacency visit lab score,
    proxy g = Ok adjacency /\
    engine_visit rt self g adjacency = Some visit /\
    sweeps (tol self) (n_nodes g) visit fuel (start g) 0 = Some (lab, score) /\
    o = {| resolution := resolution self; tol := tol self; engine := engine self;
           score_ := Some score; Optimizer.labels_ := Some (unique_inverse lab) |}.
Proof.
  intros Hg. pose proof (proxy_ok g Hg) as Hp.
  set (adjacency := of_rows (shape (norm_adjacency g)) (proxy_rows (norm_adjacency g)))
    in Hp.
  unfold GreedyModularity_fit. rewrite Hp, engine_sweeps_visit.
  destruct (engine_visit rt self g adjacency) as [visit|] eqn:Hv;
    cbn [option_map]; [|discriminate].
  destruct (sweeps _ _ _ _ _ _) as [[lab score]|] eqn:Hs; [|discriminate].
  intros H. injection H as <-. exists adjacency, visit, lab, score. auto.
Qed.

Lemma unique_seq a n : unique (seq a n) = seq a n.
Proof.
  revert a. induction n as [|n IH]; intros a; [reflexivity|].
  cbn [seq]. unfold unique. cbn [fold_right]. fold (unique (seq (Datatypes.S a) n)).
  rewrite IH. destruct n as [|n]; [reflexivity|].
  cbn [seq insert_sorted].
  destruct (Nat.ltb_spec a (Datatypes.S a)); [reflexivity | lia].
Qed.

Lemma index_of_seq a n x :
  (a <= x < a + n)%nat -> index_of x (seq a n) = (x - a)%nat.
Proof.
  revert a. induction n as [|n IH]; intros a Hx; [lia|].
  cbn [seq index_of]. destruct (Nat.eqb_spec x a) as [->|Hne]; [lia|].
  rewrite IH by lia. lia.
Qed.

Lemma unique_inverse_seq n : unique_inverse (seq 0 n) = seq 0 n.
Proof.
  unfold unique_inverse. rewrite unique_seq.
  transitivity (map (fun x : nat => x) (seq 0 n)); [|apply map_id].
  apply map_ext_in.
  intros x Hx. apply in_seq in Hx. rewrite index_of_seq by lia. lia.
Qed.

Lemma has_duplicate_unique_inverse n lab :
  length lab = n -> has_duplicate n lab -> has_duplicate n (unique_inverse lab).
Proof.
  intros Hl (i & j & Hi & Hj & Hij & E).
  exists i, j. split; [exact Hi|]. split; [exact Hj|]. split; [exact Hij|].
  apply Nat.eqb_eq. rewrite unique_inverse_same_cluster by lia.
  now apply Nat.eqb_eq.
Qed.

Section OnGraph.

Variable rt : runtime.
Variable fuel : nat.
Variable self : GreedyModularity.
Variable g : AggregateGraph.
Hypothesis g_wf : graph_wf g.

Lemma fit_increase o :
  GreedyModularity_fit rt fuel self g = Some (Ok o) ->
  exists lab score,
    o = {| resolution := resolution self; tol := tol self; engine := engine self;
           score_ := Some score; Optimizer.labels_ := Some (unique_inverse lab) |} /\
    length lab = n_nodes g /\
    0 <= score /\
    quality g (resolution self) lab
    = quality g (resolution self) (seq 0 (n_nodes g)) + score /\
    (score = 0 -> lab = seq 0 (n_nodes g)) /\
    (0 < score -> has_duplicate (n_nodes g) lab).
Proof.
  intros Hfit.
  destruct (fit_sweeps rt fuel self g o g_wf Hfit)
    as (adjacency & visit & lab & score & Hp & Hv & Hs & Eo).
  destruct (proxy_spec g adjacency g_wf Hp) as (Hwf & Hr & Hc & _).
  pose proof (proxy_symmetric g adjacency g_wf Hp) as Hsym.
  pose proof (in_node_probs_length g g_wf) as Hin.
  assert (Hout : length (out_probs g) = n_nodes g)
    by now destruct g_wf as (_ & _ & _ & Ho & _).
  assert (Hgreedy : forall x st,
     state_ok (out_probs g) (in_node_probs_of g) (n_nodes g) st ->
     (x < n_nodes g)%nat ->
     exists S, visit x st
               = greedy_visit adjacency (resolution self) (out_probs g)
                   (in_node_probs_of g) S x st).
  { intros x st Hst Hx. eexists.
    exact (engine_visit_greedy rt self g adjacency visit g_wf Hp Hv x st Hst Hx). }
  destruct (sweeps_result adjacency (resolution self) (out_probs g)
              (in_node_probs_of g) (n_nodes g) Hwf Hr Hc Hsym Hout Hin
              visit Hgreedy (tol self) _ (start g) 0 lab score (start_ok g g_wf) Hs)
    as (Hl & _ & Hle & _ & Hd).
  destruct (sweeps_increase adjacency (resolution self) (out_probs g)
              (in_node_probs_of g) (n_nodes g) Hwf Hr Hc Hsym Hout Hin
              visit Hgreedy (tol self) _ (start g) 0 lab score (start_ok g g_wf) Hs)
    as (Hsum & Hsame).
  exists lab, score. split; [exact Eo|]. split; [exact Hl|]. split; [exact Hle|].
  split; [|split; [|exact Hd]].
  - rewrite !(objective_quality g adjacency _ _ g_wf Hp) in Hsum.
    cbn [start initial_state labels] in Hsum. rewrite <- Hsum. ring.
  - intros E0. rewrite (Hsame E0). reflexivity.
Qed.

End OnGraph.

(** X5: The score reported by [fit] is the quality of the labeling it reports
    minus the quality of the labeling it starts from, in which every node
    is alone in its cluster. *)
Theorem fit_score_is_quality_increase rt fuel self g o :
  graph_wf g ->
  GreedyModularity_fit rt fuel self g = Some (Ok o) ->
  exists score reported,
    score_ o = Some score /\
    Optimizer.labels_ o = Some reported /\
    score = quality g (resolution self) reported
            - quality g (resolution self) (seq 0 (n_nodes g)).
Proof.
  intros Hg Hfit.
  destruct (fit_increase rt fuel self g Hg o Hfit)
    as (lab & score & -> & Hl & _ & Hq & _).
  exists score, (unique_inverse lab). split; [reflexivity|]. split; [reflexivity|].
  rewrite (quality_unique_inverse g _ lab Hl), Hq. ring.
Qed.

Lemma fit_score_is_quality_increase_witness :
  exists o score reported,
    GreedyModularity_fit ascending_runtime 5 (python_optimizer 1 thousandth)
      triangle_graph = Some (Ok o) /\
    score_ o = Some score /\
    Optimizer.labels_ o = Some reported /\
    score = quality triangle_graph 1 reported - quality triangle_graph 1 [0; 1; 2]%nat.
Proof.
  eassert (E : GreedyModularity_fit ascending_runtime 5 (python_optimizer 1 thousandth)
                 triangle_graph = Some (Ok _)) by (vm_compute; reflexivity).
  destruct (fit_score_is_quality_increase _ _ _ _ _ triangle_graph_wf E)
    as (score & reported & H1 & H2 & H3).
  eexists. exists score, reported.
  split; [exact E|]. split; [exact H1|]. split; [exact H2 | exact H3].
Defined.

(** X6: The score is never negative.  It is 0 exactly when no node has moved,
    and then every node is reported alone in its cluster, under its own
    index; when it is above 0, two nodes at least share a cluster. *)
Theorem fit_score_zero_keeps_nodes_apart rt fuel self g o :
  graph_wf g ->
  GreedyModularity_fit rt fuel self g = Some (Ok o) ->
  exists score reported,
    score_ o = Some score /\
    Optimizer.labels_ o = Some reported /\
    0 <= score /\
    (score = 0 <-> reported = seq 0 (n_nodes g)) /\
    (0 < score <-> has_duplicate (n_nodes g) reported).
Proof.
  intros Hg Hfit.
  destruct (fit_increase rt fuel self g Hg o Hfit)
    as (lab & score & -> & Hl & Hpos & Hq & Hzero & Hdup).
  exists score, (unique_inverse lab). split; [reflexivity|]. split; [reflexivity|].
  split; [exact Hpos|].
  assert (Hno : ~ has_duplicate (n_nodes g) (seq 0 (n_nodes g))).
  { intros (i & j & Hi & Hj & Hij & E). rewrite !seq_nth0 in E by assumption.
    contradiction. }
  assert (Hcases : score = 0 \/ 0 < score).
  { destruct (Qc_eq_dec score 0) as [E|Hne]; [now left|right].
    destruct (Qcle_lt_or_eq _ _ Hpos) as [H|H]; [exact H | now elim Hne]. }
  split; split.
  - intros E0. rewrite (Hzero E0). apply unique_inverse_seq.
  - intros Er. destruct Hcases as [E0|Hlt]; [exact E0|]. exfalso.
    apply Hno. rewrite <- Er.
    apply has_duplicate_unique_inverse; [exact Hl | now apply Hdup].
  - intros Hlt. apply has_duplicate_unique_inverse; [exact Hl | now apply Hdup].
  - intros Hd. destruct Hcases as [E0|Hlt]; [|exact Hlt]. exfalso.
    apply Hno. rewrite <- (unique_inverse_seq (n_nodes g)), <- (Hzero E0). exact Hd.
Qed.

Lemma fit_score_zero_keeps_nodes_apart_witness :
  exists o score reported,
    GreedyModularity_fit ascending_runtime 5 (python_optimizer 1 thousandth)
      triangle_graph = Some (Ok o) /\
    score_ o = Some score /\
    Optimizer.labels_ o = Some reported /\
    (0 < score <-> has_duplicate 3 reported).
Proof.
  eassert (E : GreedyModularity_fit ascending_runtime 5 (python_optimizer 1 thousandth)
                 triangle_graph = Some (Ok _)) by (vm_compute; reflexivity).
  destruct (fit_score_zero_keeps_nodes_apart _ _ _ _ _ triangle_graph_wf E)
    as (score & reported & H1 & H2 & _ & _ & H3).
  eexists. exists score, reported.
  split; [exact E|]. split; [exact H1|]. split; [exact H2 | exact H3].
Defined.

(** *** [GreedyModularity.fit]: nodes without neighbours *)

(** Node [x] is isolated: no entry is stored between [x] and another node,
    in either direction (a self-loop is allowed). *)
Definition isolated (g : AggregateGraph) (x : nat) : Prop :=
  forall i e, (i < n_nodes g)%nat -> In e (row (norm_adjacency g) i) ->
    i = x \/ fst e = x -> i = x /\ fst e = x.

Lemma sum_duplicates_from r e :
  In e (sum_duplicates r) -> exists e', In e' r /\ fst e' = fst e.
Proof.
  intros He.
  pose proof (sum_duplicates_cols (fun k => exists e', In e' r /\ fst e' = k) r) as H.
  rewrite !Forall_forall in H. apply H; [|exact He].
  intros e' He'. now exists e'.
Qed.

Lemma column_from m j e :
  In e (column m j) ->
  (fst e < n_rows m)%nat /\ exists e', In e' (row m (fst e)) /\ fst e' = j.
Proof.
  unfold column. intros He. apply in_flat_map in He. destruct He as [i [Hi He]].
  apply in_map_iff in He. destruct He as [e' [<- He']].
  apply filter_In in He'. destruct He' as [He' Hj]. apply Nat.eqb_eq in Hj.
  apply in_seq in Hi. cbn [fst]. split; [lia|]. now exists e'.
Qed.

Lemma proxy_row_from g adjacency i e :
  graph_wf g -> proxy g = Ok adjacency -> (i < n_nodes g)%nat ->
  In e (row adjacency i) ->
  (exists e', In e' (row (norm_adjacency g) i) /\ fst e' = fst e) \/
  ((fst e < n_nodes g)%nat /\
   exists e', In e' (row (norm_adjacency g) (fst e)) /\ fst e' = i).
Proof.
  intros Hg Hp Hi He. rewrite (proxy_ok g Hg) in Hp. injection Hp as <-.
  destruct Hg as (Hwf & Hnr & Hnc & _).
  rewrite row_of_rows in He
    by (unfold proxy_rows; rewrite !length_map, length_seq; lia).
  unfold proxy_rows in He. rewrite map_map in He.
  rewrite nth_map_in with (d' := 0%nat) in He by (rewrite length_seq; lia).
  rewrite seq_nth in He by lia. cbn [Nat.add] in He.
  apply in_map_iff in He. destruct He as [e0 [<- He0]]. cbn [fst].
  destruct (sum_duplicates_from _ _ He0) as [e1 [He1 E1]]. rewrite <- E1.
  apply in_app_or in He1. destruct He1 as [He1|He1].
  - left. now exists e1.
  - right. rewrite row_transpose in He1 by lia.
    destruct (column_from _ _ _ He1) as [Hk [e2 [He2 E2]]].
    split; [lia|]. now exists e2.
Qed.

Lemma proxy_isolated g adjacency x :
  graph_wf g -> proxy g = Ok adjacency -> isolated g x ->
  forall i e, (i < n_nodes g)%nat -> In e (row adjacency i) ->
    i = x \/ fst e = x -> i = x /\ fst e = x.
Proof.
  intros Hg Hp Hx i e Hi He Hor.
  destruct (proxy_row_from g adjacency i e Hg Hp Hi He)
    as [[e' [He' E]] | [Hk [e' [He' E]]]].
  - rewrite <- E in Hor |- *. now apply (Hx i e').
  - destruct (Hx (fst e) e' Hk He') as [H1 H2]; [rewrite E; tauto|].
    split; congruence.
Qed.

(** No node shares the cluster of [x], which is [x] itself. *)
Definition alone (n x : nat) (lab : list nat) : Prop :=
  nth x lab 0%nat = x /\
  forall j, (j < n)%nat -> j <> x -> nth j lab 0%nat <> x.

Section KeptBySweeps.

Variable adjacency : csr_matrix.
Variable resolution : Qc.
Variable out_node_probs : list Qc.
Variable in_node_probs : list Qc.
Variable n : nat.

Hypothesis adjacency_wf : csr_wf adjacency.
Hypothesis adjacency_rows : n_rows adjacency = n.
Hypothesis adjacency_cols : n_cols adjacency = n.
Hypothesis adjacency_sym : forall i j, (i < n)%nat -> (j < n)%nat ->
  row_at (row adjacency i) j = row_at (row adjacency j) i.
Hypothesis out_length : length out_node_probs = n.
Hypothesis in_length : length in_node_probs = n.

Variable visit : nat -> sweep_state -> sweep_state.
Hypothesis visit_greedy : forall x st,
  state_ok out_node_probs in_node_probs n st -> (x < n)%nat ->
  exists S, visit x st
            = greedy_visit adjacency resolution out_node_probs in_node_probs S x st.

(** A property of the labels that every visit keeps is kept by the sweeps. *)
Variable keeps : list nat -> Prop.
Hypothesis visit_keeps : forall x st,
  state_ok out_node_probs in_node_probs n st -> (x < n)%nat ->
  keeps (labels st) -> keeps (labels (visit x st)).

Lemma visits_keep nodes : forall st,
  state_ok out_node_probs in_node_probs n st ->
  Forall (fun x => (x < n)%nat) nodes ->
  keeps (labels st) ->
  keeps (labels (fold_left (fun s node => visit node s) nodes st)).
Proof.
  induction nodes as [|x t IH]; intros st Hst Hn Hk; [exact Hk|].
  apply Forall_cons_iff in Hn. destruct Hn as [Hx Ht]. cbn [fold_left].
  apply IH; [|exact Ht | now apply visit_keeps].
  exact (proj1 (visit_steps adjacency resolution out_node_probs in_node_probs n
                  adjacency_wf adjacency_rows adjacency_cols adjacency_sym
                  out_length in_length visit visit_greedy st x Hst Hx)).
Qed.

Lemma sweep_keeps st :
  state_ok out_node_probs in_node_probs n st ->
  keeps (labels st) -> keeps (labels (sweep n visit st)).
Proof.
  intros Hst Hk. unfold sweep. apply visits_keep; [exact Hst | | exact Hk].
  rewrite Forall_forall. intros x Hx. apply in_seq in Hx. lia.
Qed.

Lemma sweeps_keep tol fuel : forall st total lab score,
  state_ok out_node_probs in_node_probs n st ->
  keeps (labels st) ->
  sweeps tol n visit fuel st total = Some (lab, score) ->
  keeps lab.
Proof.
  induction fuel as [|fuel IH]; intros st total lab score Hst Hk H; [discriminate|].
  cbn [sweeps] in H.
  pose proof (sweep_keeps st Hst Hk) as Hk'.
  pose proof (proj1 (sweep_steps adjacency resolution out_node_probs in_node_probs n
                       adjacency_wf adjacency_rows adjacency_cols adjacency_sym
                       out_length in_length visit visit_greedy st Hst)) as Hok.
  cbn zeta in Hok.
  destruct (Qcltb tol (pass_increase (sweep n visit st))).
  - exact (IH _ _ lab score Hok Hk' H).
  - injection H as <- _. exact Hk'.
Qed.

End KeptBySweeps.

Lemma greedy_visit_keeps_alone adjacency res o p n S x i st :
  length (labels st) = n -> (x < n)%nat -> (i < n)%nat ->
  (forall e, In e (row adjacency i) -> (fst e < n)%nat) ->
  (forall e, In e (row adjacency i) -> i = x \/ fst e = x -> i = x /\ fst e = x) ->
  alone n x (labels st) ->
  alone n x (labels (greedy_visit adjacency res o p S i st)).
Proof.
  intros Hl Hx Hi Hb Hiso [Hown Hothers].
  destruct (greedy_visit_outcome adjacency res o p S st i)
    as [[_ ->] | (B & [Hne [e [He HB]]] & _ & _ & ->)]; [now split|].
  unfold move. cbn [labels].
  destruct (Nat.eq_dec i x) as [Eix|Nix].
  - exfalso. destruct (Hiso e He (or_introl Eix)) as [_ Ee].
    apply Hne. rewrite <- HB, Ee, Eix. reflexivity.
  - assert (HBx : B <> x).
    { rewrite <- HB. apply Hothers; [now apply Hb|].
      intros Ee. destruct (Hiso e He (or_intror Ee)) as [E _]. contradiction. }
    split.
    + rewrite nth_upd_other by congruence. exact Hown.
    + intros j Hj Hjx. destruct (Nat.eq_dec j i) as [->|Hji].
      * rewrite nth_upd_same by lia. exact HBx.
      * rewrite nth_upd_other by congruence. now apply Hothers.
Qed.

(** X7: An isolated node is never moved and never joined: in the labels that
    [fit] reports, no other node has its label. *)
Theorem isolated_node_stays_alone rt fuel self g o x :
  graph_wf g -> (x < n_nodes g)%nat -> isolated g x ->
  GreedyModularity_fit rt fuel self g = Some (Ok o) ->
  exists reported,
    Optimizer.labels_ o = Some reported /\
    forall j, (j < n_nodes g)%nat -> j <> x ->
      nth j reported 0%nat <> nth x reported 0%nat.
Proof.
  intros Hg Hx Hiso Hfit.
  destruct (fit_sweeps rt fuel self g o Hg Hfit)
    as (adjacency & visit & lab & score & Hp & Hv & Hs & ->).
  destruct (proxy_spec g adjacency Hg Hp) as (Hwf & Hr & Hc & _).
  pose proof (proxy_symmetric g adjacency Hg Hp) as Hsym.
  pose proof (in_node_probs_length g Hg) as Hin.
  assert (Hout : length (out_probs g) = n_nodes g)
    by now destruct Hg as (_ & _ & _ & Ho & _).
  assert (Hgreedy : forall x st,
     state_ok (out_probs g) (in_node_probs_of g) (n_nodes g) st ->
     (x < n_nodes g)%nat ->
     exists S, visit x st
               = greedy_visit adjacency (resolution self) (out_probs g)
                   (in_node_probs_of g) S x st).
  { intros y st Hst Hy. eexists.
    exact (engine_visit_greedy rt self g adjacency visit Hg Hp Hv y st Hst Hy). }
  assert (Hkeep : forall i st,
     state_ok (out_probs g) (in_node_probs_of g) (n_nodes g) st ->
     (i < n_nodes g)%nat ->
     alone (n_nodes g) x (labels st) -> alone (n_nodes g) x (labels (visit i st))).
  { intros i st Hst Hi Ha. destruct (Hgreedy i st Hst Hi) as [S ->].
    apply greedy_visit_keeps_alone; auto.
    - now destruct Hst.
    - intros e He. rewrite <- Hc. apply (wf_row_cols adjacency i); auto. lia.
    - intros e He. now apply (proxy_isolated g adjacency x Hg Hp Hiso i e). }
  assert (H0 : alone (n_nodes g) x (labels (start g))).
  { unfold start, initial_state. cbn [labels]. split.
    - now apply seq_nth0.
    - intros j Hj Hjx. now rewrite seq_nth0. }
  destruct (sweeps_keep adjacency (resolution self) (out_probs g)
              (in_node_probs_of g) (n_nodes g) Hwf Hr Hc Hsym Hout Hin
              visit Hgreedy (alone (n_nodes g) x) Hkeep (tol self) fuel
              (start g) 0 lab score (start_ok g Hg) H0 Hs) as [Hown Hothers].
  destruct (sweeps_result adjacency (resolution self) (out_probs g)
              (in_node_probs_of g) (n_nodes g) Hwf Hr Hc Hsym Hout Hin
              visit Hgreedy (tol self) _ (start g) 0 lab score (start_ok g Hg) Hs)
    as (Hl & _).
  exists (unique_inverse lab). split; [reflexivity|].
  intros j Hj Hjx. apply Nat.eqb_neq.
  rewrite unique_inverse_same_cluster by lia.
  apply Nat.eqb_neq. rewrite Hown. now apply Hothers.
Qed.

(** An edge between nodes 0 and 1, and a self-loop on node 2. *)
Definition edge_and_loop : csr_matrix :=
  adjacency_of 3 3 [[(1, 1)]; [(0, 1)]; [(2, 1)]]%nat.

Lemma edge_and_loop_graph_wf : graph_wf (graph_of edge_and_loop).
Proof.
  unfold graph_wf. split; [|split; [|split; [|split]]].
  - split; [vm_compute; reflexivity|].
    vm_compute. repeat constructor.
  - reflexivity.
  - reflexivity.
  - reflexivity.
  - intros p H. vm_compute in H. injection H as <-. reflexivity.
Qed.

Lemma edge_and_loop_isolated : isolated (graph_of edge_and_loop) 2.
Proof.
  intros i e Hi He Hor.
  change (n_nodes (graph_of edge_and_loop)) with 3%nat in Hi.
  destruct i as [|[|[|i]]]; [| | |lia]; vm_compute in He;
    destruct He as [<-|[]]; cbn [fst] in *; lia.
Qed.

Lemma isolated_node_stays_alone_witness :
  exists o reported,
    GreedyModularity_fit ascending_runtime 5 (python_optimizer 1 thousandth)
      (graph_of edge_and_loop) = Some (Ok o) /\
    Optimizer.labels_ o = Some reported /\
    nth 0 reported 0%nat <> nth 2 reported 0%nat /\
    nth 1 reported 0%nat <> nth 2 reported 0%nat.
Proof.
  eassert (E : GreedyModularity_fit ascending_runtime 5 (python_optimizer 1 thousandth)
                 (graph_of edge_and_loop) = Some (Ok _)) by (vm_compute; reflexivity).
  destruct (isolated_node_stays_alone _ _ _ _ _ 2%nat edge_and_loop_graph_wf
              ltac:(vm_compute; lia) edge_and_loop_isolated E) as (reported & H1 & H2).
  eexists. exists reported. split; [exact E|]. split; [exact H1|].
  split; apply H2; vm_compute; lia.
Defined.

(** *** The turns of the loop of [Louvain.fit] *)

(** What a turn does to the variables of the loop: either the score is at
    most the aggregation tolerance and only the optimizer and the count
    change, or the graph is aggregated by the labels just found. *)
Lemma level_cases rt fuel agg cap n0 s t :
  level_ok n0 s ->
  level rt fuel agg cap s = Some (Ok t) ->
  exists o score lab,
    GreedyModularity_fit rt fuel (optimizer s) (graph s) = Some (Ok o) /\
    score_ o = Some score /\
    Optimizer.labels_ o = Some (unique_inverse lab) /\
    length lab = n_nodes (graph s) /\
    (0 < score -> has_duplicate (n_nodes (graph s)) lab) /\
    ((score <= agg /\
      t = Leave {| optimizer := o; graph := graph s; membership := membership s;
                   iteration_count := iteration_count s + 1 |}) \/
     (agg < score /\
      exists r,
        membership_matrix (unique_inverse lab) = Ok r /\
        csr_wf r /\
        assignment (n_nodes (graph s)) r /\
        n_cols r = Datatypes.S (list_max (unique_inverse lab)) /\
        (forall i, (i < n_nodes (graph s))%nat ->
           row r i = [(nth i (unique_inverse lab) 0%nat, 1)]) /\
        ending t = {| optimizer := o; graph := aggregated (graph s) r r;
                      membership := product (membership s) r;
                      iteration_count := iteration_count s + 1 |} /\
        (leaves t <-> n_cols r = 1%nat
                      \/ Z.of_nat (iteration_count s + 1) = cap))).
Proof.
  intros (Hg & Hmw & Hma & Hmc). unfold level.
  destruct (GreedyModularity_fit rt fuel (optimizer s) (graph s)) as [[o|e]|] eqn:Hfit;
    try discriminate.
  destruct (fit_increase rt fuel _ _ Hg o Hfit)
    as (lab & score & Eo & Hlen & _ & _ & _ & Hdup).
  assert (Es : score_ o = Some score) by (rewrite Eo; reflexivity).
  assert (Eu : Optimizer.labels_ o = Some (unique_inverse lab))
    by (rewrite Eo; reflexivity).
  rewrite Es, Eu.
  intros H. exists o, score, lab. split; [reflexivity|].
  split; [exact Es|]. split; [exact Eu|]. split; [exact Hlen|].
  split; [exact Hdup|].
  revert H. destruct (Qcleb score agg) eqn:E.
  - intros H. injection H as <-. left. apply Qcleb_le in E. now split.
  - apply Qcleb_gt in E. intros H. right. split; [exact E|]. revert H.
    set (labels := unique_inverse lab).
    assert (Hll : length labels = n_nodes (graph s))
      by (unfold labels; now rewrite unique_inverse_length).
    destruct labels as [|l0 tl] eqn:El; [discriminate|]. rewrite <- El in *.
    assert (Hne : labels <> []) by (rewrite El; discriminate).
    destruct (membership_matrix_assignment labels Hne)
      as (r & Er & Ar & Hrc & Hrw & Hrow).
    rewrite Er. cbn [bind].
    assert (Hrn : n_rows r = n_nodes (graph s)) by (rewrite (proj1 Ar); exact Hll).
    rewrite dot_ok by congruence. cbn [bind].
    rewrite (aggregate_rows (graph s) (Matrix r) r eq_refl Hg Hrn).
    intros H. exists r. split; [reflexivity|]. split; [exact Hrw|].
    split; [now rewrite <- Hll|]. split; [exact Hrc|].
    split; [intros i Hi; apply Hrow; now rewrite Hll|].
    change (n_nodes (aggregated (graph s) r r)) with (n_cols r) in H.
    destruct (Nat.eqb_spec (n_cols r) 1) as [E1|E1].
    + injection H as <-. cbn [ending leaves]. split; [reflexivity | tauto].
    + destruct (Z.eqb_spec (Z.of_nat (iteration_count s + 1)) cap) as [Ec|Ec];
        injection H as <-; cbn [ending leaves]; (split; [reflexivity | tauto]).
Qed.

(** *** Shuffling the nodes and back *)

Lemma permutation_range nodes n :
  Permutation nodes (seq 0 n) ->
  length nodes = n /\ NoDup nodes /\ forall i, (i < n)%nat -> (nth i nodes 0 < n)%nat.
Proof.
  intros P. split; [|split].
  - rewrite (Permutation_length P). apply length_seq.
  - apply (Permutation_NoDup (Permutation_sym P)). apply seq_NoDup.
  - intros i Hi.
    assert (Hin : In (nth i nodes 0%nat) (seq 0 n)).
    { apply (Permutation_in _ P). apply nth_In.
      rewrite (Permutation_length P), length_seq. exact Hi. }
    apply in_seq in Hin. lia.
Qed.

Lemma reverse_prefix nodes n k : forall r,
  length nodes = n -> NoDup nodes ->
  (forall i, (i < n)%nat -> (nth i nodes 0 < n)%nat) ->
  length r = n -> (k <= n)%nat ->
  let r' := fold_left (fun r i => upd r (nth i nodes 0%nat) i) (seq 0 k) r in
  length r' = n /\
  forall i, (i < k)%nat -> nth (nth i nodes 0%nat) r' 0%nat = i.
Proof.
  intros r Hn Hnd Hb Hr. induction k as [|k IH]; intros Hk; cbn zeta.
  - split; [exact Hr|]. intros i Hi. lia.
  - rewrite seq_S, fold_left_app. cbn [fold_left Nat.add].
    destruct (IH ltac:(lia)) as [Hl Hp]. cbn zeta in Hl, Hp.
    set (r1 := fold_left (fun r i => upd r (nth i nodes 0%nat) i) (seq 0 k) r) in *.
    split; [now rewrite upd_length|].
    intros i Hi. destruct (Nat.eq_dec i k) as [->|Hne].
    + apply nth_upd_same. rewrite Hl. apply Hb. lia.
    + rewrite nth_upd_other; [apply Hp; lia|].
      intros E. apply Hne. symmetry.
      apply (proj1 (NoDup_nth nodes 0%nat) Hnd); [lia | lia | exact E].
Qed.

Lemma reverse_of_inverse nodes n i :
  Permutation nodes (seq 0 n) -> (i < n)%nat ->
  nth (nth i nodes 0%nat) (reverse_of nodes) 0%nat = i.
Proof.
  intros P Hi. destruct (permutation_range nodes n P) as (Hn & Hnd & Hb).
  unfold reverse_of. rewrite Hn.
  apply (reverse_prefix nodes n n (repeat 0%nat n) Hn Hnd Hb (repeat_length _ _)
           (Nat.le_refl n)). exact Hi.
Qed.

Lemma take_reverse_nth nodes labels i :
  Permutation nodes (seq 0 (length labels)) -> (i < length labels)%nat ->
  nth (nth i nodes 0%nat) (take labels (reverse_of nodes)) 0%nat = nth i labels 0%nat.
Proof.
  intros P Hi. destruct (permutation_range nodes _ P) as (Hn & _ & Hb).
  unfold take.
  rewrite nth_map_in with (d' := 0%nat)
    by (rewrite reverse_of_length, Hn; now apply Hb).
  now rewrite (reverse_of_inverse nodes (length labels) i P Hi).
Qed.

(** X8: The labels are put back in the order of the input: [reverse] is the
    inverse of the permutation drawn, and the node that the shuffle moved
    to position [i] receives the label found for position [i]. *)
Theorem unshuffled_labels_follow_nodes nodes labels i :
  Permutation nodes (seq 0 (length labels)) -> (i < length labels)%nat ->
  nth (nth i nodes 0%nat) (reverse_of nodes) 0%nat = i /\
  nth (nth i nodes 0%nat) (take labels (reverse_of nodes)) 0%nat = nth i labels 0%nat.
Proof.
  intros P Hi. split.
  - exact (reverse_of_inverse nodes (length labels) i P Hi).
  - exact (take_reverse_nth nodes labels i P Hi).
Qed.

Lemma unshuffled_labels_follow_nodes_witness :
  nth (nth 1 [2; 0; 1]%nat 0%nat) (reverse_of [2; 0; 1]%nat) 0%nat = 1%nat /\
  nth (nth 1 [2; 0; 1]%nat 0%nat) (take [7; 8; 9]%nat (reverse_of [2; 0; 1]%nat)) 0%nat
  = nth 1 [7; 8; 9]%nat 0%nat.
Proof.
  apply (unshuffled_labels_follow_nodes [2; 0; 1]%nat [7; 8; 9]%nat 1).
  - apply (perm_trans (l' := [0; 2; 1]%nat)).
    + apply perm_swap.
    + apply perm_skip. apply perm_swap.
  - simpl. lia.
Defined.


Lemma wsum_positions (p : nat -> bool) (v : Qc) j n : forall a,
  wsum (fun k => if Nat.eqb k j then 1 else 0)
       (map (fun j' => (j', v)) (filter p (seq a n)))
  = if (Nat.leb a j && Nat.ltb j (a + n) && p j)%bool then v else 0.
Proof.
  induction n as [|n IH]; intros a.
  - cbn [seq filter map]. unfold wsum. cbn [map sum].
    replace (Nat.ltb j (a + 0)) with (negb (Nat.leb a j)).
    + destruct (Nat.leb a j); reflexivity.
    + rewrite Nat.add_0_r. destruct (Nat.leb_spec a j), (Nat.ltb_spec j a);
        reflexivity || lia.
  - cbn [seq filter].
    assert (Hrest : wsum (fun k => if Nat.eqb k j then 1 else 0)
                      (map (fun j' => (j', v)) (filter p (seq (Datatypes.S a) n)))
                    = if (Nat.leb (Datatypes.S a) j
                          && Nat.ltb j (Datatypes.S a + n) && p j)%bool
                      then v else 0) by apply IH.
    replace (a + Datatypes.S n)%nat with (Datatypes.S a + n)%nat by lia.
    destruct (Nat.eq_dec a j) as [->|Hne].
    + assert (E1 : Nat.leb (Datatypes.S j) j = false) by (apply Nat.leb_gt; lia).
      rewrite E1 in Hrest. cbn [andb] in Hrest.
      assert (E2 : Nat.leb j j = true) by (apply Nat.leb_le; lia).
      assert (E3 : Nat.ltb j (Datatypes.S j + n) = true) by (apply Nat.ltb_lt; lia).
      rewrite E2, E3. cbn [andb].
      destruct (p j).
      * cbn [map]. unfold wsum in *. cbn [map sum fst snd]. rewrite Hrest.
        rewrite Nat.eqb_refl. ring.
      * exact Hrest.
    + assert (E1 : Nat.leb (Datatypes.S a) j = Nat.leb a j).
      { destruct (Nat.leb_spec (Datatypes.S a) j), (Nat.leb_spec a j);
          reflexivity || lia. }
      rewrite E1 in Hrest.
      destruct (p a).
      * cbn [map]. unfold wsum in *. cbn [map sum fst snd]. rewrite Hrest.
        destruct (Nat.eqb_spec a j) as [|_]; [contradiction|]. ring.
      * exact Hrest.
Qed.

Lemma reorder_entry nodes adjacency i j :
  (i < length nodes)%nat -> (j < length nodes)%nat ->
  row_at (row (reorder nodes adjacency) i) j
  = row_at (row adjacency (nth i nodes 0%nat)) (nth j nodes 0%nat).
Proof.
  intros Hi Hj. unfold reorder.
  rewrite row_of_rows by now rewrite length_map.
  rewrite nth_map_in with (d' := 0%nat) by exact Hi.
  rewrite row_at_sum_duplicates, row_at_wsum, wsum_flat_map.
  rewrite row_at_wsum. unfold wsum at 2. f_equal. apply map_ext.
  intros [c v]. cbn [fst snd]. unfold positions.
  rewrite wsum_positions.
  assert (E1 : Nat.leb 0 j = true) by (apply Nat.leb_le; lia).
  assert (E2 : Nat.ltb j (0 + length nodes) = true) by (apply Nat.ltb_lt; lia).
  rewrite E1, E2. cbn [andb]. rewrite (Nat.eqb_sym c).
  destruct (Nat.eqb (nth j nodes 0%nat) c); ring.
Qed.

Lemma sum_permutation (l l' : list Qc) : Permutation l l' -> sum l = sum l'.
Proof.
  induction 1 as [|x l l' _ IH|x y l|l l' l'' _ IH1 _ IH2]; simpl.
  - reflexivity.
  - now rewrite IH.
  - ring.
  - now rewrite IH1.
Qed.

Lemma sumn_permutation nodes n (f : nat -> Qc) :
  Permutation nodes (seq 0 n) ->
  sumn n (fun i => f (nth i nodes 0%nat)) = sumn n f.
Proof.
  intros P. destruct (permutation_range nodes n P) as (Hn & _ & _).
  rewrite <- !sum_map_seq.
  transitivity (sum (map f nodes)).
  - f_equal. rewrite <- Hn.
    clear. induction nodes as [|x t IH]; [reflexivity|].
    cbn [length seq map nth]. f_equal.
    rewrite <- seq_shift, map_map. exact IH.
  - apply sum_permutation. now apply Permutation_map.
Qed.

Lemma total_entries m :
  csr_wf m ->
  total m = sumn (n_rows m) (fun i => sumn (n_cols m) (fun j => row_at (row m i) j)).
Proof.
  intros Hm. rewrite (total_wf _ Hm). apply sumn_ext. intros i Hi.
  apply row_sum_columns. rewrite Forall_forall. intros e He.
  now apply (wf_row_cols m i).
Qed.

Lemma total_reorder nodes a :
  csr_wf a -> n_rows a = n_cols a ->
  Permutation nodes (seq 0 (n_rows a)) ->
  total (reorder nodes a) = total a.
Proof.
  intros Ha Hsq P. destruct (permutation_range nodes _ P) as (Hn & _ & _).
  destruct (reorder_wf nodes a) as (Hw & Hr & Hc).
  rewrite (total_entries _ Hw), (total_entries _ Ha), Hr, Hc, Hn, <- Hsq.
  rewrite <- (sumn_permutation nodes (n_rows a)
                (fun k => sumn (n_rows a) (fun j => row_at (row a k) j)) P).
  apply sumn_ext. intros i Hi.
  rewrite <- (sumn_permutation nodes (n_rows a)
                (fun c => row_at (row a (nth i nodes 0%nat)) c) P).
  apply sumn_ext. intros j Hj. apply reorder_entry; now rewrite Hn.
Qed.

(** X9: The shuffled adjacency: its entry at row [i] and column [j] is the
    entry of the adjacency at row [nodes[i]] and column [nodes[j]], and it
    has the same total weight. *)
Theorem shuffled_adjacency_entries nodes adjacency :
  csr_wf adjacency -> n_rows adjacency = n_cols adjacency ->
  Permutation nodes (seq 0 (n_rows adjacency)) ->
  (forall i j, (i < n_rows adjacency)%nat -> (j < n_rows adjacency)%nat ->
     row_at (row (reorder nodes adjacency) i) j
     = row_at (row adjacency (nth i nodes 0%nat)) (nth j nodes 0%nat)) /\
  total (reorder nodes adjacency) = total adjacency.
Proof.
  intros Ha Hsq P. destruct (permutation_range nodes _ P) as (Hn & _ & _). split.
  - intros i j Hi Hj. apply reorder_entry; now rewrite Hn.
  - now apply total_reorder.
Qed.

Lemma shuffled_adjacency_entries_witness :
  row_at (row (reorder [2; 0; 1]%nat triangle) 0) 1 = row_at (row triangle 2) 0 /\
  total (reorder [2; 0; 1]%nat triangle) = total triangle.
Proof.
  destruct (shuffled_adjacency_entries [2; 0; 1]%nat triangle triangle_wf eq_refl)
    as [H1 H2].
  - apply (perm_trans (l' := [0; 2; 1]%nat)).
    + apply perm_swap.
    + apply perm_skip. apply perm_swap.
  - split; [|exact H2]. apply (H1 0%nat 1%nat); vm_compute; lia.
Defined.

(** *** What the loop of [Louvain.fit] keeps *)

(** Every cluster of an assignment has a member among the [n0] nodes. *)
Definition onto (n0 : nat) (m : csr_matrix) : Prop :=
  forall c, (c < n_cols m)%nat -> exists i, (i < n0)%nat /\ row m i = [(c, 1)].

Definition loop_ok (n0 : nat) (s : level_state) : Prop :=
  level_ok n0 s /\
  total (norm_adjacency (graph s)) = 1 /\
  onto n0 (membership s).

Lemma product_single m r i c d :
  (i < n_rows m)%nat -> row m i = [(c, 1)] -> row r c = [(d, 1)] ->
  row (product m r) i = [(d, 1)].
Proof.
  intros Hi Em Er. rewrite row_dot by exact Hi. unfold dot_row.
  rewrite Em. cbn [flat_map fst snd]. rewrite Er.
  cbn [map app sum_duplicates fold_right insert_entry fst snd].
  now rewrite Qcmult_1_l.
Qed.

Lemma level_keeps rt fuel agg cap n0 s t :
  loop_ok n0 s ->
  level rt fuel agg cap s = Some (Ok t) ->
  loop_ok n0 (ending t).
Proof.
  intros (Hok & Htot & Honto) Hl.
  pose proof (level_preserves rt fuel agg cap n0 s t Hok Hl) as Hok'.
  split; [exact Hok'|].
  destruct (level_cases rt fuel agg cap n0 s t Hok Hl)
    as (o & score & lab & _ & _ & _ & Hlen & _ & Hcase).
  destruct Hok as (Hg & Hmw & Hma & Hmc).
  destruct Hcase as [[_ ->] | (_ & r & Er & Hrw & Ar & Hrc & Hrow & -> & _)].
  - cbn [ending graph membership]. now split.
  - cbn [graph membership]. split.
    + rewrite <- Htot.
      exact (proj2 (proj2 (aggregated_mass (graph s) r r (n_nodes (graph s))
                             Hg eq_refl Ar Ar))).
    + intros d Hd. rewrite n_cols_product in Hd.
      assert (Hne : unique_inverse lab <> []).
      { intros E0. rewrite E0 in Er. discriminate Er. }
      pose proof (list_max_bound _ _ Hne (unique_inverse_bound lab)) as Hb.
      assert (Hdu : (d < length (unique lab))%nat) by lia.
      destruct (proj1 (proj2 (unique_inverse_rank lab) d) Hdu) as [c [Hc Ec]].
      rewrite Hlen in Hc.
      assert (Hcm : (c < n_cols (membership s))%nat) by now rewrite Hmc.
      destruct (Honto c Hcm) as [i [Hi Ei]].
      exists i. split; [exact Hi|].
      apply (product_single _ _ i c d); [now rewrite (proj1 Hma) | exact Ei |].
      rewrite Hrow by exact Hc. now rewrite Ec.
Qed.

Lemma levels_keep rt fuel agg cap n0 : forall turns s s',
  loop_ok n0 s ->
  levels rt turns fuel agg cap s = Some (Ok s') ->
  loop_ok n0 s'.
Proof.
  induction turns as [|turns IH]; intros s s' Hs H; [discriminate|].
  cbn [levels] in H.
  destruct (level rt fuel agg cap s) as [[[s1|s1]|e]|] eqn:El; try discriminate.
  - apply (IH s1 s'); [|exact H].
    exact (level_keeps rt fuel agg cap n0 s _ Hs El).
  - injection H as <-. exact (level_keeps rt fuel agg cap n0 s _ Hs El).
Qed.

(** The count goes up by one at every turn, and stays within a cap that
    is at least 1. *)
Lemma levels_count rt fuel agg cap : forall turns s s',
  levels rt turns fuel agg cap s = Some (Ok s') ->
  (iteration_count s < iteration_count s')%nat /\
  ((Z.of_nat (iteration_count s) < cap)%Z -> (Z.of_nat (iteration_count s') <= cap)%Z).
Proof.
  induction turns as [|turns IH]; intros s s' H; [discriminate|].
  cbn [levels] in H.
  destruct (level rt fuel agg cap s) as [[[s1|s1]|e]|] eqn:El; try discriminate.
  - destruct (level_leaves rt fuel agg cap s _ El) as (Hc & score & _ & Hiff).
    cbn [ending leaves] in Hc, Hiff.
    destruct (IH s1 s' H) as [Hlt Hcap]. split; [lia|].
    intros Hs. apply Hcap.
    assert (Hne : Z.of_nat (iteration_count s1) <> cap) by tauto.
    lia.
  - injection H as <-.
    destruct (level_leaves rt fuel agg cap s _ El) as (Hc & _).
    cbn [ending] in Hc. split; lia.
Qed.

(** With an aggregation tolerance of at least 0, every turn that is
    followed by another one removes a node at least. *)
Lemma level_shrinks rt fuel agg cap n0 s t :
  0 <= agg -> level_ok n0 s ->
  level rt fuel agg cap s = Some (Ok t) ->
  iteration_count (ending t) = (iteration_count s + 1)%nat /\
  (n_nodes (graph (ending t)) <= n_nodes (graph s))%nat /\
  (~ leaves t -> (n_nodes (graph (ending t)) < n_nodes (graph s))%nat).
Proof.
  intros Hagg Hok Hl.
  destruct (level_leaves rt fuel agg cap s t Hl) as (Hc & _).
  split; [exact Hc|].
  destruct (level_cases rt fuel agg cap n0 s t Hok Hl)
    as (o & score & lab & _ & _ & _ & Hlen & Hdup & Hcase).
  destruct Hcase as [[_ ->] | (Hlt & r & Er & _ & _ & Hrc & _ & -> & _)].
  - cbn [ending graph leaves]. split; [lia | tauto].
  - cbn [graph]. change (n_nodes (aggregated (graph s) r r)) with (n_cols r).
    assert (Hne : unique_inverse lab <> []).
    { intros E0. rewrite E0 in Er. discriminate Er. }
    pose proof (list_max_bound _ _ Hne (unique_inverse_bound lab)) as Hb.
    pose proof (unique_length_lt _ _ Hlen (Hdup (Qcle_lt_trans _ _ _ Hagg Hlt))) as Hu.
    split; [lia | intros _; lia].
Qed.

Lemma levels_shrink rt fuel agg cap n0 :
  0 <= agg ->
  forall turns s s',
    level_ok n0 s ->
    levels rt turns fuel agg cap s = Some (Ok s') ->
    (iteration_count s' + n_nodes (graph s')
     <= iteration_count s + n_nodes (graph s) + 1)%nat.
Proof.
  intros Hagg. induction turns as [|turns IH]; intros s s' Hs H; [discriminate|].
  cbn [levels] in H.
  destruct (level rt fuel agg cap s) as [[[s1|s1]|e]|] eqn:El; try discriminate.
  - destruct (level_shrinks rt fuel agg cap n0 s _ Hagg Hs El) as (Hc & _ & Hlt).
    cbn [ending leaves] in Hc, Hlt.
    pose proof (level_preserves rt fuel agg cap n0 s _ Hs El) as Hs1.
    cbn [ending] in Hs1. specialize (IH s1 s' Hs1 H).
    specialize (Hlt (fun F => F)). lia.
  - injection H as <-.
    destruct (level_shrinks rt fuel agg cap n0 s _ Hagg Hs El) as (Hc & Hle & _).
    cbn [ending] in Hc, Hle. lia.
Qed.

(** *** The graph the loop starts from *)

Lemma init_total a ow iw g : init a ow iw = Ok g -> total (norm_adjacency g) = 1.
Proof.
  unfold init.
  destruct (divide a (total a)) as [na|] eqn:D; [|discriminate].
  destruct (check_probs ow a); [|discriminate]. cbn [bind].
  destruct (check_in_probs iw a); [|discriminate]. cbn [bind].
  intros H. injection H as <-. cbn [norm_adjacency].
  rewrite (divide_total _ _ _ D).
  unfold divide in D. destruct (Qc_eq_dec (total a) 0) as [|Hne]; [discriminate|].
  unfold Qcdiv. now apply Qcmult_inv_r.
Qed.

Lemma prepare_cases self adjacency w sw fu fb permutation a nodes g :
  prepare self adjacency w sw fu fb permutation = Ok (a, nodes, g) ->
  exists a0 ow iw,
    preprocess adjacency w sw fu fb = Ok (a0, ow, iw) /\
    a = (if shuffle_nodes self then reorder permutation a0 else a0) /\
    nodes = (if shuffle_nodes self then permutation else seq 0 (n_rows a0)) /\
    init a ow (Some iw) = Ok g.
Proof.
  unfold prepare.
  destruct (preprocess adjacency w sw fu fb) as [[[a0 ow] iw]|]; cbn [bind];
    [|discriminate].
  destruct (init _ ow (Some iw)) as [g1|] eqn:Ei; cbn [bind]; [|discriminate].
  intros H. injection H as <- <- <-. exists a0, ow, iw.
  destruct (shuffle_nodes self); (split; [reflexivity|]);
    (split; [reflexivity|]); (split; [reflexivity | exact Ei]).
Qed.

Lemma start_loop_ok self adjacency w sw fu fb permutation a nodes g :
  csr_wf adjacency ->
  prepare self adjacency w sw fu fb permutation = Ok (a, nodes, g) ->
  loop_ok (n_rows a)
    {| optimizer := algorithm self; graph := g; membership := identity (n_rows a);
       iteration_count := 0 |}.
Proof.
  intros Ha Ep.
  destruct (prepare_wf _ _ _ _ _ _ _ _ _ _ Ha Ep) as (_ & Hg & Hn & _).
  split; [exact (start_level_ok self a g Hg Hn)|]. cbn [graph membership]. split.
  - destruct (prepare_cases _ _ _ _ _ _ _ _ _ _ Ep) as (a0 & ow & iw & _ & _ & _ & Ei).
    exact (init_total _ _ _ _ Ei).
  - intros c Hc. exists c. split; [exact Hc|].
    unfold identity. rewrite row_of_rows by now rewrite length_map, length_seq.
    rewrite nth_map_in with (d' := 0%nat) by now rewrite length_seq.
    now rewrite seq_nth.
Qed.

(** [fit], when it succeeds, is the loop run from the prepared graph
    followed by the last part. *)
Lemma fit_cases rt fuel self adjacency w sw fu fb sc permutation self' :
  fit rt fuel self adjacency w sw fu fb sc permutation = Some (Ok self') ->
  exists a nodes g s,
    prepare self adjacency w sw fu fb permutation = Ok (a, nodes, g) /\
    levels rt fuel fuel (agg_tol self) (max_agg_iter self)
      {| optimizer := algorithm self; graph := g; membership := identity (n_rows a);
         iteration_count := 0 |} = Some (Ok s) /\
    self' = postprocess self (n_rows adjacency) (n_rows a) nodes sc a s.
Proof.
  unfold fit.
  destruct (prepare self adjacency w sw fu fb permutation) as [[[a nodes] g]|e];
    [|discriminate].
  destruct (levels rt fuel fuel _ _ _) as [[s|e]|] eqn:El; try discriminate.
  intros H. injection H as <-. exists a, nodes, g, s. auto.
Qed.

Lemma prepared_count self adjacency w sw fu fb permutation a nodes g :
  csr_wf adjacency ->
  (shuffle_nodes self = true ->
   Permutation permutation (seq 0 (node_count adjacency fb))) ->
  prepare self adjacency w sw fu fb permutation = Ok (a, nodes, g) ->
  n_rows a = node_count adjacency fb /\
  Permutation nodes (seq 0 (n_rows a)).
Proof.
  intros Ha Hperm Ep.
  destruct (prepare_wf _ _ _ _ _ _ _ _ _ _ Ha Ep) as (_ & _ & _ & _ & Hna & _).
  destruct (prepare_cases _ _ _ _ _ _ _ _ _ _ Ep) as (a0 & ow & iw & E0 & Ea & En & _).
  destruct (shuffle_nodes self).
  - specialize (Hperm eq_refl).
    assert (E : n_rows a = node_count adjacency fb)
      by (rewrite Hna, (Permutation_length Hperm); apply length_seq).
    split; [exact E|]. now rewrite En, E.
  - split; [exact Hna|]. rewrite En, Ea. apply Permutation_refl.
Qed.

Lemma total_scale c m : total (scale c m) = c * total m.
Proof. unfold total, scale. cbn [data]. apply sum_map_scale. Qed.

(** *** [Louvain.fit]: the attributes it sets *)

Lemma two_triangles_wf : csr_wf two_triangles.
Proof.
  unfold two_triangles, adjacency_of. apply of_rows_wf; [reflexivity|].
  repeat constructor.
Qed.

(** X10: The number of turns reported: at least 1; at most the cap when the cap
    is at least 1; and, when the aggregation tolerance is at least 0, at
    most the number of nodes that the aggregations have removed, plus 1. *)
Theorem iteration_count_bounds rt fuel self adjacency w sw fu fb sc permutation self' :
  csr_wf adjacency ->
  (shuffle_nodes self = true ->
   Permutation permutation (seq 0 (node_count adjacency fb))) ->
  fit rt fuel self adjacency w sw fu fb sc permutation = Some (Ok self') ->
  exists k m,
    iteration_count_ self' = Some k /\
    aggregate_graph_ self' = Some m /\
    (1 <= k)%nat /\
    ((0 < max_agg_iter self)%Z -> (Z.of_nat k <= max_agg_iter self)%Z) /\
    (0 <= agg_tol self -> (k + n_rows m <= node_count adjacency fb + 1)%nat).
Proof.
  intros Ha Hperm Hfit.
  destruct (fit_cases _ _ _ _ _ _ _ _ _ _ _ Hfit) as (a & nodes & g & s & Ep & El & ->).
  destruct (prepare_wf _ _ _ _ _ _ _ _ _ _ Ha Ep) as (_ & Hg & Hn & _).
  destruct (prepared_count _ _ _ _ _ _ _ _ _ _ Ha Hperm Ep) as [Hcount _].
  pose proof (start_level_ok self a g Hg Hn) as H0.
  destruct (levels_count _ _ _ _ _ _ _ El) as [Hlt Hcap].
  cbn [iteration_count] in Hlt, Hcap.
  unfold postprocess. cbn [iteration_count_ aggregate_graph_].
  eexists. eexists. split; [reflexivity|]. split; [reflexivity|].
  split; [lia|]. split; [exact Hcap|].
  intros Hagg.
  pose proof (levels_shrink rt fuel _ (max_agg_iter self) (n_rows a) Hagg _ _ _ H0 El)
    as Hs.
  cbn [iteration_count graph] in Hs.
  destruct (levels_preserve rt fuel _ _ (n_rows a) _ _ _ H0 El) as ((_ & Hr & _) & _).
  change (n_rows (scale (total a) (norm_adjacency (graph s))))
    with (n_rows (norm_adjacency (graph s))).
  rewrite Hr. lia.
Qed.

Lemma iteration_count_bounds_witness :
  exists self' k m,
    fit ascending_runtime 7 (louvain thousandth thousandth 2 false)
      two_triangles Degree None false false true [] = Some (Ok self') /\
    iteration_count_ self' = Some k /\
    aggregate_graph_ self' = Some m /\
    (1 <= k)%nat /\ (Z.of_nat k <= 2)%Z /\ (k + n_rows m <= 6 + 1)%nat.
Proof.
  eassert (E : fit ascending_runtime 7 (louvain thousandth thousandth 2 false)
                 two_triangles Degree None false false true [] = Some (Ok _))
    by (vm_compute; reflexivity).
  destruct (iteration_count_bounds ascending_runtime 7
              (louvain thousandth thousandth 2 false) two_triangles Degree None
              false false true [] _ two_triangles_wf
              (fun H => False_ind _ (diff_false_true H)) E)
    as (k & m & H1 & H2 & H3 & H4 & H5).
  eexists. exists k, m. split; [exact E|]. split; [exact H1|]. split; [exact H2|].
  split; [exact H3|]. split; [apply H4; reflexivity|].
  apply H5. vm_compute. discriminate.
Defined.

(** *** A cap that is not positive *)

Definition with_max_agg_iter (self : Louvain) (cap : Z) : Louvain :=
  {| algorithm := algorithm self;
     agg_tol := agg_tol self;
     max_agg_iter := cap;
     shuffle_nodes := shuffle_nodes self;
     labels_ := labels_ self;
     secondary_labels_ := secondary_labels_ self;
     iteration_count_ := iteration_count_ self;
     aggregate_graph_ := aggregate_graph_ self |}.

Definition map_result {A B : Type} (f : A -> B) (r : result A) : result B :=
  match r with
  | Ok a => Ok (f a)
  | Raise e => Raise e
  end.

Lemma level_without_cap rt fuel agg cap s :
  (cap <= 0)%Z -> level rt fuel agg cap s = level rt fuel agg (-1) s.
Proof.
  intros Hcap. unfold level.
  destruct (GreedyModularity_fit rt fuel (optimizer s) (graph s)) as [[o|e]|];
    try reflexivity.
  destruct (score_ o) as [score|]; [|reflexivity].
  destruct (Optimizer.labels_ o) as [labels|]; [|reflexivity].
  destruct (Qcleb score agg); [reflexivity|].
  destruct (membership_matrix labels) as [r|]; cbn [bind]; [|reflexivity].
  destruct (dot (membership s) r) as [m|]; cbn [bind]; [|reflexivity].
  destruct (aggregate (Matrix r) None (graph s)) as [g' [[]|]]; [|reflexivity].
  destruct (Nat.eqb (n_nodes g') 1); [reflexivity|].
  destruct (Z.eqb_spec (Z.of_nat (iteration_count s + 1)) cap) as [E|_]; [lia|].
  destruct (Z.eqb_spec (Z.of_nat (iteration_count s + 1)) (-1)) as [E|_]; [lia|].
  reflexivity.
Qed.

Lemma levels_without_cap rt fuel agg cap :
  (cap <= 0)%Z ->
  forall turns s, levels rt turns fuel agg cap s = levels rt turns fuel agg (-1) s.
Proof.
  intros Hcap. induction turns as [|turns IH]; intros s; [reflexivity|].
  cbn [levels]. rewrite (level_without_cap rt fuel agg cap s Hcap).
  destruct (level rt fuel agg (-1) s) as [[[s1|s1]|e]|]; try reflexivity.
  apply IH.
Qed.

(** X11: A cap of 0 is never met, the count being 1 when it is first compared:
    with any cap that is not positive, [fit] does what it does with the
    cap -1, the stored cap apart. *)
Theorem nonpositive_cap_is_no_limit rt fuel self cap adjacency w sw fu fb sc
    permutation :
  (cap <= 0)%Z ->
  fit rt fuel (with_max_agg_iter self cap) adjacency w sw fu fb sc permutation
  = option_map (map_result (fun r => with_max_agg_iter r cap))
      (fit rt fuel (with_max_agg_iter self (-1)) adjacency w sw fu fb sc permutation).
Proof.
  intros Hcap. unfold fit.
  change (prepare (with_max_agg_iter self cap) adjacency w sw fu fb permutation)
    with (prepare self adjacency w sw fu fb permutation).
  change (prepare (with_max_agg_iter self (-1)) adjacency w sw fu fb permutation)
    with (prepare self adjacency w sw fu fb permutation).
  destruct (prepare self adjacency w sw fu fb permutation) as [[[a nodes] g]|e];
    [|reflexivity].
  cbn [agg_tol max_agg_iter algorithm with_max_agg_iter].
  rewrite (levels_without_cap rt fuel (agg_tol self) cap Hcap).
  destruct (levels rt fuel fuel (agg_tol self) (-1) _) as [[s|e]|]; reflexivity.
Qed.

Lemma nonpositive_cap_is_no_limit_witness :
  fit ascending_runtime 7 (with_max_agg_iter (louvain thousandth thousandth 2 false) 0)
    two_triangles Degree None false false true []
  = option_map (map_result (fun r => with_max_agg_iter r 0))
      (fit ascending_runtime 7
         (with_max_agg_iter (louvain thousandth thousandth 2 false) (-1))
         two_triangles Degree None false false true []).
Proof.
  apply (nonpositive_cap_is_no_limit ascending_runtime 7
           (louvain thousandth thousandth 2 false) 0). lia.
Defined.

(** *** Labels of the columns *)

(** X12: On a square input that is not forced to be a biadjacency, [fit] does
    not write [secondary_labels_]: the attribute keeps the value it had
    before the call. *)
Theorem fit_keeps_secondary_labels_of_square_input rt fuel self adjacency w sw fu fb sc
    permutation self' :
  csr_wf adjacency ->
  (shuffle_nodes self = true ->
   Permutation permutation (seq 0 (node_count adjacency fb))) ->
  bipartite adjacency fb = false ->
  fit rt fuel self adjacency w sw fu fb sc permutation = Some (Ok self') ->
  secondary_labels_ self' = secondary_labels_ self.
Proof.
  intros Ha Hperm Hb Hfit.
  destruct (fit_cases _ _ _ _ _ _ _ _ _ _ _ Hfit) as (a & nodes & g & s & Ep & El & ->).
  destruct (prepared_count _ _ _ _ _ _ _ _ _ _ Ha Hperm Ep) as [Hcount _].
  unfold node_count in Hcount. rewrite Hb in Hcount.
  unfold postprocess. cbn [secondary_labels_]. rewrite Hcount.
  now rewrite Nat.ltb_irrefl.
Qed.

(** A driver that was fitted before on a biadjacency. *)
Definition fitted_before : Louvain :=
  {| algorithm := python_optimizer 1 thousandth; agg_tol := thousandth;
     max_agg_iter := (-1)%Z; shuffle_nodes := false;
     labels_ := Some [0; 0; 1]%nat; secondary_labels_ := Some [0; 1]%nat;
     iteration_count_ := Some 2%nat; aggregate_graph_ := None |}.

Lemma fit_keeps_secondary_labels_of_square_input_witness :
  exists self',
    fit ascending_runtime 7 fitted_before triangle Degree None false false true []
    = Some (Ok self') /\
    secondary_labels_ self' = Some [0; 1]%nat.
Proof.
  eassert (E : fit ascending_runtime 7 fitted_before triangle Degree None false false
                 true [] = Some (Ok _)) by (vm_compute; reflexivity).
  eexists. split; [exact E|].
  exact (fit_keeps_secondary_labels_of_square_input ascending_runtime 7 fitted_before
           triangle Degree None false false true [] _ triangle_wf
           (fun H => False_ind _ (diff_false_true H)) eq_refl E).
Defined.

(** *** [Louvain.fit]: the aggregate graph *)

(** X13: [aggregate_graph_] is a square matrix that carries the total weight of
    the adjacency the loop was started from; on a square input that is
    neither forced to be a biadjacency nor made undirected, this is the
    total weight of the input, shuffled or not. *)
Theorem aggregate_graph_keeps_total_weight rt fuel self adjacency w sw fu fb sc
    permutation self' :
  csr_wf adjacency ->
  (shuffle_nodes self = true ->
   Permutation permutation (seq 0 (node_count adjacency fb))) ->
  fit rt fuel self adjacency w sw fu fb sc permutation = Some (Ok self') ->
  exists a nodes g m,
    prepare self adjacency w sw fu fb permutation = Ok (a, nodes, g) /\
    aggregate_graph_ self' = Some m /\
    n_rows m = n_cols m /\
    total m = total a /\
    (bipartite adjacency fb = false -> fu = false -> total m = total adjacency).
Proof.
  intros Ha Hperm Hfit.
  destruct (fit_cases _ _ _ _ _ _ _ _ _ _ _ Hfit) as (a & nodes & g & s & Ep & El & ->).
  pose proof (start_loop_ok _ _ _ _ _ _ _ _ _ _ Ha Ep) as H0.
  destruct (levels_keep rt fuel _ _ (n_rows a) _ _ _ H0 El)
    as (((_ & Hr & Hc & _) & _) & Htot & _).
  exists a, nodes, g. eexists. split; [exact Ep|].
  unfold postprocess. cbn [aggregate_graph_]. split; [reflexivity|].
  assert (Et : total (scale (total a) (norm_adjacency (graph s))) = total a)
    by (rewrite total_scale, Htot; ring).
  split; [|split; [exact Et|]].
  - change (n_rows (norm_adjacency (graph s)) = n_cols (norm_adjacency (graph s))).
    congruence.
  - intros Hb Hfu. rewrite Et.
    destruct (prepare_cases _ _ _ _ _ _ _ _ _ _ Ep) as (a0 & ow & iw & E0 & Ea & _ & _).
    assert (Ea0 : a0 = adjacency).
    { revert E0. unfold preprocess, check_format. cbv zeta.
      unfold bipartite in Hb. rewrite Hb, Hfu. intros H. now injection H as <- _ _. }
    rewrite Ea, Ea0. destruct (shuffle_nodes self) eqn:Es; [|reflexivity].
    assert (Hsq : n_rows adjacency = n_cols adjacency).
    { unfold bipartite in Hb. apply orb_false_iff in Hb. destruct Hb as [Hb _].
      now apply negb_false_iff, Nat.eqb_eq in Hb. }
    apply total_reorder; [exact Ha | exact Hsq|].
    specialize (Hperm eq_refl). unfold node_count in Hperm.
    unfold bipartite in Hperm, Hb. now rewrite Hb in Hperm.
Qed.

Lemma aggregate_graph_keeps_total_weight_witness :
  exists self' m,
    fit ascending_runtime 7 (louvain thousandth thousandth 2 false)
      two_triangles Degree None false false true [] = Some (Ok self') /\
    aggregate_graph_ self' = Some m /\
    n_rows m = n_cols m /\
    total m = total two_triangles.
Proof.
  eassert (E : fit ascending_runtime 7 (louvain thousandth thousandth 2 false)
                 two_triangles Degree None false false true [] = Some (Ok _))
    by (vm_compute; reflexivity).
  destruct (aggregate_graph_keeps_total_weight ascending_runtime 7
              (louvain thousandth thousandth 2 false) two_triangles Degree None
              false false true [] _ two_triangles_wf
              (fun H => False_ind _ (diff_false_true H)) E)
    as (a & nodes & g & m & _ & H2 & H3 & _ & H5).
  eexists. exists m. split; [exact E|]. split; [exact H2|]. split; [exact H3|].
  apply H5; reflexivity.
Defined.

(** *** [Louvain.fit]: the labels and the nodes of the aggregate graph *)

Lemma concat_singletons {A} (f : nat -> list A) (d : A) k :
  (forall i, (i < k)%nat -> length (f i) = 1%nat) ->
  concat (map f (seq 0 k)) = map (fun i => hd d (f i)) (seq 0 k).
Proof.
  induction k as [|k IH]; intros H; [reflexivity|].
  rewrite seq_S, !map_app, concat_app, IH by (intros; apply H; lia).
  cbn [Nat.add map concat]. rewrite app_nil_r. f_equal.
  specialize (H k (Nat.lt_succ_diag_r k)).
  destruct (f k) as [|x [|y t]]; try discriminate. reflexivity.
Qed.

(** The stored column indices of an assignment are the clusters of the
    nodes, in the order of the nodes. *)
Lemma assignment_labels n m i :
  csr_wf m -> assignment n m -> (i < n)%nat ->
  row m i = [(nth i (indices m) 0%nat, 1)].
Proof.
  intros [E _] [Hn Hm] Hi.
  assert (Ei : indices m
               = map fst (map (fun i => hd (0%nat, 0) (row m i)) (seq 0 n))).
  { rewrite E at 1. unfold of_rows. cbn [indices]. unfold rows. rewrite Hn.
    f_equal. apply concat_singletons.
    intros k Hk. destruct (Hm k Hk) as [c [_ ->]]. reflexivity. }
  rewrite Ei, map_map.
  rewrite nth_map_in with (d' := 0%nat) by now rewrite length_seq.
  rewrite seq_nth by exact Hi. cbn [Nat.add].
  destruct (Hm i Hi) as [c [_ ->]]. reflexivity.
Qed.




(** *** A graph without edges between distinct nodes *)

(** Every stored entry is on the diagonal. *)
Definition self_loops_only (m : csr_matrix) : Prop :=
  forall i e, (i < n_rows m)%nat -> In e (row m i) -> fst e = i.

Lemma init_rows a ow iw g i :
  init a ow iw = Ok g ->
  row (norm_adjacency g) i = map (fun e => (fst e, snd e / total a)) (row a i).
Proof.
  unfold init.
  destruct (divide a (total a)) as [na|] eqn:D; [|discriminate].
  destruct (check_probs ow a); [|discriminate]. cbn [bind].
  destruct (check_in_probs iw a); [|discriminate]. cbn [bind].
  intros H. injection H as <-. cbn [norm_adjacency].
  exact (divide_rows _ _ _ i D).
Qed.

Lemma greedy_visit_still adjacency res o p S i st :
  (forall e, In e (row adjacency i) -> fst e = i) ->
  greedy_visit adjacency res o p S i st = st.
Proof.
  intros Hd.
  destruct (greedy_visit_outcome adjacency res o p S st i)
    as [[_ E] | (B & [Hne [e [He HB]]] & _)]; [exact E|].
  exfalso. apply Hne. rewrite <- HB. now rewrite (Hd e He).
Qed.

Section Still.

Variable n : nat.
Variable visit : nat -> sweep_state -> sweep_state.
Variable ok : sweep_state -> Prop.
Hypothesis visit_still : forall x st, ok st -> (x < n)%nat -> visit x st = st.

Lemma visits_still nodes st :
  ok st -> Forall (fun x => (x < n)%nat) nodes ->
  fold_left (fun s node => visit node s) nodes st = st.
Proof.
  intros Hst. induction nodes as [|x t IH]; intros Hn; [reflexivity|].
  apply Forall_cons_iff in Hn. destruct Hn as [Hx Ht]. cbn [fold_left].
  rewrite (visit_still x st Hst Hx). now apply IH.
Qed.

Lemma sweeps_still tol fuel st :
  0 <= tol -> ok st -> pass_increase st = 0 ->
  sweeps tol n visit (Datatypes.S fuel) st 0 = Some (labels st, 0 + 0).
Proof.
  intros Htol Hst Hp. cbn [sweeps].
  assert (E : sweep n visit st = st).
  { unfold sweep. rewrite <- Hp.
    replace {| labels := labels st; out_clusters_weights := out_clusters_weights st;
               in_clusters_weights := in_clusters_weights st;
               pass_increase := pass_increase st |} with st by now destruct st.
    apply visits_still; [exact Hst|].
    rewrite Forall_forall. intros x Hx. apply in_seq in Hx. lia. }
  rewrite E, Hp.
  assert (F : Qcltb tol 0 = false) by now apply Qcltb_ge.
  now rewrite F.
Qed.

End Still.

Lemma fit_on_self_loops rt fuel self g :
  graph_wf g -> self_loops_only (norm_adjacency g) ->
  0 <= tol self -> engine self <> Default ->
  GreedyModularity_fit rt (Datatypes.S fuel) self g
  = Some (Ok {| resolution := resolution self; tol := tol self; engine := engine self;
                score_ := Some (0 + 0);
                Optimizer.labels_ := Some (seq 0 (n_nodes g)) |}).
Proof.
  intros Hg Hd Htol He.
  pose proof (proxy_ok g Hg) as Hp.
  set (adjacency := of_rows (shape (norm_adjacency g)) (proxy_rows (norm_adjacency g)))
    in Hp.
  destruct (engine_visit rt self g adjacency) as [visit|] eqn:Hv.
  2:{ unfold engine_visit in Hv. destruct (engine self); congruence. }
  assert (Hrows : n_rows (norm_adjacency g) = n_nodes g)
    by now destruct Hg as (_ & Hr & _).
  assert (Hdiag : forall i e, (i < n_nodes g)%nat -> In e (row adjacency i) -> fst e = i).
  { intros i e Hi He'.
    destruct (proxy_row_from g adjacency i e Hg Hp Hi He')
      as [[e' [He1 E]] | [Hk [e' [He1 E]]]].
    - rewrite <- E. apply (Hd i e'); [now rewrite Hrows | exact He1].
    - rewrite <- E. symmetry. apply (Hd (fst e) e'); [now rewrite Hrows | exact He1]. }
  assert (Hstill : forall x st,
     state_ok (out_probs g) (in_node_probs_of g) (n_nodes g) st ->
     (x < n_nodes g)%nat -> visit x st = st).
  { intros x st Hst Hx.
    rewrite (engine_visit_greedy rt self g adjacency visit Hg Hp Hv x st Hst Hx).
    apply greedy_visit_still. intros e He'. now apply Hdiag. }
  unfold GreedyModularity_fit. rewrite Hp, engine_sweeps_visit, Hv. cbn [option_map].
  rewrite (sweeps_still (n_nodes g) visit _ Hstill (tol self) fuel (start g) Htol
             (start_ok g Hg) eq_refl).
  cbn [start initial_state labels]. now rewrite unique_inverse_seq.
Qed.

Lemma identity_indices n : indices (identity n) = seq 0 n.
Proof. unfold identity, of_rows. cbn [indices]. apply singletons_indices. Qed.

(** X15: A square adjacency whose stored entries are all on the diagonal: as
    soon as the graph can be built, [fit] ends after one turn of the loop,
    at the first sweep, with every node alone in its cluster. *)
Theorem self_loops_only_keeps_nodes_apart rt fuel self adjacency w g permutation :
  csr_wf adjacency -> n_rows adjacency = n_cols adjacency ->
  self_loops_only adjacency ->
  shuffle_nodes self = false ->
  0 <= agg_tol self -> 0 <= tol (algorithm self) -> engine (algorithm self) <> Default ->
  init adjacency w (Some w) = Ok g ->
  (1 <= fuel)%nat ->
  exists self',
    fit rt fuel self adjacency w None false false false permutation = Some (Ok self') /\
    labels_ self' = Some (seq 0 (n_rows adjacency)) /\
    iteration_count_ self' = Some 1%nat.
Proof.
  intros Ha Hsq Hd Hsh Hagg Htol He Hinit Hfuel.
  destruct (init_wf adjacency w w g Ha Hsq Hinit) as [Hg Hn].
  assert (Hgd : self_loops_only (norm_adjacency g)).
  { intros i e Hi He'. rewrite (init_rows _ _ _ _ i Hinit) in He'.
    apply in_map_iff in He'. destruct He' as [e0 [<- He0]]. cbn [fst].
    apply (Hd i e0); [|exact He0].
    destruct Hg as (_ & Hr & _). congruence. }
  assert (Ep : prepare self adjacency w None false false permutation
               = Ok (adjacency, seq 0 (n_rows adjacency), g)).
  { assert (Eq : Nat.eqb (n_rows adjacency) (n_cols adjacency) = true)
      by now apply Nat.eqb_eq.
    unfold prepare, preprocess, check_format. cbv zeta.
    rewrite Eq. cbn [negb orb bind]. rewrite Hsh, Hinit. reflexivity. }
  destruct fuel as [|fuel]; [lia|].
  unfold fit. rewrite Ep. cbn [levels]. unfold level. cbn [optimizer graph].
  rewrite (fit_on_self_loops rt fuel (algorithm self) g Hg Hgd Htol He).
  cbn [score_ Optimizer.labels_].
  assert (E0 : Qcleb (0 + 0) (agg_tol self) = true)
    by (apply Qcleb_le; now rewrite Qcplus_0_r).
  rewrite E0. eexists. split; [reflexivity|].
  unfold postprocess. cbn [labels_ iteration_count_ membership iteration_count].
  rewrite Hsh, Nat.ltb_irrefl, identity_indices. split; reflexivity.
Qed.

Lemma identity3_wf : csr_wf (identity 3).
Proof. apply identity_wf. Qed.

Lemma self_loops_only_keeps_nodes_apart_witness :
  exists self',
    fit ascending_runtime 1 (louvain thousandth thousandth (-1) false)
      (identity 3) Degree None false false false [] = Some (Ok self') /\
    labels_ self' = Some [0; 1; 2]%nat /\
    iteration_count_ self' = Some 1%nat.
Proof.
  eassert (E : init (identity 3) Degree (Some Degree) = Ok _)
    by (vm_compute; reflexivity).
  refine (self_loops_only_keeps_nodes_apart ascending_runtime 1
            (louvain thousandth thousandth (-1) false) (identity 3) Degree _ []
            identity3_wf eq_refl _ eq_refl _ _ _ E (Nat.le_refl 1)).
  - intros i e Hi He. change (n_rows (identity 3)) with 3%nat in Hi.
    destruct i as [|[|[|i]]]; [| | |lia]; vm_compute in He;
      destruct He as [<-|[]]; reflexivity.
  - vm_compute. discriminate.
  - vm_compute. discriminate.
  - discriminate.
Defined.

(** *** Aggregation keeps the quality of a labeling *)

Definition ind (b : bool) : Qc := if b then 1 else 0.

Lemma ind_if (b : bool) (x : Qc) : (if b then x else 0) = ind b * x.
Proof. destruct b; unfold ind; ring. Qed.

(** Summing over the clusters and then over their members is summing over
    the nodes. *)
Lemma regroup k n (l : nat -> nat) (f : nat -> nat -> Qc) :
  (forall i, (i < n)%nat -> (l i < k)%nat) ->
  sumn k (fun c => sumn n (fun i => ind (Nat.eqb (l i) c) * f c i))
  = sumn n (fun i => f (l i) i).
Proof.
  intros Hl. rewrite sumn_swap. apply sumn_ext. intros i Hi.
  rewrite (sumn_ext k _ (fun c => if Nat.eqb c (l i) then f (l i) i else 0)).
  - apply sumn_single. now apply Hl.
  - intros c _. rewrite (Nat.eqb_sym (l i) c).
    destruct (Nat.eqb_spec c (l i)) as [->|]; unfold ind; ring.
Qed.

Lemma sumn_times n m (x y : nat -> Qc) :
  sumn n x * sumn m y = sumn n (fun i => sumn m (fun j => x i * y j)).
Proof.
  rewrite Qcmult_comm, <- sumn_scale. apply sumn_ext. intros i _.
  rewrite Qcmult_comm, <- sumn_scale. reflexivity.
Qed.

(** The terms of the quality. *)
Definition kernel (g : AggregateGraph) (res : Qc) (i j : nat) : Qc :=
  row_at (row (norm_adjacency g) i) j
  - res * (nth i (out_probs g) 0 * nth j (in_node_probs_of g) 0).

Lemma quality_kernel g res lab :
  quality g res lab = pair_sum (n_nodes g) (kernel g res) lab.
Proof. reflexivity. Qed.

Lemma in_node_probs_aggregated g r :
  in_node_probs_of (aggregated g r r)
  = product_vec (transpose r) (in_node_probs_of g).
Proof.
  unfold in_node_probs_of, aggregated. cbn [in_probs out_probs].
  destruct (in_probs g); reflexivity.
Qed.

Section Aggregated.

Variable g : AggregateGraph.
Variable r : csr_matrix.
Variable l : list nat.
Variable res : Qc.

Hypothesis g_wf : graph_wf g.
Hypothesis r_rows : n_rows r = n_nodes g.
Hypothesis l_length : length l = n_nodes g.
Hypothesis r_row : forall i, (i < n_nodes g)%nat -> row r i = [(nth i l 0%nat, 1)].
Hypothesis l_bound : forall i, (i < n_nodes g)%nat -> (nth i l 0 < n_cols r)%nat.

Lemma membership_entry i c :
  (i < n_nodes g)%nat -> row_at (row r i) c = ind (Nat.eqb (nth i l 0%nat) c).
Proof. intros Hi. rewrite r_row by exact Hi. apply row_at_single. Qed.

Lemma kernel_aggregated c d :
  (c < n_cols r)%nat -> (d < n_cols r)%nat ->
  kernel (aggregated g r r) res c d
  = sumn (n_nodes g) (fun i => sumn (n_nodes g) (fun j =>
      ind (Nat.eqb (nth i l 0%nat) c) * (ind (Nat.eqb (nth j l 0%nat) d)
                                         * kernel g res i j))).
Proof.
  intros Hc Hd. destruct g_wf as (Hwf & Hnr & Hnc & _).
  unfold kernel at 1. rewrite in_node_probs_aggregated.
  unfold aggregated. cbn [norm_adjacency out_probs].
  rewrite row_at_transpose_product by exact Hc.
  rewrite !(nth_product_vec_transpose (n_nodes g)) by assumption.
  rewrite r_rows, sumn_times.
  rewrite <- sumn_scale, <- sumn_minus. apply sumn_ext. intros i Hi.
  rewrite row_at_product by (assumption || lia). rewrite Hnc.
  rewrite <- !sumn_scale, <- sumn_minus. apply sumn_ext. intros j Hj.
  rewrite !membership_entry by assumption. unfold kernel. ring.
Qed.

Lemma quality_aggregated lab' :
  quality (aggregated g r r) res lab'
  = quality g res (map (fun c => nth c lab' 0%nat) l).
Proof.
  rewrite !quality_kernel. unfold pair_sum.
  change (n_nodes (aggregated g r r)) with (n_cols r).
  set (same := fun c d => ind (Nat.eqb (nth c lab' 0%nat) (nth d lab' 0%nat))).
  (* the right-hand side, over the nodes *)
  assert (Hmap : forall i, (i < n_nodes g)%nat ->
            nth i (map (fun c => nth c lab' 0%nat) l) 0%nat
            = nth (nth i l 0%nat) lab' 0%nat).
  { intros i Hi.
    exact (nth_map_in (fun c => nth c lab' 0%nat) l i 0%nat 0%nat
             ltac:(now rewrite l_length)). }
  transitivity (sumn (n_nodes g) (fun i => sumn (n_nodes g) (fun j =>
                  same (nth i l 0%nat) (nth j l 0%nat) * kernel g res i j))).
  2:{ apply sumn_ext. intros i Hi. apply sumn_ext. intros j Hj.
      rewrite !Hmap by assumption. unfold same. now rewrite ind_if. }
  (* the left-hand side, over the clusters *)
  rewrite (sumn_ext (n_cols r) _
    (fun c => sumn (n_nodes g) (fun i =>
       ind (Nat.eqb (nth i l 0%nat) c)
       * sumn (n_nodes g) (fun j =>
           same c (nth j l 0%nat) * kernel g res i j)))).
  - rewrite (regroup (n_cols r) (n_nodes g) (fun i => nth i l 0%nat)
               (fun c i => sumn (n_nodes g)
                             (fun j => same c (nth j l 0%nat) * kernel g res i j)))
      by exact l_bound.
    reflexivity.
  - intros c Hc.
    rewrite (sumn_ext (n_cols r) _
      (fun d => sumn (n_nodes g) (fun i => sumn (n_nodes g) (fun j =>
         ind (Nat.eqb (nth j l 0%nat) d)
         * (ind (Nat.eqb (nth i l 0%nat) c) * (same c d * kernel g res i j)))))).
    + rewrite sumn_swap. apply sumn_ext. intros i Hi.
      rewrite (regroup (n_cols r) (n_nodes g) (fun j => nth j l 0%nat)
                 (fun d j => ind (Nat.eqb (nth i l 0%nat) c)
                             * (same c d * kernel g res i j)))
        by exact l_bound.
      rewrite <- sumn_scale. reflexivity.
    + intros d Hd. rewrite ind_if, kernel_aggregated by assumption.
      fold (same c d). rewrite <- sumn_scale. apply sumn_ext. intros i Hi.
      rewrite <- sumn_scale. apply sumn_ext. intros j Hj. ring.
Qed.

End Aggregated.

(** *** The quality of the labels along the loop *)

(** The labeling of the nodes of a coarser graph, read on the nodes it was
    aggregated from. *)
Definition relabel (lab : list nat) (clusters : list nat) : list nat :=
  map (fun c => nth c lab 0%nat) clusters.

Lemma nth_relabel lab clusters i :
  (i < length clusters)%nat ->
  nth i (relabel lab clusters) 0%nat = nth (nth i clusters 0%nat) lab 0%nat.
Proof.
  intros Hi. exact (nth_map_in (fun c => nth c lab 0%nat) clusters i 0%nat 0%nat Hi).
Qed.

Lemma quality_same_partition g res lab lab' :
  (forall i, (i < n_nodes g)%nat -> nth i lab 0%nat = nth i lab' 0%nat) ->
  quality g res lab = quality g res lab'.
Proof.
  intros H. unfold quality. apply pair_sum_ext; [|reflexivity].
  intros i j Hi Hj. now rewrite (H i Hi), (H j Hj).
Qed.

Section AlongTheLoop.

Variable g0 : AggregateGraph.
Variable res : Qc.

Let n0 := n_nodes g0.

Definition quality_ok (s : level_state) : Prop :=
  resolution (optimizer s) = res /\
  (forall lab, quality (graph s) res lab
               = quality g0 res (relabel lab (indices (membership s)))) /\
  quality g0 res (seq 0 n0) <= quality g0 res (indices (membership s)).

Lemma assignment_label_bound n m i :
  csr_wf m -> assignment n m -> (i < n)%nat ->
  (nth i (indices m) 0 < n_cols m)%nat.
Proof.
  intros Hw Ha Hi. destruct (proj2 Ha i Hi) as [c [Hc E]].
  rewrite (assignment_labels n m i Hw Ha Hi) in E. now injection E as ->.
Qed.

Lemma level_quality rt fuel agg cap s t :
  level_ok n0 s -> quality_ok s ->
  level rt fuel agg cap s = Some (Ok t) ->
  quality_ok (ending t).
Proof.
  intros Hok (Hres & Hread & Hup) Hl.
  pose proof (level_preserves rt fuel agg cap n0 s t Hok Hl) as Hok'.
  destruct (level_cases rt fuel agg cap n0 s t Hok Hl)
    as (o & score & lab & Hfit & Es & Eu & Hlen & _ & Hcase).
  destruct Hok as (Hg & Hmw & Hma & Hmc).
  destruct (fit_increase rt fuel _ _ Hg o Hfit)
    as (lab2 & score2 & Eo & Hl2 & Hpos & Hq & _).
  assert (Ero : resolution o = res) by (rewrite Eo; exact Hres).
  assert (Eu2 : unique_inverse lab = unique_inverse lab2).
  { rewrite Eo in Eu. cbn [Optimizer.labels_] in Eu. now injection Eu. }
  clear Es.
  pose proof (assignment_indices _ _ Hmw Hma) as Hli.
  destruct Hcase as [[_ ->] | (_ & r & Er & Hrw & Ar & Hrc & Hrow & Et & _)].
  - unfold quality_ok. cbn [ending optimizer graph membership].
    split; [exact Ero|]. now split.
  - rewrite Et in Hok' |- *. destruct Hok' as (Hg' & Hmw' & Hma' & Hmc').
    cbn [graph membership] in Hg', Hmw', Hma', Hmc'.
    set (l := unique_inverse lab) in *.
    assert (Hll : length l = n_nodes (graph s))
      by (unfold l; now rewrite unique_inverse_length).
    assert (Hlb : forall i, (i < n_nodes (graph s))%nat -> (nth i l 0 < n_cols r)%nat).
    { intros i Hi. destruct (proj2 Ar i Hi) as [c [Hc E]].
      rewrite (Hrow i Hi) in E. now injection E as ->. }
    pose proof (assignment_indices _ _ Hmw' Hma') as Hli'.
    assert (Hidx : forall i, (i < n0)%nat ->
              nth i (indices (product (membership s) r)) 0%nat
              = nth (nth i (indices (membership s)) 0%nat) l 0%nat).
    { intros i Hi.
      pose proof (assignment_label_bound n0 _ i Hmw Hma Hi) as Hc. rewrite Hmc in Hc.
      pose proof (product_single (membership s) r i _ _
                    ltac:(now rewrite (proj1 Hma))
                    (assignment_labels n0 _ i Hmw Hma Hi) (Hrow _ Hc)) as E.
      rewrite (assignment_labels n0 _ i Hmw' Hma' Hi) in E. now injection E. }
    assert (Hagg : forall lab',
              quality (aggregated (graph s) r r) res lab'
              = quality g0 res (relabel lab' (indices (product (membership s) r)))).
    { intros lab'.
      rewrite (quality_aggregated (graph s) r l res Hg (proj1 Ar) Hll Hrow Hlb).
      rewrite Hread. apply quality_same_partition. intros i Hi. fold n0 in Hi.
      rewrite !nth_relabel by lia. rewrite Hidx by exact Hi.
      unfold relabel.
      apply (nth_map_in (fun c => nth c lab' 0%nat) l _ 0%nat 0%nat).
      rewrite Hll, <- Hmc. now apply (assignment_label_bound n0). }
    unfold quality_ok. cbn [optimizer graph membership].
    split; [exact Ero|]. split; [exact Hagg|].
    apply Qcle_trans with (quality g0 res (indices (membership s))); [exact Hup|].
    (* the labeling before the turn, as the singletons of the graph of the turn *)
    assert (E1 : quality g0 res (indices (membership s))
                 = quality (graph s) res (seq 0 (n_nodes (graph s)))).
    { rewrite Hread. apply quality_same_partition. intros i Hi. fold n0 in Hi.
      rewrite nth_relabel by lia. symmetry. apply seq_nth0.
      rewrite <- Hmc. now apply (assignment_label_bound n0). }
    (* the labeling after the turn, as the labels found in the turn *)
    assert (E2 : quality g0 res (indices (product (membership s) r))
                 = quality (graph s) res l).
    { rewrite Hread. apply quality_same_partition. intros i Hi. fold n0 in Hi.
      rewrite nth_relabel by lia. now apply Hidx. }
    rewrite E1, E2, Eu2.
    rewrite (quality_unique_inverse _ _ lab2 Hl2).
    rewrite Hres in Hq. rewrite Hq. now apply Qcle_plus_nonneg.
Qed.

Lemma levels_quality rt fuel agg cap : forall turns s s',
  level_ok n0 s -> quality_ok s ->
  levels rt turns fuel agg cap s = Some (Ok s') ->
  quality_ok s'.
Proof.
  induction turns as [|turns IH]; intros s s' Hs Hq H; [discriminate|].
  cbn [levels] in H.
  destruct (level rt fuel agg cap s) as [[[s1|s1]|e]|] eqn:El; try discriminate.
  - apply (IH s1 s'); [| |exact H].
    + exact (level_preserves rt fuel agg cap n0 s _ Hs El).
    + exact (level_quality rt fuel agg cap s _ Hs Hq El).
  - injection H as <-. exact (level_quality rt fuel agg cap s _ Hs Hq El).
Qed.

Lemma start_quality_ok o :
  resolution o = res ->
  quality_ok {| optimizer := o; graph := g0; membership := identity n0;
                iteration_count := 0 |}.
Proof.
  intros Hr. split; [exact Hr|]. cbn [graph membership].
  rewrite identity_indices. split; [|apply Qcle_refl].
  intros lab. apply quality_same_partition. intros i Hi. fold n0 in Hi.
  rewrite nth_relabel by now rewrite length_seq.
  now rewrite seq_nth0.
Qed.

End AlongTheLoop.

(** X16: Without shuffle and without the final sort by size, the labels that
    [fit] reports never have a lower quality, on the graph the loop was
    started from, than the labeling in which every node is alone. *)
Theorem fit_never_lowers_quality rt fuel self adjacency w sw fu fb permutation self' :
  csr_wf adjacency ->
  shuffle_nodes self = false ->
  fit rt fuel self adjacency w sw fu fb false permutation = Some (Ok self') ->
  exists a nodes g labels,
    prepare self adjacency w sw fu fb permutation = Ok (a, nodes, g) /\
    labels_ self' = Some labels /\
    quality g (resolution (algorithm self)) (seq 0 (n_nodes g))
    <= quality g (resolution (algorithm self))
         (labels ++ (if bipartite adjacency fb
                     then match secondary_labels_ self' with
                          | Some secondary => secondary
                          | None => []
                          end
                     else [])).
Proof.
  intros Ha Hsh Hfit.
  destruct (fit_cases _ _ _ _ _ _ _ _ _ _ _ Hfit) as (a & nodes & g & s & Ep & El & ->).
  destruct (prepare_wf _ _ _ _ _ _ _ _ _ _ Ha Ep) as (_ & Hg & Hn & _).
  pose proof (start_level_ok self a g Hg Hn) as H0. rewrite <- Hn in H0, El.
  destruct (levels_quality g (resolution (algorithm self)) rt fuel _ _ _ _ _ H0
              (start_quality_ok g _ _ eq_refl) El) as (_ & _ & Hup).
  assert (Hperm : shuffle_nodes self = true ->
                  Permutation permutation (seq 0 (node_count adjacency fb)))
    by (rewrite Hsh; discriminate).
  destruct (prepared_count _ _ _ _ _ _ _ _ _ _ Ha Hperm Ep) as [Hcount _].
  exists a, nodes, g. eexists. split; [exact Ep|].
  unfold postprocess. cbn [labels_ secondary_labels_]. rewrite Hsh.
  split; [reflexivity|].
  unfold node_count in Hcount.
  destruct (bipartite adjacency fb) eqn:Hb.
  - pose proof (prepare_columns _ _ _ _ _ _ _ _ Ha Hb Ep) as Hpos.
    assert (Hlt : Nat.ltb (n_rows adjacency) (n_rows a) = true)
      by (apply Nat.ltb_lt; lia).
    rewrite Hlt. now rewrite firstn_skipn.
  - assert (Hlt : Nat.ltb (n_rows adjacency) (n_rows a) = false)
      by (apply Nat.ltb_ge; lia).
    rewrite Hlt. now rewrite app_nil_r.
Qed.

Lemma fit_never_lowers_quality_witness :
  exists self' a nodes g labels,
    fit ascending_runtime 7 (louvain thousandth thousandth 2 false)
      two_triangles Degree None false false false [] = Some (Ok self') /\
    prepare (louvain thousandth thousandth 2 false) two_triangles Degree None
      false false [] = Ok (a, nodes, g) /\
    labels_ self' = Some labels /\
    quality g 1 (seq 0 (n_nodes g)) <= quality g 1 (labels ++ []).
Proof.
  eassert (E : fit ascending_runtime 7 (louvain thousandth thousandth 2 false)
                 two_triangles Degree None false false false [] = Some (Ok _))
    by (vm_compute; reflexivity).
  destruct (fit_never_lowers_quality ascending_runtime 7
              (louvain thousandth thousandth 2 false) two_triangles Degree None
              false false [] _ two_triangles_wf eq_refl E)
    as (a & nodes & g & labels & H1 & H2 & H3).
  eexists. exists a, nodes, g, labels.
  split; [exact E|]. split; [exact H1|]. split; [exact H2 | exact H3].
Defined.

(** *** [GreedyModularity.fit] returns *)



(** *** One turn of the loop *)

Lemma identity_product_indices n r labels :
  csr_wf r ->
  n_rows r = n -> length labels = n ->
  (forall i, (i < n)%nat -> row r i = [(nth i labels 0%nat, 1)]) ->
  assignment n r ->
  indices (product (identity n) r) = labels.
Proof.
  intros Hw Hn Hl Hrow Ar.
  assert (Am : assignment n (product (identity n) r)).
  { apply product_assignment; [apply identity_assignment|].
    now rewrite (proj2 (identity_assignment n)). }
  assert (Wm : csr_wf (product (identity n) r)).
  { apply dot_wf; [apply wf_cols_ok, identity_wf | now apply wf_cols_ok |].
    now rewrite (proj2 (identity_assignment n)). }
  apply nth_ext with (d := 0%nat) (d' := 0%nat).
  - now rewrite (assignment_indices n _ Wm Am).
  - intros i Hi. rewrite (assignment_indices n _ Wm Am) in Hi.
    assert (Ei : row (identity n) i = [(i, 1)]).
    { unfold identity. rewrite row_of_rows by now rewrite length_map, length_seq.
      rewrite nth_map_in with (d' := 0%nat) by now rewrite length_seq.
      now rewrite seq_nth. }
    pose proof (product_single (identity n) r i i _ Hi Ei (Hrow i Hi)) as E.
    rewrite (assignment_labels n _ i Wm Am Hi) in E. now injection E.
Qed.

Lemma levels_first rt turns fuel agg cap s s' :
  (1 <= turns)%nat ->
  level rt fuel agg cap s = Some (Ok (Leave s')) ->
  levels rt turns fuel agg cap s = Some (Ok s').
Proof.
  intros Ht H. destruct turns as [|turns]; [lia|]. cbn [levels]. now rewrite H.
Qed.

Lemma fit_needs_fuel rt fuel self g o :
  GreedyModularity_fit rt fuel self g = Some (Ok o) -> (1 <= fuel)%nat.
Proof.
  destruct fuel as [|fuel]; [|lia]. unfold GreedyModularity_fit.
  destruct (proxy g) as [adj|]; [|discriminate].
  rewrite engine_sweeps_visit.
  destruct (engine_visit rt self g adj); cbn [option_map sweeps]; discriminate.
Qed.

(** X18: With a cap of 1 the loop makes one turn.  Without shuffle and without
    the final sort, a square input is given the labels the optimizer found
    on the graph built from it when its score is above the aggregation
    tolerance; otherwise these labels are dropped, whatever the score, and
    every node is reported alone. *)
Theorem single_turn_reports_optimizer_labels rt fuel self adjacency w sw fu permutation
    a nodes g o score found :
  csr_wf adjacency ->
  bipartite adjacency false = false ->
  shuffle_nodes self = false ->
  max_agg_iter self = 1%Z ->
  prepare self adjacency w sw fu false permutation = Ok (a, nodes, g) ->
  GreedyModularity_fit rt fuel (algorithm self) g = Some (Ok o) ->
  score_ o = Some score ->
  Optimizer.labels_ o = Some found ->
  exists self',
    fit rt fuel self adjacency w sw fu false false permutation = Some (Ok self') /\
    iteration_count_ self' = Some 1%nat /\
    labels_ self' = Some (if Qcleb score (agg_tol self)
                          then seq 0 (n_rows adjacency) else found).
Proof.
  intros Ha Hb Hsh Hcap Ep Hfit Es Ef.
  destruct (prepare_wf _ _ _ _ _ _ _ _ _ _ Ha Ep) as (Hwa & Hg & Hn & _ & _ & Ht).
  assert (Hperm : shuffle_nodes self = true ->
                  Permutation permutation (seq 0 (node_count adjacency false)))
    by (rewrite Hsh; discriminate).
  destruct (prepared_count _ _ _ _ _ _ _ _ _ _ Ha Hperm Ep) as [Hcount _].
  unfold node_count in Hcount. rewrite Hb in Hcount.
  destruct (fit_result rt fuel _ _ o Hg Hfit) as (lab & score' & Eo & Hlen).
  assert (Hf : length found = n_nodes g).
  { rewrite Eo in Ef. cbn [Optimizer.labels_] in Ef. injection Ef as <-.
    now rewrite unique_inverse_length. }
  pose proof (fit_needs_fuel rt fuel _ _ o Hfit) as Hfuel.
  assert (Hlev : exists s',
            level rt fuel (agg_tol self) (max_agg_iter self)
              {| optimizer := algorithm self; graph := g;
                 membership := identity (n_rows a); iteration_count := 0 |}
            = Some (Ok (Leave s')) /\
            iteration_count s' = 1%nat /\
            indices (membership s')
            = (if Qcleb score (agg_tol self) then seq 0 (n_rows adjacency) else found)).
  { unfold level. cbn [optimizer graph membership iteration_count].
    rewrite Hfit, Es, Ef.
    destruct (Qcleb score (agg_tol self)) eqn:E.
    - eexists. split; [reflexivity|]. cbn [iteration_count membership].
      split; [reflexivity|]. now rewrite identity_indices, Hcount.
    - destruct found as [|l0 tl] eqn:El; [|rewrite <- El in *].
      { exfalso. cbn [length] in Hf. apply Ht. rewrite (total_wf _ Hwa).
        assert (E0 : n_rows a = 0%nat) by congruence.
        now rewrite E0. }
      assert (Hne : found <> []) by (rewrite El; discriminate).
      destruct (membership_matrix_assignment found Hne)
        as (r & Er & Ar & Hrc & Hrw & Hrow).
      rewrite Er. cbn [bind].
      assert (Hrn : n_rows r = n_nodes g) by (rewrite (proj1 Ar); exact Hf).
      rewrite dot_ok by (rewrite (proj2 (identity_assignment (n_rows a))); congruence).
      cbn [bind].
      rewrite (aggregate_rows g (Matrix r) r eq_refl Hg Hrn).
      change (n_nodes (aggregated g r r)) with (n_cols r).
      assert (Ecap : Z.eqb (Z.of_nat (0 + 1)) (max_agg_iter self) = true)
        by (rewrite Hcap; reflexivity).
      assert (Eidx : indices (product (identity (n_rows a)) r) = found).
      { assert (Hfa : length found = n_rows a) by congruence.
        apply identity_product_indices; [exact Hrw | congruence | exact Hfa | |].
        - intros i Hi. apply Hrow. now rewrite Hfa.
        - rewrite <- Hfa. exact Ar. }
      destruct (Nat.eqb (n_cols r) 1); [|rewrite Ecap];
        (eexists; split; [reflexivity|]);
        cbn [iteration_count membership]; (split; [reflexivity | exact Eidx]). }
  destruct Hlev as (s' & El & Ec & Ei).
  unfold fit. rewrite Ep.
  rewrite (levels_first rt fuel fuel _ _ _ s' Hfuel El).
  eexists. split; [reflexivity|].
  unfold postprocess. cbn [labels_ iteration_count_].
  rewrite Hsh, Hcount, Nat.ltb_irrefl, Ec, Ei. split; reflexivity.
Qed.

Lemma single_turn_reports_optimizer_labels_witness :
  exists self',
    fit ascending_runtime 7 (louvain thousandth thousandth 1 false)
      two_triangles Degree None false false false [] = Some (Ok self') /\
    iteration_count_ self' = Some 1%nat /\
    labels_ self' = Some [0; 0; 0; 1; 1; 1]%nat.
Proof.
  assert (Ep : prepare (louvain thousandth thousandth 1 false) two_triangles Degree
                 None false false []
               = Ok (two_triangles, seq 0 6, graph_of two_triangles))
    by (vm_compute; reflexivity).
  eassert (Ef : GreedyModularity_fit ascending_runtime 7 (python_optimizer 1 thousandth)
                  (graph_of two_triangles) = Some (Ok _)) by (vm_compute; reflexivity).
  destruct (single_turn_reports_optimizer_labels ascending_runtime 7
              (louvain thousandth thousandth 1 false) two_triangles Degree None false []
              _ _ _ _ _ _
              two_triangles_wf eq_refl eq_refl eq_refl Ep Ef eq_refl eq_refl)
    as (self' & H1 & H2 & H3).
  exists self'. split; [exact H1|]. split; [exact H2|].
  rewrite H3. vm_compute. reflexivity.
Defined.

(** *** Exceptions of [Louvain.fit] *)

(** On a well-formed graph, the optimizer raises for an unresolved engine
    only. *)
Lemma fit_does_not_raise rt fuel self g e :
  graph_wf g -> engine self <> Default ->
  GreedyModularity_fit rt fuel self g <> Some (Raise e).
Proof.
  intros Hg He. unfold GreedyModularity_fit. rewrite (proxy_ok g Hg).
  rewrite engine_sweeps_visit.
  destruct (engine_visit rt self g _) as [visit|] eqn:Hv.
  - cbn [option_map]. destruct (sweeps _ _ _ _ _ _) as [[lab score]|]; discriminate.
  - exfalso. unfold engine_visit in Hv. destruct (engine self); congruence.
Qed.

Definition turn_ok (n0 : nat) (s : level_state) : Prop :=
  level_ok n0 s /\ engine (optimizer s) <> Default /\ (1 <= n_nodes (graph s))%nat.

Lemma level_does_not_raise rt fuel agg cap n0 s :
  turn_ok n0 s ->
  match level rt fuel agg cap s with
  | Some (Raise _) => False
  | Some (Ok t) => turn_ok n0 (ending t)
  | None => True
  end.
Proof.
  intros (Hok & He & Hpos).
  destruct (level rt fuel agg cap s) as [[t|e]|] eqn:El; [| |exact I].
  - split; [exact (level_preserves rt fuel agg cap n0 s t Hok El)|].
    destruct (level_cases rt fuel agg cap n0 s t Hok El)
      as (o & score & lab & Hfit & _ & _ & _ & _ & Hcase).
    destruct (fit_result rt fuel _ _ o (proj1 Hok) Hfit) as (lab' & score' & Eo & _).
    assert (Heo : engine o <> Default) by (rewrite Eo; exact He).
    destruct Hcase as [[_ ->] | (_ & r & _ & _ & _ & Hrc & _ & -> & _)].
    + cbn [ending optimizer graph]. now split.
    + cbn [optimizer graph]. split; [exact Heo|].
      change (n_nodes (aggregated (graph s) r r)) with (n_cols r). lia.
  - revert El. unfold level. destruct Hok as (Hg & Hmw & Hma & Hmc).
    destruct (GreedyModularity_fit rt fuel (optimizer s) (graph s)) as [[o|e']|] eqn:Hfit;
      [| |discriminate].
    + destruct (fit_result rt fuel _ _ o Hg Hfit) as (lab & score & Eo & Hlen).
      rewrite Eo. cbn [score_ Optimizer.labels_].
      destruct (Qcleb score agg); [discriminate|].
      assert (Hne : unique_inverse lab <> []).
      { intros E0. apply (f_equal (@length nat)) in E0.
        rewrite unique_inverse_length, Hlen in E0. cbn [length] in E0. lia. }
      destruct (membership_matrix_assignment _ Hne) as (r & Er & Ar & _).
      rewrite Er. cbn [bind].
      assert (Hrn : n_rows r = n_nodes (graph s))
        by (rewrite (proj1 Ar), unique_inverse_length; exact Hlen).
      rewrite dot_ok by congruence. cbn [bind].
      rewrite (aggregate_rows (graph s) (Matrix r) r eq_refl Hg Hrn).
      destruct (Nat.eqb _ 1); [discriminate|]. destruct (Z.eqb _ cap); discriminate.
    + exfalso. exact (fit_does_not_raise rt fuel _ _ e' Hg He Hfit).
Qed.

Lemma levels_do_not_raise rt fuel agg cap n0 e : forall turns s,
  turn_ok n0 s -> levels rt turns fuel agg cap s <> Some (Raise e).
Proof.
  induction turns as [|turns IH]; intros s Hs; [discriminate|].
  cbn [levels]. pose proof (level_does_not_raise rt fuel agg cap n0 s Hs) as H.
  destruct (level rt fuel agg cap s) as [[[s1|s1]|e']|]; try discriminate.
  - now apply IH.
  - contradiction.
Qed.

(** X19: [fit] raises only while it builds the graph: with a resolved
    engine, whatever it raises on a well-formed input was raised before the
    loop, and the loop itself never raises. *)
Theorem fit_raises_only_while_building_graph rt fuel self adjacency w sw fu fb sc
    permutation e :
  csr_wf adjacency -> engine (algorithm self) <> Default ->
  fit rt fuel self adjacency w sw fu fb sc permutation = Some (Raise e) ->
  prepare self adjacency w sw fu fb permutation = Raise e.
Proof.
  intros Ha He. unfold fit.
  destruct (prepare self adjacency w sw fu fb permutation) as [[[a nodes] g]|e'] eqn:Ep.
  - destruct (prepare_wf _ _ _ _ _ _ _ _ _ _ Ha Ep) as (Hwa & Hg & Hn & _ & _ & Ht).
    assert (H0 : turn_ok (n_rows a)
                   {| optimizer := algorithm self; graph := g;
                      membership := identity (n_rows a); iteration_count := 0 |}).
    { split; [exact (start_level_ok self a g Hg Hn)|]. split; [exact He|].
      cbn [graph]. rewrite Hn.
      destruct (n_rows a) as [|k] eqn:E0; [|lia].
      exfalso. apply Ht. now rewrite (total_wf _ Hwa), E0. }
    pose proof (levels_do_not_raise rt fuel (agg_tol self) (max_agg_iter self)
                  (n_rows a) e fuel _ H0) as Hno.
    destruct (levels rt fuel fuel _ _ _) as [[s|e'']|]; try discriminate.
    intros H. injection H as ->. now elim Hno.
  - intros H. now injection H as ->.
Qed.

Lemma fit_raises_only_while_building_graph_witness :
  fit ascending_runtime 7 (louvain thousandth thousandth (-1) false)
    empty3 Degree None false false true [] = Some (Raise ZeroDivision) /\
  prepare (louvain thousandth thousandth (-1) false) empty3 Degree None false false []
  = Raise ZeroDivision.
Proof.
  assert (E : fit ascending_runtime 7 (louvain thousandth thousandth (-1) false)
                empty3 Degree None false false true [] = Some (Raise ZeroDivision))
    by (vm_compute; reflexivity).
  split; [exact E|].
  refine (fit_raises_only_while_building_graph ascending_runtime 7
            (louvain thousandth thousandth (-1) false) empty3 Degree None false false
            true [] ZeroDivision _ _ E).
  - unfold empty3, adjacency_of. apply of_rows_wf; [reflexivity|]. repeat constructor.
  - discriminate.
Defined.

(** *** Aggregating by singletons *)

(** X20: Aggregating with every node in a cluster of its own, numbered as
    the node, changes neither the node count, nor any entry of the
    adjacency, nor any mass. *)
Theorem aggregate_by_singletons_changes_nothing g :
  graph_wf g -> (1 <= n_nodes g)%nat ->
  exists g',
    aggregate (Labels (seq 0 (n_nodes g))) None g = (g', Ok tt) /\
    n_nodes g' = n_nodes g /\
    (forall i j, (i < n_nodes g)%nat -> (j < n_nodes g)%nat ->
       row_at (row (norm_adjacency g') i) j = row_at (row (norm_adjacency g) i) j) /\
    (forall i, (i < n_nodes g)%nat ->
       nth i (out_probs g') 0 = nth i (out_probs g) 0) /\
    (forall i, (i < n_nodes g)%nat ->
       nth i (in_node_probs_of g') 0 = nth i (in_node_probs_of g) 0).
Proof.
  intros Hg Hpos. set (n := n_nodes g).
  assert (Hne : seq 0 n <> []).
  { intros E. apply (f_equal (@length nat)) in E. rewrite length_seq in E.
    cbn [length] in E. unfold n in E. lia. }
  destruct (membership_matrix_assignment (seq 0 n) Hne) as (r & Er & Ar & Hk & Hrw & Hrow).
  rewrite length_seq in Ar, Hrow.
  assert (Hn : n_rows r = n) by exact (proj1 Ar).
  assert (Hkn : n_cols r = n).
  { rewrite Hk. cbn [Nat.add].
    assert (Hb : (Datatypes.S (list_max (seq 0 n)) <= n)%nat).
    { apply list_max_bound; [exact Hne|].
      rewrite Forall_forall. intros c Hc. apply in_seq in Hc. lia. }
    assert (Hin : In (n - 1)%nat (seq 0 n)) by (apply in_seq; unfold n; lia).
    pose proof (list_max_above _ _ Hin). lia. }
  assert (Hat : forall i c, (i < n)%nat ->
            row_at (row r i) c = if Nat.eqb i c then 1 else 0).
  { intros i c Hi. rewrite Hrow by exact Hi. rewrite seq_nth0 by exact Hi.
    apply row_at_single. }
  assert (Hvec : forall v c, (c < n)%nat ->
            nth c (product_vec (transpose r) v) 0 = nth c v 0).
  { intros v c Hc.
    rewrite (nth_product_vec_transpose n) by (assumption || lia).
    rewrite (sumn_ext n _ (fun i => if Nat.eqb i c then nth c v 0 else 0)).
    - now apply sumn_single.
    - intros i Hi. rewrite Hat by exact Hi.
      destruct (Nat.eqb_spec i c) as [->|]; ring. }
  exists (aggregated g r r).
  split; [exact (aggregate_rows g (Labels (seq 0 n)) r Er Hg Hn)|].
  split; [exact Hkn|]. split; [|split].
  - intros i j Hi Hj. destruct Hg as (Hwf & Hnr & Hnc & _).
    unfold aggregated. cbn [norm_adjacency].
    rewrite row_at_transpose_product by lia. rewrite Hn.
    rewrite (sumn_ext n _
      (fun k => if Nat.eqb k i then row_at (row (norm_adjacency g) i) j else 0)).
    + now apply sumn_single.
    + intros k Hk'. rewrite Hat by exact Hk'.
      destruct (Nat.eqb_spec k i) as [->|]; [|ring].
      rewrite row_at_product by (assumption || (fold n; lia)).
      rewrite Hnc. fold n.
      rewrite (sumn_ext n _
        (fun c => if Nat.eqb c j then row_at (row (norm_adjacency g) i) j else 0)).
      * rewrite sumn_single by exact Hj. ring.
      * intros c Hc. rewrite Hat by exact Hc.
        destruct (Nat.eqb_spec c j) as [->|]; ring.
  - intros i Hi. unfold aggregated. cbn [out_probs]. now apply Hvec.
  - intros i Hi. rewrite in_node_probs_aggregated. now apply Hvec.
Qed.

Lemma aggregate_by_singletons_changes_nothing_witness :
  exists g',
    aggregate (Labels [0; 1; 2]%nat) None triangle_graph = (g', Ok tt) /\
    n_nodes g' = 3%nat.
Proof.
  destruct (aggregate_by_singletons_changes_nothing triangle_graph triangle_graph_wf
              ltac:(vm_compute; lia)) as (g' & H1 & H2 & _).
  exists g'. split; [exact H1 | exact H2].
Defined.

(** *** An aggregation tolerance below 0 *)

Lemma dot_row_from a b i e :
  In e (dot_row a b i) ->
  exists ea eb, In ea (row a i) /\ In eb (row b (fst ea)) /\ fst eb = fst e.
Proof.
  unfold dot_row. intros He.
  destruct (sum_duplicates_from _ _ He) as [e1 [He1 E1]].
  apply in_flat_map in He1. destruct He1 as [ea [Hea He1]].
  apply in_map_iff in He1. destruct He1 as [eb [<- Heb]].
  exists ea, eb. cbn [fst] in E1. auto.
Qed.

(** The singletons, as a membership matrix. *)
Lemma singletons_membership n :
  (1 <= n)%nat ->
  exists r,
    membership_matrix (seq 0 n) = Ok r /\ csr_wf r /\
    n_rows r = n /\ n_cols r = n /\
    forall i, (i < n)%nat -> row r i = [(i, 1)].
Proof.
  intros Hpos.
  assert (Hne : seq 0 n <> []).
  { intros E. apply (f_equal (@length nat)) in E. rewrite length_seq in E.
    cbn [length] in E. lia. }
  destruct (membership_matrix_assignment (seq 0 n) Hne) as (r & Er & Ar & Hk & Hrw & Hrow).
  rewrite length_seq in Ar, Hrow.
  exists r. split; [exact Er|]. split; [exact Hrw|]. split; [exact (proj1 Ar)|]. split.
  - rewrite Hk.
    assert (Hb : (Datatypes.S (list_max (seq 0 n)) <= n)%nat).
    { apply list_max_bound; [exact Hne|].
      rewrite Forall_forall. intros c Hc. apply in_seq in Hc. lia. }
    assert (Hin : In (n - 1)%nat (seq 0 n)) by (apply in_seq; lia).
    pose proof (list_max_above _ _ Hin). lia.
  - intros i Hi. rewrite Hrow by exact Hi. now rewrite seq_nth0.
Qed.

Lemma aggregated_self_loops g r :
  graph_wf g -> self_loops_only (norm_adjacency g) ->
  n_rows r = n_nodes g -> n_cols r = n_nodes g ->
  (forall i, (i < n_nodes g)%nat -> row r i = [(i, 1)]) ->
  self_loops_only (norm_adjacency (aggregated g r r)).
Proof.
  intros (Hwf & Hnr & Hnc & _) Hd Hn Hk Hrow c e Hc He.
  unfold aggregated in Hc, He. cbn [norm_adjacency] in Hc, He.
  rewrite n_rows_product, n_rows_transpose in Hc.
  rewrite row_dot in He by now rewrite n_rows_transpose.
  destruct (dot_row_from _ _ _ _ He) as (ea & eb & Hea & Heb & <-).
  rewrite row_transpose in Hea by exact Hc.
  destruct (column_from _ _ _ Hea) as [Hka [e' [He' E']]].
  rewrite Hrow in He' by lia. destruct He' as [<-|[]]. cbn [fst] in E'.
  rewrite E' in Heb.
  rewrite row_dot in Heb by (rewrite Hnr; lia).
  destruct (dot_row_from _ _ _ _ Heb) as (e1 & e2 & He1 & He2 & <-).
  assert (E1 : fst e1 = c) by (apply Hd; [rewrite Hnr; lia | exact He1]).
  rewrite E1, Hrow in He2 by lia. now destruct He2 as [<-|[]].
Qed.

Definition stuck (n : nat) (s : level_state) : Prop :=
  graph_wf (graph s) /\
  self_loops_only (norm_adjacency (graph s)) /\
  n_nodes (graph s) = n /\
  n_cols (membership s) = n /\
  0 <= tol (optimizer s) /\
  engine (optimizer s) <> Default.

Lemma level_stuck rt fuel agg cap n s :
  (2 <= n)%nat -> agg < 0 -> (cap <= 0)%Z ->
  stuck n s ->
  exists s', level rt (Datatypes.S fuel) agg cap s = Some (Ok (Again s')) /\ stuck n s'.
Proof.
  intros Hn Hagg Hcap (Hg & Hd & Hnn & Hmc & Htol & He).
  unfold level. rewrite (fit_on_self_loops rt fuel _ _ Hg Hd Htol He).
  cbn [score_ Optimizer.labels_].
  assert (E0 : Qcleb (0 + 0) agg = false)
    by (apply Qcleb_gt; now rewrite Qcplus_0_r).
  rewrite E0, Hnn.
  destruct (singletons_membership n ltac:(lia)) as (r & Er & Hrw & Hrn & Hrk & Hrow).
  rewrite Er. cbn [bind].
  rewrite dot_ok by congruence. cbn [bind].
  rewrite (aggregate_rows (graph s) (Matrix r) r eq_refl Hg ltac:(congruence)).
  change (n_nodes (aggregated (graph s) r r)) with (n_cols r). rewrite Hrk.
  destruct (Nat.eqb_spec n 1) as [|_]; [lia|].
  destruct (Z.eqb_spec (Z.of_nat (iteration_count s + 1)) cap) as [|_]; [lia|].
  eexists. split; [reflexivity|].
  unfold stuck. cbn [graph membership optimizer tol engine].
  split; [exact (proj1 (aggregated_wf (graph s) r Hg Hrw ltac:(congruence)))|].
  split; [apply aggregated_self_loops; auto; try congruence;
          intros i Hi; apply Hrow; congruence|].
  split; [exact Hrk|]. split; [exact Hrk|]. now split.
Qed.

Lemma levels_stuck rt fuel agg cap n :
  (2 <= n)%nat -> agg < 0 -> (cap <= 0)%Z ->
  forall turns s, stuck n s ->
    levels rt turns (Datatypes.S fuel) agg cap s = None.
Proof.
  intros Hn Hagg Hcap. induction turns as [|turns IH]; intros s Hs; [reflexivity|].
  cbn [levels].
  destruct (level_stuck rt fuel agg cap n s Hn Hagg Hcap Hs) as (s' & -> & Hs').
  now apply IH.
Qed.

(** X21: An aggregation tolerance below 0 can keep the loop going for
    ever: on a square adjacency with two nodes at least whose stored
    entries are all on the diagonal, without cap, every turn finds a score
    of 0, which is above the tolerance, and aggregates the nodes into
    themselves; no fuel is enough. *)
Theorem negative_agg_tol_never_stops rt self adjacency w g sc permutation :
  csr_wf adjacency -> n_rows adjacency = n_cols adjacency ->
  self_loops_only adjacency ->
  (2 <= n_rows adjacency)%nat ->
  shuffle_nodes self = false ->
  agg_tol self < 0 -> (max_agg_iter self <= 0)%Z ->
  0 <= tol (algorithm self) -> engine (algorithm self) <> Default ->
  init adjacency w (Some w) = Ok g ->
  forall fuel,
    fit rt fuel self adjacency w None false false sc permutation = None.
Proof.
  intros Ha Hsq Hd Hn Hsh Hagg Hcap Htol He Hinit fuel.
  destruct (init_wf adjacency w w g Ha Hsq Hinit) as [Hg Hgn].
  assert (Hgd : self_loops_only (norm_adjacency g)).
  { intros i e Hi He'. rewrite (init_rows _ _ _ _ i Hinit) in He'.
    apply in_map_iff in He'. destruct He' as [e0 [<- He0]]. cbn [fst].
    apply (Hd i e0); [|exact He0].
    destruct Hg as (_ & Hr & _). congruence. }
  assert (Ep : prepare self adjacency w None false false permutation
               = Ok (adjacency, seq 0 (n_rows adjacency), g)).
  { assert (Eq : Nat.eqb (n_rows adjacency) (n_cols adjacency) = true)
      by now apply Nat.eqb_eq.
    unfold prepare, preprocess, check_format. cbv zeta.
    rewrite Eq. cbn [negb orb bind]. rewrite Hsh, Hinit. reflexivity. }
  unfold fit. rewrite Ep.
  destruct fuel as [|fuel]; [reflexivity|].
  rewrite (levels_stuck rt fuel (agg_tol self) (max_agg_iter self) (n_rows adjacency)
             Hn Hagg Hcap); [reflexivity|].
  unfold stuck. cbn [graph membership optimizer].
  split; [exact Hg|]. split; [exact Hgd|]. split; [exact Hgn|].
  split; [reflexivity|]. now split.
Qed.

Lemma negative_agg_tol_never_stops_witness :
  fit ascending_runtime 9 (louvain thousandth minus_one (-1) false)
    (identity 3) Degree None false false true [] = None.
Proof.
  eassert (E : init (identity 3) Degree (Some Degree) = Ok _)
    by (vm_compute; reflexivity).
  refine (negative_agg_tol_never_stops ascending_runtime
            (louvain thousandth minus_one (-1) false) (identity 3) Degree _ true []
            identity3_wf eq_refl _ _ eq_refl _ _ _ _ E 9%nat).
  - intros i e Hi He. change (n_rows (identity 3)) with 3%nat in Hi.
    destruct i as [|[|[|i]]]; [| | |lia]; vm_compute in He;
      destruct He as [<-|[]]; reflexivity.
  - vm_compute. lia.
  - vm_compute. reflexivity.
  - vm_compute. discriminate.
  - vm_compute. discriminate.
  - discriminate.
Defined.

End Properties.
